(** * spit: the ollama prompt forwarder of gettext-tools

    A shallow embedding of
    [gettext-tools/machine-translation/prototype/ollama-spit.py] and of the
    library routines its [main] calls: the [argparse] parser it configures
    (CPython 3.11, [Lib/argparse.py]), [json.dumps] and [json.loads]
    ([Lib/json/encoder.py], [Lib/json/decoder.py], [Lib/json/scanner.py]) and
    the strict UTF-8 codec.  Input and output are made explicit: a run is a
    function from the argument vector, the text of standard input and the
    behaviour of the server to a trace of events and a way of terminating. *)

From Stdlib Require Import List NArith ZArith Lia Bool Ascii String.
From Stdlib.Strings Require Import Byte.
From Stdlib Require DecimalString.
Import ListNotations.

Set Warnings "-register-all".

Local Open Scope string_scope.
Local Open Scope N_scope.
Local Open Scope list_scope.

(** ** Python text

    A Python [str] is a sequence of Unicode code points. *)

Definition str := list N.

(** The [str] written with the ASCII characters of a Rocq string. *)
Definition lit (s : string) : str := map N_of_ascii (list_ascii_of_string s).

Fixpoint str_eqb (a b : str) : bool :=
  match a, b with
  | [], [] => true
  | x :: a', y :: b' => N.eqb x y && str_eqb a' b'
  | _, _ => false
  end.

(** [s.startswith(prefix)] *)
Fixpoint startswith (s prefix : str) {struct prefix} : bool :=
  match prefix with
  | [] => true
  | p :: prefix' =>
      match s with
      | [] => false
      | c :: s' => N.eqb c p && startswith s' prefix'
      end
  end.

(** [s.endswith(suffix)] *)
Definition endswith (s suffix : str) : bool := startswith (rev s) (rev suffix).

(** [c in s] for a single character [c]. *)
Definition contains (c : N) (s : str) : bool := existsb (N.eqb c) s.

(** [s.split(sep, 1)] when [sep] occurs in [s]: the text before and after its
    first occurrence; [None] when it does not occur. *)
Fixpoint split_once (sep : N) (s : str) : option (str * str) :=
  match s with
  | [] => None
  | c :: s' =>
      if N.eqb c sep then Some ([], s')
      else match split_once sep s' with
           | Some (before, after) => Some (c :: before, after)
           | None => None
           end
  end.

(** [str(n)] for an [int]. *)
Definition str_of_int (n : Z) : str :=
  lit (DecimalString.NilZero.string_of_int (Z.to_int n)).

Definition ch (a : ascii) : N := N_of_ascii a.

(** ** The argument parser

    [main] builds an [ArgumentParser(prog='spit', usage='spit --help',
    add_help=False)] with the options [--url] (one value), [--model]
    ([nargs=1]), [--help] together with the spellings [--hel], [--he], [--h]
    ([store_true]), and a positional [non_option_arguments] with [nargs='*'].
    The definitions below are [ArgumentParser.parse_known_args] and the
    methods it calls, specialised to that parser. *)

Module argparse.

Inductive action :=
| url_action
| model_action
| help_action
| non_option_arguments_action.

Definition action_eqb (a b : action) : bool :=
  match a, b with
  | url_action, url_action
  | model_action, model_action
  | help_action, help_action
  | non_option_arguments_action, non_option_arguments_action => true
  | _, _ => false
  end.

(** [self.prefix_chars] *)
Definition prefix_chars : str := lit "-".

(** [self._option_string_actions], in insertion order. *)
Definition _option_string_actions : list (str * action) :=
  [ (lit "--url", url_action);
    (lit "--model", model_action);
    (lit "--help", help_action);
    (lit "--hel", help_action);
    (lit "--he", help_action);
    (lit "--h", help_action) ].

Fixpoint lookup (key : str) (d : list (str * action)) : option action :=
  match d with
  | [] => None
  | (k, a) :: d' => if str_eqb key k then Some a else lookup key d'
  end.

(** The ways in which the parser calls [self.error], which prints the usage
    line and the message on standard error and exits with status 2. *)
Inductive error :=
| ambiguous_option (option : str) (matches : list str)
| expected_argument (a : action)
| ignored_explicit_argument (a : action) (explicit_arg : str)
| unexpected_option_string (option_string : str)
| out_of_fuel.

(** An option tuple: the action ([None] when no option matches), the option
    string and the explicit argument given after [=]. *)
Definition option_tuple := (option action * str * option str)%type.

(** Decimal digits, as [\d] matches them in a [str] pattern: the characters
    of general category Nd (Unicode 14.0, the version of CPython 3.11), given
    as the first code point and the length of each run. *)
Definition decimal_runs : list (N * N) :=
  [ (48, 10); (1632, 10); (1776, 10); (1984, 10); (2406, 10); (2534, 10);
    (2662, 10); (2790, 10); (2918, 10); (3046, 10); (3174, 10); (3302, 10);
    (3430, 10); (3558, 10); (3664, 10); (3792, 10); (3872, 10); (4160, 10);
    (4240, 10); (6112, 10); (6160, 10); (6470, 10); (6608, 10); (6784, 10);
    (6800, 10); (6992, 10); (7088, 10); (7232, 10); (7248, 10); (42528, 10);
    (43216, 10); (43264, 10); (43472, 10); (43504, 10); (43600, 10);
    (44016, 10); (65296, 10); (66720, 10); (68912, 10); (69734, 10);
    (69872, 10); (69942, 10); (70096, 10); (70384, 10); (70736, 10);
    (70864, 10); (71248, 10); (71360, 10); (71472, 10); (71904, 10);
    (72016, 10); (72784, 10); (73040, 10); (73120, 10); (92768, 10);
    (92864, 10); (93008, 10); (120782, 50); (123200, 10); (123632, 10);
    (125264, 10); (130032, 10) ]%N.

Definition is_decimal (c : N) : bool :=
  existsb (fun r => N.leb (fst r) c && N.ltb c (fst r + snd r)) decimal_runs.

(** The longest run of decimal digits at the start of [s], and what follows. *)
Fixpoint span_decimal (s : str) : str * str :=
  match s with
  | c :: s' =>
      if is_decimal c
      then let (ds, rest) := span_decimal s' in (c :: ds, rest)
      else ([], s)
  | [] => ([], [])
  end.

(** [$]: the end of the text, or the position before a final newline. *)
Definition at_end (s : str) : bool :=
  match s with
  | [] => true
  | [c] => N.eqb c 10
  | _ => false
  end.

(** [self._negative_number_matcher.match(s)] for the pattern
    [^-\d+$|^-\d*\.\d+$]. *)
Definition _negative_number_matcher (s : str) : bool :=
  match s with
  | c :: s' =>
      N.eqb c (ch "-") &&
      (let (ds, rest) := span_decimal s' in
       (negb (str_eqb ds []) && at_end rest)
       ||
       match rest with
       | d :: rest' =>
           N.eqb d (ch ".") &&
           (let (fs, rest'') := span_decimal rest' in
            negb (str_eqb fs []) && at_end rest'')
       | [] => false
       end)
  | [] => false
  end.

(** [self._get_option_tuples(option_string)]; [allow_abbrev] is set. *)
Definition _get_option_tuples (option_string : str)
  : error + list option_tuple :=
  match option_string with
  | c0 :: c1 :: _ =>
      if contains c0 prefix_chars && contains c1 prefix_chars then
        let '(option_prefix, explicit_arg) :=
          match split_once (ch "=") option_string with
          | Some (p, e) => (p, Some e)
          | None => (option_string, None)
          end in
        inr (map (fun oa => (Some (snd oa), fst oa, explicit_arg))
               (filter (fun oa => startswith (fst oa) option_prefix)
                  _option_string_actions))
      else if contains c0 prefix_chars && negb (contains c1 prefix_chars) then
        let option_prefix := option_string in
        let short_option_prefix := firstn 2 option_string in
        let short_explicit_arg := skipn 2 option_string in
        inr (flat_map
               (fun oa =>
                  if str_eqb (fst oa) short_option_prefix
                  then [(Some (snd oa), fst oa, Some short_explicit_arg)]
                  else if startswith (fst oa) option_prefix
                  then [(Some (snd oa), fst oa, None)]
                  else [])
               _option_string_actions)
      else inl (unexpected_option_string option_string)
  | _ => inl (unexpected_option_string option_string)
  end.

(** [self._parse_optional(arg_string)]: [inr None] classifies the argument as
    a positional, [inr (Some t)] as an option.  The parser has no option that
    looks like a negative number. *)
Definition _parse_optional (arg_string : str) : error + option option_tuple :=
  match arg_string with
  | [] => inr None
  | c0 :: _ =>
      if negb (contains c0 prefix_chars) then inr None
      else
        match lookup arg_string _option_string_actions with
        | Some a => inr (Some (Some a, arg_string, None))
        | None =>
            if Nat.eqb (List.length arg_string) 1 then inr None
            else
              let exact :=
                match split_once (ch "=") arg_string with
                | Some (option_string, explicit_arg) =>
                    match lookup option_string _option_string_actions with
                    | Some a => Some (Some a, option_string, Some explicit_arg)
                    | None => None
                    end
                | None => None
                end in
              match exact with
              | Some t => inr (Some t)
              | None =>
                  match _get_option_tuples arg_string with
                  | inl e => inl e
                  | inr (_ :: _ :: _ as option_tuples) =>
                      inl (ambiguous_option arg_string
                             (map (fun t => snd (fst t)) option_tuples))
                  | inr [option_tuple] => inr (Some option_tuple)
                  | inr [] =>
                      if _negative_number_matcher arg_string then inr None
                      else if contains (ch " ") arg_string then inr None
                      else inr (Some (None, arg_string, None))
                  end
              end
        end
  end.

(** The letters of [arg_strings_pattern]: ['O'] with the option tuple that
    [option_string_indices] records for the index, ['A'], and ['-']. *)
Inductive kind :=
| letter_O (t : option_tuple)
| letter_A
| letter_dash.

(** The first loop of [_parse_known_args]: every argument paired with its
    letter.  All arguments after [--] are non-options. *)
Fixpoint arg_strings_pattern (arg_strings : list str)
  : error + list (str * kind) :=
  match arg_strings with
  | [] => inr []
  | arg_string :: rest =>
      if str_eqb arg_string (lit "--")
      then inr ((arg_string, letter_dash) :: map (fun s => (s, letter_A)) rest)
      else
        match _parse_optional arg_string with
        | inl e => inl e
        | inr option_tuple =>
            match arg_strings_pattern rest with
            | inl e => inl e
            | inr parts =>
                inr ((arg_string,
                      match option_tuple with
                      | None => letter_A
                      | Some t => letter_O t
                      end) :: parts)
            end
        end
  end.

(** The values an attribute of the namespace takes in this program. *)
Inductive pyobj :=
| PyNone
| PyTrue
| PyStr (s : str)
| PyList (l : list str).

Record Namespace := mkNamespace {
  url : pyobj;
  model : pyobj;
  help : pyobj;
  non_option_arguments : pyobj
}.

(** The namespace built from the defaults of the actions. *)
Definition defaults : Namespace :=
  {| url := PyStr (lit "http://localhost:11434");
     model := PyNone;
     help := PyNone;
     non_option_arguments := PyNone |}.

(** [arg_strings.remove('--')], ignoring the [ValueError]. *)
Fixpoint remove_first (x : str) (l : list str) : list str :=
  match l with
  | [] => []
  | y :: l' => if str_eqb y x then l' else y :: remove_first x l'
  end.

(** [self._get_values(action, arg_strings)]: the first [--] is stripped; an
    action with [nargs=None] and one string left takes that string, every
    other case here produces a list. *)
Definition _get_values (a : action) (arg_strings : list str) : pyobj :=
  let arg_strings := remove_first (lit "--") arg_strings in
  match a, arg_strings with
  | url_action, [arg_string] => PyStr arg_string
  | _, _ => PyList arg_strings
  end.

(** [take_action]: the store actions set their attribute to the value, the
    [store_true] action sets it to [True]. *)
Definition take_action (a : action) (argument_strings : list str)
    (namespace : Namespace) : Namespace :=
  let argument_values := _get_values a argument_strings in
  match a with
  | url_action =>
      {| url := argument_values; model := model namespace;
         help := help namespace;
         non_option_arguments := non_option_arguments namespace |}
  | model_action =>
      {| url := url namespace; model := argument_values;
         help := help namespace;
         non_option_arguments := non_option_arguments namespace |}
  | help_action =>
      {| url := url namespace; model := model namespace;
         help := PyTrue;
         non_option_arguments := non_option_arguments namespace |}
  | non_option_arguments_action =>
      {| url := url namespace; model := model namespace;
         help := help namespace;
         non_option_arguments := argument_values |}
  end.

(** The state of the second loop: the namespace, whether the list
    [positionals] still holds the positional action, and [extras]. *)
Record state := mkState {
  namespace : Namespace;
  positionals : bool;
  extras : list str
}.

Definition is_option (it : str * kind) : bool :=
  match snd it with
  | letter_O _ => true
  | _ => false
  end.

(** The arguments before the next option and the remainder: the longest run of
    letters ['A'] and ['-'], which is what the pattern of a positional with
    [nargs='*'] matches, and also
    [arg_strings[start_index:next_option_string_index]]. *)
Fixpoint span_arguments (items : list (str * kind))
  : list (str * kind) * list (str * kind) :=
  match items with
  | it :: items' =>
      if is_option it then ([], items)
      else let (taken, rest) := span_arguments items' in (it :: taken, rest)
  | [] => ([], [])
  end.

(** [consume_positionals(start_index)], the arguments from [start_index] on
    being [items]: the positional action, when still in [positionals], takes
    the arguments up to the next option; otherwise nothing is consumed. *)
Definition consume_positionals (items : list (str * kind)) (st : state)
  : state * list (str * kind) :=
  if positionals st then
    let (taken, rest) := span_arguments items in
    ({| namespace :=
          take_action non_option_arguments_action (map fst taken)
            (namespace st);
        positionals := false;
        extras := extras st |}, rest)
  else (st, items).

(** The number of arguments [_match_argument] lets an option take: the
    patterns are [(A)] for [--url] and [--model] and [()] for [--help]. *)
Definition nargs (a : action) : nat :=
  match a with
  | help_action => 0%nat
  | _ => 1%nat
  end.

(** [consume_optional(start_index)] for the option [arg_string] with tuple
    [t], followed by [rest].  Every option string starts with two prefix
    characters, so an explicit argument is never read as further
    single-dash options. *)
Definition consume_optional (arg_string : str) (t : option_tuple)
    (rest : list (str * kind)) (st : state)
  : error + state * list (str * kind) :=
  match t with
  | (None, _, _) =>
      inr ({| namespace := namespace st; positionals := positionals st;
              extras := extras st ++ [arg_string] |}, rest)
  | (Some a, option_string, Some explicit_arg) =>
      if Nat.eqb (nargs a) 1 then
        inr ({| namespace := take_action a [explicit_arg] (namespace st);
                positionals := positionals st;
                extras := extras st |}, rest)
      else inl (ignored_explicit_argument a explicit_arg)
  | (Some a, option_string, None) =>
      match nargs a with
      | 0%nat =>
          inr ({| namespace := take_action a [] (namespace st);
                  positionals := positionals st;
                  extras := extras st |}, rest)
      | _ =>
          match rest with
          | (arg, letter_A) :: rest' =>
              inr ({| namespace := take_action a [arg] (namespace st);
                      positionals := positionals st;
                      extras := extras st |}, rest')
          | _ => inl (expected_argument a)
          end
      end
  end.

(** The second loop of [_parse_known_args] and what follows it.  [items] are
    the arguments from [start_index] on; the loop runs while an option is
    left ([start_index <= max_option_string_index]). *)
Fixpoint consume (fuel : nat) (items : list (str * kind)) (st : state)
  : error + state :=
  if negb (existsb is_option items) then
    (* consume any positionals following the last optional; what is left
       are extras *)
    let (st', rest) := consume_positionals items st in
    inr {| namespace := namespace st'; positionals := positionals st';
           extras := extras st' ++ map fst rest |}
  else
    match fuel with
    | 0%nat => inl out_of_fuel
    | S fuel' =>
        match items with
        | (arg_string, letter_O t) :: rest =>
            (* start_index == next_option_string_index *)
            match consume_optional arg_string t rest st with
            | inl e => inl e
            | inr (st', items') => consume fuel' items' st'
            end
        | _ =>
            let (st', items') := consume_positionals items st in
            if Nat.ltb (List.length items') (List.length items) then
              (* positionals_end_index > start_index: continue *)
              consume fuel' items' st'
            else
              (* the arguments before the next option are extras; the
                 option is consumed next, at the head of what is left *)
              let (strings, items'') := span_arguments items' in
              consume fuel' items''
                {| namespace := namespace st';
                   positionals := positionals st';
                   extras := extras st' ++ map fst strings |}
        end
    end.

(** [parser.parse_known_args()] on the arguments [args] (that is,
    [sys.argv[1:]]): the namespace and the arguments left unhandled. *)
Definition parse_known_args (args : list str)
  : error + Namespace * list str :=
  match arg_strings_pattern args with
  | inl e => inl e
  | inr items =>
      match
        consume (S (List.length items)) items
          {| namespace := defaults; positionals := true; extras := [] |}
      with
      | inl e => inl e
      | inr st => inr (namespace st, extras st)
      end
  end.

End argparse.

(** ** UTF-8

    [bytes.decode('utf-8')] with the strict error handler: [None] stands for
    [UnicodeDecodeError].  Overlong forms, surrogates and code points above
    U+10FFFF are rejected. *)

Definition bytes := list byte.

Definition is_continuation (b : N) : bool := N.leb 128 b && N.leb b 191.

Definition between (lo b hi : N) : bool := N.leb lo b && N.leb b hi.

Fixpoint utf8_decode (bs : list N) : option str :=
  match bs with
  | [] => Some []
  | b0 :: r0 =>
      if N.ltb b0 128 then option_map (cons b0) (utf8_decode r0)
      else
        match r0 with
        | [] => None
        | b1 :: r1 =>
            if between 194 b0 223 then
              if is_continuation b1
              then option_map (cons ((b0 - 192) * 64 + (b1 - 128)))
                     (utf8_decode r1)
              else None
            else
              match r1 with
              | [] => None
              | b2 :: r2 =>
                  if between 224 b0 239 then
                    if (if N.eqb b0 224 then between 160 b1 191
                        else if N.eqb b0 237 then between 128 b1 159
                        else is_continuation b1)
                       && is_continuation b2
                    then option_map
                           (cons ((b0 - 224) * 4096 + (b1 - 128) * 64
                                  + (b2 - 128)))
                           (utf8_decode r2)
                    else None
                  else
                    match r2 with
                    | [] => None
                    | b3 :: r3 =>
                        if between 240 b0 244 then
                          if (if N.eqb b0 240 then between 144 b1 191
                              else if N.eqb b0 244 then between 128 b1 143
                              else is_continuation b1)
                             && is_continuation b2 && is_continuation b3
                          then option_map
                                 (cons ((b0 - 240) * 262144
                                        + (b1 - 128) * 4096
                                        + (b2 - 128) * 64 + (b3 - 128)))
                                 (utf8_decode r3)
                          else None
                        else None
                    end
              end
        end
  end.

(** [line.decode('utf-8')] *)
Definition decode (line : bytes) : option str :=
  utf8_decode (map Byte.to_N line).

(** ** JSON *)

Module json.

(** What [json.loads] returns: [None], [True] and [False], an [int], a
    [float] (kept as the text it was read from), a [str], a [list], or a
    [dict], kept as its pairs in the order they were read. *)
Inductive value :=
| Null
| Bool (b : bool)
| Int (n : Z)
| Float (lexeme : str)
| String (s : str)
| Array (l : list value)
| Object (pairs : list (str * value)).

Inductive exception :=
| JSONDecodeError (msg : string)
| ValueError (msg : string)
| StopIteration
| out_of_fuel.

Definition quote : N := 34.
Definition backslash : N := 92.

(** *** Encoding: [json.dumps] with its default [ensure_ascii=True] *)

Definition hex_char (d : N) : N :=
  if N.ltb d 10 then 48 + d else 97 + (d - 10).

(** ['\\u{0:04x}'.format(n)] for [n < 0x10000] *)
Definition u_escape (n : N) : str :=
  [backslash; ch "u";
   hex_char (N.modulo (N.div n 4096) 16);
   hex_char (N.modulo (N.div n 256) 16);
   hex_char (N.modulo (N.div n 16) 16);
   hex_char (N.modulo n 16)].

(** The replacement of one character in [py_encode_basestring_ascii]:
    characters from the space to the tilde other than the backslash and the
    double quote are kept; the others are looked up in [ESCAPE_DCT] or
    written as [\uXXXX] escapes, with a surrogate pair above U+FFFF. *)
Definition replace (c : N) : str :=
  if N.eqb c backslash then [backslash; backslash]
  else if N.eqb c quote then [backslash; quote]
  else if between 32 c 126 then [c]
  else if N.eqb c 8 then [backslash; ch "b"]
  else if N.eqb c 12 then [backslash; ch "f"]
  else if N.eqb c 10 then [backslash; ch "n"]
  else if N.eqb c 13 then [backslash; ch "r"]
  else if N.eqb c 9 then [backslash; ch "t"]
  else if N.ltb c 65536 then u_escape c
  else
    let n := c - 65536 in
    let s1 := N.lor 55296 (N.land (N.shiftr n 10) 1023) in
    let s2 := N.lor 56320 (N.land n 1023) in
    u_escape s1 ++ u_escape s2.

Definition encode_basestring_ascii (s : str) : str :=
  quote :: flat_map replace s ++ [quote].

(** [json.dumps(d)] for a [dict] [d] whose keys and values are [str]s, given
    as its items in insertion order. *)
Fixpoint dumps_items (items : list (str * str)) : str :=
  match items with
  | [] => []
  | [(k, v)] =>
      encode_basestring_ascii k ++ lit ": " ++ encode_basestring_ascii v
  | (k, v) :: items' =>
      encode_basestring_ascii k ++ lit ": " ++ encode_basestring_ascii v
      ++ lit ", " ++ dumps_items items'
  end.

Definition dumps (items : list (str * str)) : str :=
  ch "{" :: dumps_items items ++ [ch "}"].

(** *** Decoding: [json.loads] *)

Definition hex_digit (c : N) : option N :=
  if between 48 c 57 then Some (c - 48)
  else if between 97 c 102 then Some (c - 87)
  else if between 65 c 70 then Some (c - 55)
  else None.

(** [_decode_uXXXX]: the four hexadecimal digits after [\u]. *)
Definition _decode_uXXXX (s : str) : option (N * str) :=
  match s with
  | h1 :: h2 :: h3 :: h4 :: rest =>
      match hex_digit h1, hex_digit h2, hex_digit h3, hex_digit h4 with
      | Some d1, Some d2, Some d3, Some d4 =>
          Some (d1 * 4096 + d2 * 256 + d3 * 16 + d4, rest)
      | _, _, _, _ => None
      end
  | _ => None
  end.

(** The table [BACKSLASH]. *)
Definition BACKSLASH (esc : N) : option N :=
  if N.eqb esc quote then Some quote
  else if N.eqb esc backslash then Some backslash
  else if N.eqb esc (ch "/") then Some (ch "/")
  else if N.eqb esc (ch "b") then Some 8
  else if N.eqb esc (ch "f") then Some 12
  else if N.eqb esc (ch "n") then Some 10
  else if N.eqb esc (ch "r") then Some 13
  else if N.eqb esc (ch "t") then Some 9
  else None.

Definition prepend (c : N) (r : exception + str * str)
  : exception + str * str :=
  match r with
  | inr (chars, rest) => inr (c :: chars, rest)
  | inl e => inl e
  end.

(** [scanstring(s, end, strict=True)]: [s] is the text after the opening
    quote; the result is the decoded string and the text after the closing
    quote. *)
Fixpoint scanstring (s : str) : exception + str * str :=
  match s with
  | [] => inl (JSONDecodeError "Unterminated string starting at")
  | c :: s1 =>
      if N.eqb c quote then inr ([], s1)
      else if N.ltb c 32 then
        inl (JSONDecodeError "Invalid control character at")
      else if negb (N.eqb c backslash) then prepend c (scanstring s1)
      else
        match s1 with
        | [] => inl (JSONDecodeError "Unterminated string starting at")
        | esc :: s2 =>
            if negb (N.eqb esc (ch "u")) then
              match BACKSLASH esc with
              | Some char => prepend char (scanstring s2)
              | None => inl (JSONDecodeError "Invalid \escape")
              end
            else
              match s2 with
              | h1 :: h2 :: h3 :: h4 :: s3 =>
                  match _decode_uXXXX [h1; h2; h3; h4] with
                  | None => inl (JSONDecodeError "Invalid \uXXXX escape")
                  | Some (uni, _) =>
                      if between 55296 uni 56319 then
                        match s3 with
                        | b :: u :: s4 =>
                            if N.eqb b backslash && N.eqb u (ch "u") then
                              match s4 with
                              | g1 :: g2 :: g3 :: g4 :: s5 =>
                                  match _decode_uXXXX [g1; g2; g3; g4] with
                                  | None =>
                                      inl (JSONDecodeError
                                             "Invalid \uXXXX escape")
                                  | Some (uni2, _) =>
                                      if between 56320 uni2 57343 then
                                        prepend
                                          (65536 +
                                           N.lor (N.shiftl (uni - 55296) 10)
                                             (uni2 - 56320))
                                          (scanstring s5)
                                      else prepend uni (scanstring s3)
                                  end
                              | _ =>
                                  inl (JSONDecodeError
                                         "Invalid \uXXXX escape")
                              end
                            else prepend uni (scanstring s3)
                        | _ => prepend uni (scanstring s3)
                        end
                      else prepend uni (scanstring s3)
                  end
              | _ => inl (JSONDecodeError "Invalid \uXXXX escape")
              end
        end
  end.

(** [WHITESPACE.match(s, end).end()]: the text after the blanks. *)
Definition is_ws (c : N) : bool :=
  N.eqb c 32 || N.eqb c 9 || N.eqb c 10 || N.eqb c 13.

Fixpoint skip_ws (s : str) : str :=
  match s with
  | c :: s' => if is_ws c then skip_ws s' else s
  | [] => []
  end.

Definition is_digit (c : N) : bool := between 48 c 57.

Fixpoint span_digits (s : str) : str * str :=
  match s with
  | c :: s' =>
      if is_digit c
      then let (ds, rest) := span_digits s' in (c :: ds, rest)
      else ([], s)
  | [] => ([], [])
  end.

(** The value of a run of ASCII digits. *)
Definition digits_value (ds : str) : Z :=
  fold_left (fun acc d => (10 * acc + Z.of_N (d - 48)%N)%Z) ds 0%Z.

(** [sys.int_info.default_max_str_digits] *)
Definition max_str_digits : N := 4300.

(** [NUMBER_RE.match]: the integer part, the fraction and the exponent,
    and the text that follows; [None] when no number starts the text.  The
    scanner in use accepts the ASCII digits only. *)
Definition match_number (s : str) : option (str * str * str * str) :=
  let (sign, s0) :=
    match s with
    | c :: s' => if N.eqb c (ch "-") then ([c], s') else ([], s)
    | [] => ([], s)
    end in
  match s0 with
  | d :: s1 =>
      if is_digit d then
        let (ds, s2) :=
          if N.eqb d 48 then ([], s1) else span_digits s1 in
        let integer := sign ++ d :: ds in
        let (frac, s3) :=
          match s2 with
          | p :: s' =>
              if N.eqb p (ch ".") then
                match span_digits s' with
                | ([], _) => ([], s2)
                | (fs, rest) => (p :: fs, rest)
                end
              else ([], s2)
          | [] => ([], s2)
          end in
        let (exp, s4) :=
          match s3 with
          | e :: s' =>
              if N.eqb e (ch "e") || N.eqb e (ch "E") then
                let (esign, s'') :=
                  match s' with
                  | c :: t =>
                      if N.eqb c (ch "-") || N.eqb c (ch "+")
                      then ([c], t) else ([], s')
                  | [] => ([], s')
                  end in
                match span_digits s'' with
                | ([], _) => ([], s3)
                | (es, rest) => (e :: esign ++ es, rest)
                end
              else ([], s3)
          | [] => ([], s3)
          end in
        Some (integer, frac, exp, s4)
      else None
  | [] => None
  end.

(** [int(integer)] *)
Definition parse_int (integer : str) : exception + value :=
  let (negative, ds) :=
    match integer with
    | c :: ds => if N.eqb c (ch "-") then (true, ds) else (false, integer)
    | [] => (false, [])
    end in
  if N.ltb max_str_digits (N.of_nat (List.length ds))
  then inl (ValueError "Exceeds the limit for integer string conversion")
  else inr (Int (if negative then (- digits_value ds)%Z else digits_value ds)).

Section Decoder.

(** [scan_once], as [JSONObject] and [JSONArray] receive it. *)
Variable scan_once : str -> exception + value * str.

Definition expecting_value (r : exception + value * str)
  : exception + value * str :=
  match r with
  | inl StopIteration => inl (JSONDecodeError "Expecting value")
  | _ => r
  end.

(** The loop of [JSONObject]; [s] is the text after the opening quote of a
    key. *)
Fixpoint object_loop (fuel : nat) (s : str) (pairs : list (str * value))
  : exception + value * str :=
  match fuel with
  | 0%nat => inl out_of_fuel
  | S fuel' =>
      match scanstring s with
      | inl e => inl e
      | inr (key, s1) =>
          let s2 :=
            match s1 with
            | c :: _ => if N.eqb c (ch ":") then s1 else skip_ws s1
            | [] => s1
            end in
          match s2 with
          | c :: s3 =>
              if N.eqb c (ch ":") then
                match expecting_value (scan_once (skip_ws s3)) with
                | inl e => inl e
                | inr (v, s4) =>
                    let pairs := pairs ++ [(key, v)] in
                    match skip_ws s4 with
                    | n :: s5 =>
                        if N.eqb n (ch "}") then inr (Object pairs, s5)
                        else if N.eqb n (ch ",") then
                          match skip_ws s5 with
                          | q :: s6 =>
                              if N.eqb q quote
                              then object_loop fuel' s6 pairs
                              else
                                inl (JSONDecodeError
                                       "Expecting property name enclosed in double quotes")
                          | [] =>
                              inl (JSONDecodeError
                                     "Expecting property name enclosed in double quotes")
                          end
                        else inl (JSONDecodeError "Expecting ',' delimiter")
                    | [] => inl (JSONDecodeError "Expecting ',' delimiter")
                    end
                end
              else inl (JSONDecodeError "Expecting ':' delimiter")
          | [] => inl (JSONDecodeError "Expecting ':' delimiter")
          end
      end
  end.

(** [JSONObject]; [s] is the text after the opening brace. *)
Definition JSONObject (fuel : nat) (s : str) : exception + value * str :=
  match skip_ws s with
  | c :: s1 =>
      if N.eqb c quote then object_loop fuel s1 []
      else if N.eqb c (ch "}") then inr (Object [], s1)
      else
        inl (JSONDecodeError
               "Expecting property name enclosed in double quotes")
  | [] =>
      inl (JSONDecodeError
             "Expecting property name enclosed in double quotes")
  end.

(** The loop of [JSONArray]. *)
Fixpoint array_loop (fuel : nat) (s : str) (values : list value)
  : exception + value * str :=
  match fuel with
  | 0%nat => inl out_of_fuel
  | S fuel' =>
      match expecting_value (scan_once s) with
      | inl e => inl e
      | inr (v, s1) =>
          let values := values ++ [v] in
          match skip_ws s1 with
          | n :: s2 =>
              if N.eqb n (ch "]") then inr (Array values, s2)
              else if N.eqb n (ch ",")
              then array_loop fuel' (skip_ws s2) values
              else inl (JSONDecodeError "Expecting ',' delimiter")
          | [] => inl (JSONDecodeError "Expecting ',' delimiter")
          end
      end
  end.

(** [JSONArray]; [s] is the text after the opening bracket. *)
Definition JSONArray (fuel : nat) (s : str) : exception + value * str :=
  match skip_ws s with
  | c :: s1 =>
      if N.eqb c (ch "]") then inr (Array [], s1)
      else array_loop fuel (skip_ws s) []
  | [] => array_loop fuel [] []
  end.

End Decoder.

(** [_scan_once(string, idx)]; [s] is the text from [idx] on.  The fuel
    bounds the nesting of arrays and objects. *)
Fixpoint scan_once (fuel : nat) (s : str) : exception + value * str :=
  match fuel with
  | 0%nat => inl out_of_fuel
  | S fuel' =>
      match s with
      | [] => inl StopIteration
      | nextchar :: s1 =>
          if N.eqb nextchar quote then
            match scanstring s1 with
            | inl e => inl e
            | inr (text, rest) => inr (String text, rest)
            end
          else if N.eqb nextchar (ch "{") then
            JSONObject (scan_once fuel') (List.length s) s1
          else if N.eqb nextchar (ch "[") then
            JSONArray (scan_once fuel') (List.length s) s1
          else if startswith s (lit "null") then inr (Null, skipn 4 s)
          else if startswith s (lit "true") then inr (Bool true, skipn 4 s)
          else if startswith s (lit "false") then inr (Bool false, skipn 5 s)
          else
            match match_number s with
            | Some (integer, frac, exp, rest) =>
                match frac, exp with
                | [], [] =>
                    match parse_int integer with
                    | inl e => inl e
                    | inr n => inr (n, rest)
                    end
                | _, _ => inr (Float (integer ++ frac ++ exp), rest)
                end
            | None =>
                if startswith s (lit "NaN")
                then inr (Float (lit "NaN"), skipn 3 s)
                else if startswith s (lit "Infinity")
                then inr (Float (lit "Infinity"), skipn 8 s)
                else if startswith s (lit "-Infinity")
                then inr (Float (lit "-Infinity"), skipn 9 s)
                else inl StopIteration
            end
      end
  end.

(** [json.loads(s)] for a [str]: a byte order mark is refused, blanks
    around the document are skipped, and nothing may follow it. *)
Definition loads (s : str) : exception + value :=
  if startswith s [65279] then
    inl (JSONDecodeError "Unexpected UTF-8 BOM (decode using utf-8-sig)")
  else
    match expecting_value (scan_once (S (List.length s)) (skip_ws s)) with
    | inl e => inl e
    | inr (obj, rest) =>
        match skip_ws rest with
        | [] => inr obj
        | _ :: _ => inl (JSONDecodeError "Extra data")
        end
    end.

(** [d.get(key, default)] on the pairs a [dict] was built from: a later
    pair replaces an earlier one with the same key. *)
Fixpoint get (pairs : list (str * value)) (key : str) (default : value)
  : value :=
  match pairs with
  | [] => default
  | (k, v) :: pairs' => get pairs' key (if str_eqb k key then v else default)
  end.

End json.

(** ** The program *)

(** What a run does to its surroundings, in order.  [sys.stdout] and
    [sys.stderr] are text streams: [Stdout] and [Stderr] hold the text the
    program hands to them, and [ReadStdin] stands for [sys.stdin.read()],
    which gives the text of standard input; the encoding between text and
    bytes is the streams' own, and the environment's choice. *)
Inductive event :=
| Stdout (text : str)
| Flush
| Stderr (text : str)
| ArgparseError (e : argparse.error)
| ReadStdin
| Post (url : str) (data : str) (stream : bool)
| ReadText
| NextLine.

Inductive exception :=
| AttributeError
| IndexError
| TypeError
| RequestException
| UnicodeDecodeError
| JSONError (e : json.exception).

(** How a run ends: [sys.exit(code)], the return of [main], or an exception
    that nothing catches. *)
Inductive termination :=
| Exit (code : Z)
| Return
| Raise (e : exception).

(** The response [requests.post(..., stream=True)] returns: its status code,
    its body as [response.text] gives it, and the lines
    [response.iter_lines()] yields. *)
Record Response := mkResponse {
  status_code : Z;
  text : str;
  iter_lines : list bytes
}.

(** The server, as the program meets it: the response to a POST of [data] to
    [url], or [None] when [requests.post] raises. *)
Definition server := str -> str -> option Response.

Definition newline : str := [10].

(** The text of the help message; [print] appends a newline to it. *)
Definition usage : str :=
  newline ++
  lit "Usage: spit [OPTION...]" ++ newline ++
  newline ++
  lit "Passes standard input to an ollama instance and prints the response."
  ++ newline ++
  newline ++
  lit "Options:" ++ newline ++
  lit "      --url      Specifies the ollama server's URL." ++ newline ++
  lit "      --model    Specifies the model to use." ++ newline ++
  newline ++
  lit "Informative output:" ++ newline ++
  newline ++
  lit "      --help     Show this help text." ++ newline.

Definition unrecognized_option (arg : str) : str :=
  lit "spit: Unrecognized option '" ++ arg ++ lit "'." ++ newline ++
  lit "Try 'spit --help' for more information." ++ newline.

Definition missing_model : str :=
  lit "spit: missing --model option" ++ newline.

Definition too_many_arguments : str :=
  lit "spit: too many arguments" ++ newline ++
  lit "Try 'spit --help' for more information." ++ newline.

(** [url += '/'] unless [url.endswith('/')] *)
Definition sanitize (url : str) : str :=
  if negb (endswith url (lit "/")) then url ++ lit "/" else url.

Section Spit.

Import argparse.

(** [str(v)] for a [float], a [list] or a [dict] read from JSON; the model
    does not compute these texts. *)
Variable repr : json.value -> str.

(** [str(v)], which is what [print] writes for [v]. *)
Definition py_str (v : json.value) : str :=
  match v with
  | json.String s => s
  | json.Null => lit "None"
  | json.Bool true => lit "True"
  | json.Bool false => lit "False"
  | json.Int n => str_of_int n
  | _ => repr v
  end.

(** The loop over [response.iter_lines()]. *)
Fixpoint stream (lines : list bytes) : list event * termination :=
  match lines with
  | [] => ([NextLine], Return)
  | line :: lines' =>
      match decode line with
      | None => ([NextLine], Raise UnicodeDecodeError)
      | Some s =>
          match json.loads s with
          | inl e => ([NextLine], Raise (JSONError e))
          | inr (json.Object pairs) =>
              let fragment :=
                py_str (json.get pairs (lit "response") (json.String [])) in
              let (events, t) := stream lines' in
              (NextLine :: Stdout fragment :: Flush :: events, t)
          | inr _ => ([NextLine], Raise AttributeError)
          end
      end
  end.

(** What [main] does with the response. *)
Definition handle (response : Response) : list event * termination :=
  let status :=
    if negb (Z.eqb (status_code response) 200)
    then [Stderr (lit "Status: " ++ str_of_int (status_code response)
                  ++ newline)]
    else [] in
  if Z.leb 400 (status_code response) then
    (status ++ [ReadText;
                Stderr (lit "Body: " ++ text response ++ newline)],
     Exit 1)
  else
    let (events, t) := stream (iter_lines response) in
    (status ++ events, t).

(** The second half of [main]: standard input is read, the payload is
    built and posted, and the response is handled. *)
Definition request (url model stdin : str) (post : server)
  : list event * termination :=
  let payload := json.dumps [(lit "model", model); (lit "prompt", stdin)] in
  match post (url ++ lit "api/generate") payload with
  | None =>
      ([ReadStdin; Post (url ++ lit "api/generate") payload true],
       Raise RequestException)
  | Some response =>
      let (events, t) := handle response in
      (ReadStdin :: Post (url ++ lit "api/generate") payload true :: events,
       t)
  end.

(** [cmdargs.model[0]] *)
Definition subscript0 (v : pyobj) : exception + str :=
  match v with
  | PyList (x :: _) => inr x
  | PyStr (c :: _) => inr [c]
  | PyList [] | PyStr [] => inl IndexError
  | PyNone | PyTrue => inl TypeError
  end.

(** [main()], run with the arguments [argv] after the program name, the
    text [stdin] on standard input, and the server [post]. *)
Definition main (argv : list str) (stdin : str) (post : server)
  : list event * termination :=
  match parse_known_args argv with
  | inl e => ([ArgparseError e], Exit 2)
  | inr (cmdargs, unhandled) =>
      match help cmdargs with
      | PyNone =>
          match find (fun arg => startswith arg (lit "-")) unhandled with
          | Some arg => ([Stderr (unrecognized_option arg)], Exit 1)
          | None =>
              match non_option_arguments cmdargs with
              | PyList l =>
                  let non_option_arguments := l ++ unhandled in
                  match model cmdargs with
                  | PyNone => ([Stderr missing_model], Exit 1)
                  | cmdargs_model =>
                      if Nat.ltb 0 (List.length non_option_arguments)
                      then ([Stderr too_many_arguments], Exit 1)
                      else
                        match url cmdargs with
                        | PyStr url =>
                            match subscript0 cmdargs_model with
                            | inr model =>
                                request (sanitize url) model stdin post
                            | inl e => ([], Raise e)
                            end
                        | _ => ([], Raise AttributeError)
                        end
                  end
              | _ => ([], Raise TypeError)
              end
          end
      | _ => ([Stdout (usage ++ newline)], Exit 0)
      end
  end.

End Spit.

(** ** Vocabulary of the properties *)

Import argparse.

(** The arguments before the first [--]: the part of the command line in
    which options are looked for. *)
Fixpoint options_part (argv : list str) : list str :=
  match argv with
  | [] => []
  | arg :: rest =>
      if str_eqb arg (lit "--") then [] else arg :: options_part rest
  end.

(** The spellings of the help option. *)
Definition help_spellings : list str :=
  [lit "--help"; lit "--hel"; lit "--he"; lit "--h"].

Definition is_help (arg : str) : bool := existsb (str_eqb arg) help_spellings.

(** The option the parser matches an argument to, if any. *)
Definition matched_as (arg : str) : option action :=
  match _parse_optional arg with
  | inr (Some (Some a, _, _)) => Some a
  | _ => None
  end.

(** The parser takes the argument for an option, and no option of the
    program matches it. *)
Definition unknown_option (arg : str) : Prop :=
  _parse_optional arg = inr (Some (None, arg, None)).

(** The argument is an option that takes the next argument as its value. *)
Definition awaits_value (arg : str) : bool :=
  match _parse_optional arg with
  | inr (Some (Some a, _, None)) => Nat.eqb (nargs a) 1
  | _ => false
  end.

Definition dash (arg : str) : bool := startswith arg (lit "-").

(** Argument resolution passes, with the URL [u] and the model [m]. *)
Definition resolves (argv : list str) (u m : str) : Prop :=
  exists cmdargs unhandled,
    parse_known_args argv = inr (cmdargs, unhandled) /\
    help cmdargs = PyNone /\
    find dash unhandled = None /\
    (exists l, non_option_arguments cmdargs = PyList l /\ l ++ unhandled = [])
    /\ url cmdargs = PyStr u
    /\ model cmdargs <> PyNone
    /\ subscript0 (model cmdargs) = inr m.

(** What a trace writes to standard output. *)
Definition stdout_of (events : list event) : str :=
  flat_map (fun e => match e with Stdout t => t | _ => [] end) events.

(** The events that involve the server. *)
Definition network (e : event) : bool :=
  match e with
  | Post _ _ _ | ReadText | NextLine => true
  | _ => false
  end.

Definition is_post (e : event) : bool :=
  match e with
  | Post _ _ _ => true
  | _ => false
  end.

(** The request of a run: where it posts, and what. *)
Definition target (u : str) : str := sanitize u ++ lit "api/generate".

Definition payload (m stdin : str) : str :=
  json.dumps [(lit "model", m); (lit "prompt", stdin)].

(** The value of the [response] field of a line that holds a JSON object,
    as text; the empty text when the field is absent. *)
Definition response_field (repr : json.value -> str) (line : bytes) : str :=
  match decode line with
  | Some s =>
      match json.loads s with
      | inr (json.Object pairs) =>
          py_str repr (json.get pairs (lit "response") (json.String []))
      | _ => []
      end
  | None => []
  end.

(** The line holds a JSON object. *)
Definition json_object_line (line : bytes) : Prop :=
  exists s pairs,
    decode line = Some s /\ json.loads s = inr (json.Object pairs).

(** The bytes of an ASCII text in which every apostrophe stands for a
    double quote. *)
Definition jbytes (s : string) : bytes :=
  map (fun b => if Byte.eqb b "'"%byte then x22 else b)
    (list_byte_of_string s).

(** A code point that is a Unicode scalar value: no surrogate, and at most
    U+10FFFF. *)
Definition scalar (c : N) : bool :=
  N.ltb c 55296 || (N.leb 57344 c && N.ltb c 1114112).

(** The steps of the second loop of the parser, as a relation between the
    arguments left, the state, and the final state. *)
Inductive parses : list (str * kind) -> state -> state -> Prop :=
| parses_end items st st' rest :
    existsb is_option items = false ->
    consume_positionals items st = (st', rest) ->
    parses items st
      {| namespace := namespace st'; positionals := positionals st';
         extras := extras st' ++ map fst rest |}
| parses_optional arg_string t rest st st1 items1 st' :
    consume_optional arg_string t rest st = inr (st1, items1) ->
    parses items1 st1 st' ->
    parses ((arg_string, letter_O t) :: rest) st st'
| parses_positionals items taken rest st st' :
    existsb is_option items = true ->
    positionals st = true ->
    span_arguments items = (taken, rest) ->
    taken <> [] ->
    parses rest
      {| namespace :=
           take_action non_option_arguments_action (map fst taken)
             (namespace st);
         positionals := false; extras := extras st |} st' ->
    parses items st st'
| parses_extras items strings rest st st' :
    existsb is_option items = true ->
    positionals st = false ->
    span_arguments items = (strings, rest) ->
    strings <> [] ->
    parses rest
      {| namespace := namespace st; positionals := false;
         extras := extras st ++ map fst strings |} st' ->
    parses items st st'.

(** Sample surroundings for the examples: no text for floats and
    containers, a server that cannot be reached, and one that answers every
    request with the same response. *)
Definition no_repr : json.value -> str := fun _ => [].
Definition unreachable : server := fun _ _ => None.
Definition answering (r : Response) : server := fun _ _ => Some r.

(** A command line that names the model and leaves the URL at its default. *)
Definition sample_argv : list str := [lit "--model"; lit "foo"].

(** Sample responses with status 200: two fragments; a line that holds an
    empty array; a line that holds an object without a [response] key. *)
Definition hello_response : Response :=
  {| status_code := 200; text := [];
     iter_lines := [jbytes "{'response':'Hel'}"; jbytes "{'response':'lo'}"] |}.

Definition array_response : Response :=
  {| status_code := 200; text := [];
     iter_lines := [jbytes "[]"; jbytes "{'response':'lo'}"] |}.

Definition empty_object_response : Response :=
  {| status_code := 200; text := [];
     iter_lines := [jbytes "{}"; jbytes "{'response':'lo'}"] |}.

(** The attribute an action stores into. *)
Definition field (a : action) (ns : Namespace) : pyobj :=
  match a with
  | url_action => url ns
  | model_action => model ns
  | help_action => help ns
  | non_option_arguments_action => non_option_arguments ns
  end.

(** The attribute holds a list. *)
Definition is_list (v : pyobj) : Prop := exists l, v = PyList l.

(** The letter the first loop of the parser gives an argument other than
    [--]. *)
Definition letter_of (arg : str) : kind :=
  match _parse_optional arg with
  | inr (Some t) => letter_O t
  | _ => letter_A
  end.

(** The shape of the list the first loop builds: arguments with the letter
    [_parse_optional] gives them, up to a [--], which is followed by
    arguments only. *)
Inductive classified : list (str * kind) -> Prop :=
| classified_nil : classified []
| classified_dash rest :
    classified
      ((lit "--", letter_dash) :: map (fun s => (s, letter_A)) rest)
| classified_cons arg r items :
    arg <> lit "--" ->
    _parse_optional arg = inr r ->
    classified items ->
    classified ((arg, letter_of arg) :: items).

(** An option that takes the argument after it as its value. *)
Definition awaiting (it : str * kind) : Prop :=
  exists a os, snd it = letter_O (Some a, os, None) /\ nargs a = 1%nat.

(** An argument that no option of the program matches. *)
Definition plain (x : str) : Prop := matched_as x = None.

(** Text of Unicode scalar values. *)
Definition scalars (s : str) : Prop := Forall (fun c => scalar c = true) s.

(** A printable ASCII character. *)
Definition printable (c : N) : Prop := between 32 c 126 = true.

(** The events by which a run reads its input and sends its request. *)
Definition is_request (e : event) : bool :=
  match e with
  | ReadStdin | Post _ _ _ => true
  | _ => false
  end.

(** The ASCII text in which every apostrophe stands for a double quote. *)
Definition jlit (s : string) : str :=
  map (fun c => if N.eqb c 39 then json.quote else c) (lit s).

(** The errors with which argparse rejects a command line: it prints the
    usage and the message, and exits with status 2. *)
Definition usage_error (e : error) : Prop :=
  match e with
  | ambiguous_option _ _ | expected_argument _
  | ignored_explicit_argument _ _ => True
  | _ => False
  end.

(** The exceptions [json.loads] raises. *)
Definition proper (e : json.exception) : Prop :=
  match e with
  | json.JSONDecodeError _ | json.ValueError _ => True
  | _ => False
  end.

(** What a scan of the text [s] gives: the rest of the text, shorter than
    [s], or an exception of the decoder. *)
Definition sgood (s : str) (R : json.exception + str * str) : Prop :=
  match R with
  | inr (_, r) => (List.length r < List.length s)%nat
  | inl e => proper e
  end.

(** The same for a scan that gives a value; [stop] tells whether the caller
    catches [StopIteration]. *)
Definition good (stop : bool) (s : str)
    (R : json.exception + json.value * str) : Prop :=
  match R with
  | inr (_, r) => (List.length r < List.length s)%nat
  | inl json.StopIteration => stop = true
  | inl e => proper e
  end.

(** What a trace writes to standard error. *)
Definition stderr_of (events : list event) : str :=
  flat_map (fun e => match e with Stderr t => t | _ => [] end) events.

(** An option that takes a value, followed by an argument the parser takes
    for its value. *)
Definition option_value (p : str * str) : Prop :=
  awaits_value (fst p) = true /\
  _parse_optional (snd p) = inr None /\ snd p <> lit "--".

(** The command line that gives the options [ps] with their values. *)
Definition command_line (ps : list (str * str)) : list str :=
  flat_map (fun p => [fst p; snd p]) ps.

(** The value of the last option of [ps] that is matched to the action
    [a]; [default] when there is none. *)
Definition chosen (a : action) (ps : list (str * str))
    (default : option str) : option str :=
  fold_left
    (fun acc p =>
       match matched_as (fst p) with
       | Some b => if action_eqb a b then Some (snd p) else acc
       | None => acc
       end)
    ps default.

(** A character [json.dumps] writes as it is. *)
Definition unescaped (c : N) : bool :=
  between 32 c 126 && negb (N.eqb c json.quote)
  && negb (N.eqb c json.backslash).

(** * Properties *)

(** ** Text *)

Lemma str_eqb_eq (a b : str) : str_eqb a b = true <-> a = b.
Proof.
  revert b; induction a as [|x a IH]; intros [|y b]; simpl;
    try (split; [discriminate | discriminate]); [tauto|].
  rewrite andb_true_iff, N.eqb_eq, IH.
  split; [intros [-> ->]; reflexivity | intros H; inversion H; auto].
Qed.

Lemma str_eqb_refl (a : str) : str_eqb a a = true.
Proof. apply str_eqb_eq; reflexivity. Qed.

Lemma str_eqb_neq (a b : str) : str_eqb a b = false <-> a <> b.
Proof.
  rewrite <- str_eqb_eq. destruct (str_eqb a b); split; congruence.
Qed.

Lemma startswith_app (s p : str) : startswith (p ++ s) p = true.
Proof.
  induction p as [|c p IH]; simpl; [reflexivity|].
  rewrite N.eqb_refl; exact IH.
Qed.

Lemma startswith_prefix (s p : str) :
  startswith s p = true -> exists r, s = p ++ r.
Proof.
  revert s; induction p as [|c p IH]; intros s H; simpl in H.
  - exists s; reflexivity.
  - destruct s as [|d s]; [discriminate|].
    apply andb_true_iff in H as [Hc Hs]. apply N.eqb_eq in Hc; subst d.
    destruct (IH _ Hs) as [r ->]. exists r; reflexivity.
Qed.

Lemma endswith_app (s p : str) : endswith (s ++ p) p = true.
Proof. unfold endswith. rewrite rev_app_distr. apply startswith_app. Qed.

(** ** The sanitized URL *)

Lemma sanitize_ends_with_slash (u : str) :
  endswith (sanitize u) (lit "/") = true.
Proof.
  unfold sanitize. destruct (endswith u (lit "/")) eqn:E; simpl.
  - exact E.
  - apply endswith_app.
Qed.

(** ** The loop of the parser *)

Lemma span_arguments_app (items taken rest : list (str * kind)) :
  span_arguments items = (taken, rest) ->
  items = taken ++ rest /\ existsb is_option taken = false /\
  (existsb is_option items = true ->
   exists arg t rest', rest = (arg, letter_O t) :: rest').
Proof.
  revert taken rest; induction items as [|it items IH]; intros taken rest H;
    simpl in H.
  - inversion H; subst; repeat split; simpl; congruence.
  - destruct (is_option it) eqn:E.
    + inversion H; subst; simpl. repeat split; auto.
      intros _. destruct it as [arg [t| |]]; try discriminate E.
      eauto.
    + destruct (span_arguments items) as [taken' rest'] eqn:S.
      inversion H; subst. destruct (IH _ _ eq_refl) as (-> & Hno & Hopt).
      simpl. rewrite E. repeat split; auto.
Qed.

Lemma consume_parses (fuel : nat) : forall items st st',
  consume fuel items st = inr st' -> parses items st st'.
Proof.
  induction fuel as [|fuel IH]; intros items st st' H; simpl in H;
    destruct (existsb is_option items) eqn:E; simpl in H;
    try discriminate H;
    try (destruct (consume_positionals items st) as [st1 rest] eqn:C;
         inversion H; subst; eapply parses_end; eassumption).
  assert (Hgen :
    (let (st1, items1) := consume_positionals items st in
     if Nat.ltb (List.length items1) (List.length items)
     then consume fuel items1 st1
     else let (strings, items2) := span_arguments items1 in
          consume fuel items2
            {| namespace := namespace st1; positionals := positionals st1;
               extras := extras st1 ++ map fst strings |}) = inr st' ->
    is_option (hd (lit "", letter_A) items) = false ->
    parses items st st').
  { clear H. unfold consume_positionals. intros H Hhd.
    destruct (span_arguments items) as [taken rest] eqn:S.
    destruct (span_arguments_app _ _ _ S) as (Hitems & Hno & Hopt).
    assert (Hne : taken <> []).
    { intros ->. simpl in Hitems. subst rest.
      destruct (Hopt E) as (arg & t & rest' & ->). discriminate Hhd. }
    destruct (positionals st) eqn:P.
    - assert (Hlt : Nat.ltb (List.length rest) (List.length items) = true).
      { apply Nat.ltb_lt. subst items. rewrite length_app.
        destruct taken; [congruence | simpl; lia]. }
      rewrite Hlt in H. eapply parses_positionals; eauto.
    - rewrite Nat.ltb_irrefl, S, P in H.
      eapply parses_extras; eauto. }
  destruct items as [|[arg_string k] rest]; [discriminate E|].
  destruct k as [t| |]; [| apply Hgen; [exact H | reflexivity] ..].
  destruct (consume_optional arg_string t rest st) as [e|[st1 items1]] eqn:C;
    [discriminate H|].
  eapply parses_optional; eauto.
Qed.

Lemma parse_known_args_parses (argv : list str) cmdargs unhandled :
  parse_known_args argv = inr (cmdargs, unhandled) ->
  exists items st',
    arg_strings_pattern argv = inr items /\
    parses items
      {| namespace := defaults; positionals := true; extras := [] |} st' /\
    cmdargs = namespace st' /\ unhandled = extras st'.
Proof.
  unfold parse_known_args. intros H.
  destruct (arg_strings_pattern argv) as [e|items]; [discriminate|].
  destruct (consume _ items _) as [e|st'] eqn:C; [discriminate|].
  inversion H; subst. exists items, st'. repeat split; auto.
  eapply consume_parses; eassumption.
Qed.

(** ** What the parser does with the options *)

Lemma take_action_other a b args ns :
  a <> b -> field b (take_action a args ns) = field b ns.
Proof. destruct a, b; intros H; try reflexivity; congruence. Qed.

Lemma take_action_help args ns : help (take_action help_action args ns) = PyTrue.
Proof. reflexivity. Qed.

Lemma take_action_model args ns :
  model (take_action model_action args ns)
  = PyList (remove_first (lit "--") args).
Proof. reflexivity. Qed.

Lemma take_action_positional args ns :
  non_option_arguments (take_action non_option_arguments_action args ns)
  = PyList (remove_first (lit "--") args).
Proof. reflexivity. Qed.

(** The two outcomes of [consume_optional] that are not errors: an unknown
    option joins the extras; a known one takes its action, on its explicit
    argument, on the next argument, or on nothing. *)
Lemma consume_optional_inv arg t rest st st1 items1 :
  consume_optional arg t rest st = inr (st1, items1) ->
  positionals st1 = positionals st /\
  ((exists os e,
      t = (None, os, e) /\ namespace st1 = namespace st /\
      extras st1 = extras st ++ [arg] /\ items1 = rest)
   \/
   (exists a os e args,
      t = (Some a, os, e) /\
      namespace st1 = take_action a args (namespace st) /\
      extras st1 = extras st /\
      (a = help_action -> e = None) /\
      (items1 = rest \/
       (e = None /\ nargs a = 1%nat /\
        exists v, args = [v] /\ rest = (v, letter_A) :: items1)))).
Proof.
  destruct t as [[[a|] os] e]; simpl.
  - destruct e as [x|].
    + destruct (Nat.eqb (nargs a) 1) eqn:N; [|discriminate].
      intros H; inversion H; subst; simpl. split; [reflexivity|]. right.
      exists a, os, (Some x), [x]. repeat split; auto.
      intros ->; discriminate N.
    + destruct (nargs a) eqn:N.
      * intros H; inversion H; subst; simpl. split; [reflexivity|]. right.
        exists a, os, None, []. repeat split; auto.
      * destruct rest as [|[v [t| |]] rest']; try discriminate.
        intros H; inversion H; subst; simpl. split; [reflexivity|]. right.
        exists a, os, None, [v]. repeat split; auto.
        right. split; [reflexivity|].
        split; [destruct a; try reflexivity; discriminate N|].
        exists v; split; reflexivity.
  - intros H; inversion H; subst; simpl. split; [reflexivity|]. left.
    exists os, e. repeat split; reflexivity.
Qed.

(** The parser returns, or rejects the command line. *)
Lemma _parse_optional_error arg e :
  _parse_optional arg = inl e -> usage_error e.
Proof.
  unfold _parse_optional. destruct arg as [|c0 arg]; [discriminate|].
  destruct (contains c0 prefix_chars) eqn:C; simpl negb; cbv iota;
    [|discriminate].
  destruct (lookup (c0 :: arg) _option_string_actions); [discriminate|].
  destruct arg as [|c1 arg]; [discriminate|].
  cbn [List.length Nat.eqb]. cbv zeta.
  assert (G : exists l, _get_option_tuples (c0 :: c1 :: arg) = inr l).
  { unfold _get_option_tuples. rewrite C.
    destruct (contains c1 prefix_chars); cbn [andb negb];
      [destruct (split_once (ch "=") (c0 :: c1 :: arg)) as [[p x]|]|];
      eexists; reflexivity. }
  destruct G as [l G]. rewrite G.
  destruct (split_once (ch "=") (c0 :: c1 :: arg)) as [[p x]|];
    [destruct (lookup p _option_string_actions); [discriminate|]|];
    (destruct l as [|t [|t' l]];
     [destruct (_negative_number_matcher (c0 :: c1 :: arg));
      [discriminate|];
      destruct (contains (ch " ") (c0 :: c1 :: arg)); discriminate
     | discriminate
     | intros H; inversion H; exact I]).
Qed.

Lemma pattern_error argv : forall e,
  arg_strings_pattern argv = inl e -> usage_error e.
Proof.
  induction argv as [|arg argv IH]; intros e H; simpl in H; [discriminate|].
  destruct (str_eqb arg (lit "--")); [discriminate|].
  destruct (_parse_optional arg) as [e'|r] eqn:P.
  - inversion H; subst. eapply _parse_optional_error; eauto.
  - destruct (arg_strings_pattern argv) as [e'|parts]; [|discriminate].
    inversion H; subst. apply IH; reflexivity.
Qed.

Lemma consume_optional_error arg t rest st e :
  consume_optional arg t rest st = inl e -> usage_error e.
Proof.
  destruct t as [[[a|] os] [x|]]; simpl; try discriminate.
  - destruct (Nat.eqb (nargs a) 1); [discriminate|].
    intros H; inversion H; exact I.
  - destruct (nargs a); [discriminate|].
    destruct rest as [|[v [t| |]] rest']; try discriminate;
      intros H; inversion H; exact I.
Qed.

Lemma consume_optional_shorter arg t rest st st1 items1 :
  consume_optional arg t rest st = inr (st1, items1) ->
  (List.length items1 <= List.length rest)%nat.
Proof.
  intros H. destruct (consume_optional_inv _ _ _ _ _ _ H)
    as (_ & [(os & e & _ & _ & _ & ->)
            |(b & os & e & args & _ & _ & _ & _ & [-> | (_ & _ & v & _ & ->)])]);
    simpl; lia.
Qed.

Lemma consume_error fuel : forall items st e,
  (List.length items < fuel)%nat ->
  consume fuel items st = inl e -> usage_error e.
Proof.
  induction fuel as [|fuel IH]; intros items st e Hlen H; [lia|].
  simpl in H. destruct (existsb is_option items) eqn:E; simpl in H.
  2:{ destruct (consume_positionals items st); discriminate. }
  assert (Hgen :
    (let (st1, items1) := consume_positionals items st in
     if Nat.ltb (List.length items1) (List.length items)
     then consume fuel items1 st1
     else let (strings, items2) := span_arguments items1 in
          consume fuel items2
            {| namespace := namespace st1; positionals := positionals st1;
               extras := extras st1 ++ map fst strings |}) = inl e ->
    is_option (hd (lit "", letter_A) items) = false ->
    usage_error e).
  { clear H. unfold consume_positionals. intros H Hhd.
    destruct (span_arguments items) as [taken rest] eqn:S.
    destruct (span_arguments_app _ _ _ S) as (Hitems & Hno & Hopt).
    assert (Hne : taken <> []).
    { intros ->. simpl in Hitems. subst rest.
      destruct (Hopt E) as (arg & t & rest' & ->). discriminate Hhd. }
    assert (Hlt : (List.length rest < List.length items)%nat).
    { subst items. rewrite length_app. destruct taken; [congruence|simpl; lia]. }
    destruct (positionals st) eqn:P.
    - apply Nat.ltb_lt in Hlt. rewrite Hlt in H.
      eapply IH; [|exact H]. apply Nat.ltb_lt in Hlt. lia.
    - rewrite Nat.ltb_irrefl, S in H. eapply IH; [|exact H]. lia. }
  destruct items as [|[arg_string k] rest]; [discriminate E|].
  destruct k as [t| |]; [| apply Hgen; [exact H | reflexivity] ..].
  destruct (consume_optional arg_string t rest st) as [e'|[st1 items1]] eqn:C.
  - inversion H; subst. eapply consume_optional_error; eauto.
  - eapply IH; [|exact H].
    pose proof (consume_optional_shorter _ _ _ _ _ _ C). simpl in Hlen. lia.
Qed.

Lemma parse_known_args_error argv e :
  parse_known_args argv = inl e -> usage_error e.
Proof.
  unfold parse_known_args.
  destruct (arg_strings_pattern argv) as [e'|items] eqn:P.
  - intros H; inversion H; subst. eapply pattern_error; eauto.
  - destruct (consume _ items _) as [e'|st'] eqn:C; [|discriminate].
    intros H; inversion H; subst. eapply consume_error; [|exact C]. lia.
Qed.

Lemma option_in_rest (x : str * kind) taken rest :
  existsb is_option taken = false -> is_option x = true ->
  In x (taken ++ rest) -> In x rest.
Proof.
  intros Hno Hx Hin. apply in_app_or in Hin as [Hin|Hin]; [|exact Hin].
  assert (existsb is_option taken = true)
    by (apply existsb_exists; exists x; auto).
  congruence.
Qed.

Lemma option_in_items1 (x : str * kind) rest items1 :
  is_option x = true ->
  (items1 = rest \/ exists v, rest = (v, letter_A) :: items1) ->
  In x rest -> In x items1.
Proof.
  intros Hx [-> | [v ->]] Hin; [exact Hin|].
  destruct Hin as [<- | Hin]; [discriminate Hx | exact Hin].
Qed.

(** An attribute whose option does not occur keeps its value; for the
    positional, once it has taken its arguments. *)
Lemma parses_field_unchanged a items st st' :
  (a = non_option_arguments_action -> positionals st = false) ->
  parses items st st' ->
  (forall arg os e, ~ In (arg, letter_O (Some a, os, e)) items) ->
  field a (namespace st') = field a (namespace st).
Proof.
  intros Ha H. induction H as
    [items st st' rest Hno Hc
    |arg t rest st st1 items1 st' Hc Hp IH
    |items taken rest st st' Hex Hpos Hs Hne Hp IH
    |items strings rest st st' Hex Hpos Hs Hne Hp IH]; intros Hnone.
  - unfold consume_positionals in Hc. destruct (positionals st).
    + destruct (span_arguments items) as [taken rest'].
      inversion Hc; subst; simpl.
      destruct a; [reflexivity .. | discriminate (Ha eq_refl)].
    + inversion Hc; subst; reflexivity.
  - destruct (consume_optional_inv _ _ _ _ _ _ Hc)
      as (Hpos & [(os & e & -> & Hns & _ & ->)
                 |(b & os & e & args & -> & Hns & _ & _ & Hrest)]).
    + rewrite IH, Hns; [reflexivity | rewrite Hpos; exact Ha |].
      intros arg' os' e' Hin. apply (Hnone arg' os' e'). right; exact Hin.
    + rewrite IH, Hns.
      * apply take_action_other. intros ->.
        apply (Hnone arg os e). left; reflexivity.
      * rewrite Hpos; exact Ha.
      * intros arg' os' e' Hin. apply (Hnone arg' os' e'). right.
        destruct Hrest as [-> | (_ & _ & v & _ & ->)];
          [exact Hin | right; exact Hin].
  - destruct (span_arguments_app _ _ _ Hs) as (-> & _ & _).
    rewrite IH; simpl;
      [destruct a; [reflexivity .. | rewrite (Ha eq_refl) in Hpos;
                                     discriminate Hpos]
      | reflexivity |].
    intros arg os e Hin. apply (Hnone arg os e). apply in_or_app; auto.
  - destruct (span_arguments_app _ _ _ Hs) as (-> & _ & _).
    rewrite IH; simpl; [reflexivity | reflexivity |].
    intros arg os e Hin. apply (Hnone arg os e). apply in_or_app; auto.
Qed.

(** An attribute whose option occurs has a value that the action stores. *)
Lemma parses_field_set a (P : pyobj -> Prop) items st st' :
  (forall args ns, P (field a (take_action a args ns))) ->
  parses items st st' ->
  P (field a (namespace st)) \/
  (exists arg os e, In (arg, letter_O (Some a, os, e)) items) ->
  P (field a (namespace st')).
Proof.
  intros HP H. induction H as
    [items st st' rest Hno Hc
    |arg t rest st st1 items1 st' Hc Hp IH
    |items taken rest st st' Hex Hpos Hs Hne Hp IH
    |items strings rest st st' Hex Hpos Hs Hne Hp IH]; intros Hor.
  - destruct Hor as [Hst | (arg & os & e & Hin)].
    + unfold consume_positionals in Hc. destruct (positionals st).
      * destruct (span_arguments items) as [taken rest'].
        inversion Hc; subst; simpl.
        destruct a; try exact Hst. apply HP.
      * inversion Hc; subst; exact Hst.
    + assert (existsb is_option items = true)
        by (apply existsb_exists; eexists; split; [exact Hin|reflexivity]).
      congruence.
  - destruct (consume_optional_inv _ _ _ _ _ _ Hc)
      as (_ & [(os & e & -> & Hns & _ & ->)
              |(b & os & e & args & -> & Hns & _ & _ & Hrest)]).
    + apply IH. destruct Hor as [Hst | (arg' & os' & e' & [Heq|Hin])].
      * left; rewrite Hns; exact Hst.
      * inversion Heq.
      * right; eauto.
    + apply IH. rewrite Hns.
      destruct Hor as [Hst | (arg' & os' & e' & [Heq|Hin])].
      * left. destruct a, b; try exact Hst; apply HP.
      * inversion Heq; subst. left; apply HP.
      * right. exists arg', os', e'.
        apply (option_in_items1 _ rest); auto.
        destruct Hrest as [-> | (_ & _ & v & _ & ->)]; eauto.
  - destruct (span_arguments_app _ _ _ Hs) as (-> & Hnone & _).
    apply IH; simpl. destruct Hor as [Hst | (arg & os & e & Hin)].
    + left. destruct a; try exact Hst. apply HP.
    + right. exists arg, os, e. eapply option_in_rest; eauto.
  - destruct (span_arguments_app _ _ _ Hs) as (-> & Hnone & _).
    apply IH; simpl. destruct Hor as [Hst | (arg & os & e & Hin)].
    + left; exact Hst.
    + right. exists arg, os, e. eapply option_in_rest; eauto.
Qed.

(** ** The letters of the pattern *)

Lemma pattern_classified argv : forall items,
  arg_strings_pattern argv = inr items ->
  classified items /\ map fst items = argv.
Proof.
  induction argv as [|arg argv IH]; intros items H; simpl in H.
  - inversion H; split; [constructor | reflexivity].
  - destruct (str_eqb arg (lit "--")) eqn:E.
    + apply str_eqb_eq in E; subst arg. inversion H; subst. split.
      * constructor.
      * simpl. f_equal. rewrite map_map. simpl. apply map_id.
    + destruct (_parse_optional arg) as [e|r] eqn:P; [discriminate|].
      destruct (arg_strings_pattern argv) as [e|parts]; [discriminate|].
      destruct (IH _ eq_refl) as [Hc Hm]. inversion H; subst. split.
      * replace (match r with None => letter_A | Some t => letter_O t end)
          with (letter_of arg)
          by (unfold letter_of; rewrite P; destruct r; reflexivity).
        econstructor; eauto. apply str_eqb_neq; exact E.
      * reflexivity.
Qed.

Lemma pattern_in_option argv : forall items arg t,
  arg_strings_pattern argv = inr items ->
  In arg (options_part argv) ->
  _parse_optional arg = inr (Some t) ->
  In (arg, letter_O t) items.
Proof.
  induction argv as [|x argv IH]; intros items arg t H Hin Hp; simpl in *.
  - destruct Hin.
  - destruct (str_eqb x (lit "--")) eqn:E; [destruct Hin|].
    destruct (_parse_optional x) as [e|r] eqn:P; [discriminate|].
    destruct (arg_strings_pattern argv) as [e|parts]; [discriminate|].
    inversion H; subst. destruct Hin as [-> | Hin].
    + left. rewrite P in Hp. inversion Hp; subst. reflexivity.
    + right. eapply IH; eauto.
Qed.

Lemma pattern_option_in argv : forall items arg t,
  arg_strings_pattern argv = inr items ->
  In (arg, letter_O t) items ->
  In arg (options_part argv) /\ _parse_optional arg = inr (Some t).
Proof.
  induction argv as [|x argv IH]; intros items arg t H Hin; simpl in *.
  - inversion H; subst. destruct Hin.
  - destruct (str_eqb x (lit "--")) eqn:E.
    + inversion H; subst. destruct Hin as [Heq | Hin]; [discriminate Heq|].
      apply in_map_iff in Hin as (s & Heq & _). discriminate Heq.
    + destruct (_parse_optional x) as [e|r] eqn:P; [discriminate|].
      destruct (arg_strings_pattern argv) as [e|parts]; [discriminate|].
      inversion H; subst. destruct Hin as [Heq | Hin].
      * destruct r; inversion Heq; subst. split; [left; reflexivity | exact P].
      * destruct (IH _ _ _ eq_refl Hin). split; [right|]; assumption.
Qed.

(** What an argument that is not handled as a known option can be: an
    argument [_parse_optional] does not match to an option, the [--], or an
    argument after the [--]. *)
Lemma pattern_unmatched argv items x k :
  arg_strings_pattern argv = inr items ->
  In (x, k) items ->
  (forall a os e, k <> letter_O (Some a, os, e)) ->
  In x argv /\ (matched_as x = None \/ In (lit "--") argv).
Proof.
  intros H Hin Hk. destruct (pattern_classified _ _ H) as [Hc Hm].
  split; [rewrite <- Hm; apply (in_map fst _ _ Hin)|].
  clear H. subst argv. induction Hc as [|rest|arg r items Hne Hp Hc IH].
  - destruct Hin.
  - right. left. reflexivity.
  - destruct Hin as [Heq | Hin].
    + inversion Heq; subst. left. unfold matched_as, letter_of in *.
      rewrite Hp in *. destruct r as [[[[a|] os] e]|]; try reflexivity.
      destruct (Hk a os e eq_refl).
    + destruct (IH Hin) as [Hu | Hd]; [left; exact Hu | right; right; exact Hd].
Qed.

(** ** The extras *)

Lemma parses_extras_mono items st st' x :
  parses items st st' -> In x (extras st) -> In x (extras st').
Proof.
  intros H. induction H as
    [items st st' rest Hno Hc
    |arg t rest st st1 items1 st' Hc Hp IH
    |items taken rest st st' Hex Hpos Hs Hne Hp IH
    |items strings rest st st' Hex Hpos Hs Hne Hp IH]; intros Hin.
  - simpl. apply in_or_app; left.
    unfold consume_positionals in Hc. destruct (positionals st).
    + destruct (span_arguments items). inversion Hc; subst; exact Hin.
    + inversion Hc; subst; exact Hin.
  - apply IH.
    destruct (consume_optional_inv _ _ _ _ _ _ Hc)
      as (_ & [(os & e & _ & _ & -> & _)
              |(b & os & e & args & _ & _ & -> & _)]);
      [apply in_or_app; left|]; exact Hin.
  - apply IH; exact Hin.
  - apply IH; simpl. apply in_or_app; left; exact Hin.
Qed.

(** An option no action matches ends up among the extras. *)
Lemma parses_unknown_option items st st' arg os e :
  parses items st st' ->
  In (arg, letter_O (None, os, e)) items ->
  In arg (extras st').
Proof.
  intros H. induction H as
    [items st st' rest Hno Hc
    |arg' t rest st st1 items1 st' Hc Hp IH
    |items taken rest st st' Hex Hpos Hs Hne Hp IH
    |items strings rest st st' Hex Hpos Hs Hne Hp IH]; intros Hin.
  - assert (existsb is_option items = true)
      by (apply existsb_exists; eexists; split; [exact Hin|reflexivity]).
    congruence.
  - destruct (consume_optional_inv _ _ _ _ _ _ Hc)
      as (_ & [(os' & e' & -> & _ & Hex & ->)
              |(b & os' & e' & args & -> & _ & _ & _ & Hrest)]).
    + destruct Hin as [Heq | Hin]; [|apply IH; exact Hin].
      inversion Heq; subst. eapply parses_extras_mono; [exact Hp|].
      rewrite Hex. apply in_or_app; right; left; reflexivity.
    + destruct Hin as [Heq | Hin]; [discriminate Heq|].
      apply IH. apply (option_in_items1 _ rest); auto.
      destruct Hrest as [-> | (_ & _ & v & _ & ->)]; eauto.
  - destruct (span_arguments_app _ _ _ Hs) as (-> & Hnone & _).
    apply IH. eapply option_in_rest; eauto.
  - destruct (span_arguments_app _ _ _ Hs) as (-> & Hnone & _).
    apply IH. eapply option_in_rest; eauto.
Qed.

(** Every extra is an argument that was not handled as a known option. *)
Lemma parses_extras_origin items st st' x :
  parses items st st' ->
  In x (extras st') ->
  In x (extras st) \/
  exists k, In (x, k) items /\ forall a os e, k <> letter_O (Some a, os, e).
Proof.
  intros H. induction H as
    [items st st' rest Hno Hc
    |arg' t rest st st1 items1 st' Hc Hp IH
    |items taken rest st st' Hex Hpos Hs Hne Hp IH
    |items strings rest st st' Hex Hpos Hs Hne Hp IH]; intros Hin.
  - simpl in Hin. unfold consume_positionals in Hc.
    assert (Hrest : forall y, In y rest -> In y items).
    { destruct (positionals st).
      - destruct (span_arguments items) as [taken rest'] eqn:S.
        destruct (span_arguments_app _ _ _ S) as (-> & _ & _).
        inversion Hc; subst. intros y Hy. apply in_or_app; auto.
      - inversion Hc; subst; auto. }
    assert (Hex : extras st' = extras st).
    { destruct (positionals st).
      - destruct (span_arguments items). inversion Hc; subst; reflexivity.
      - inversion Hc; subst; reflexivity. }
    rewrite Hex in Hin. apply in_app_or in Hin as [Hin | Hin]; [left; auto|].
    right. apply in_map_iff in Hin as ([y k] & <- & Hy). exists k.
    split; [apply Hrest; exact Hy|].
    intros a os e ->.
    assert (existsb is_option items = true)
      by (apply existsb_exists; eexists; split;
          [apply Hrest; exact Hy | reflexivity]).
    congruence.
  - destruct (consume_optional_inv _ _ _ _ _ _ Hc)
      as (_ & [(os' & e' & -> & _ & Hex & ->)
              |(b & os' & e' & args & -> & _ & Hex & _ & Hrest)]).
    + destruct (IH Hin) as [Hin1 | (k & Hk & Hno)].
      * rewrite Hex in Hin1. apply in_app_or in Hin1 as [Hin1 | [<- | []]].
        -- left; exact Hin1.
        -- right. eexists; split; [left; reflexivity|]. congruence.
      * right. exists k; split; [right; exact Hk | exact Hno].
    + destruct (IH Hin) as [Hin1 | (k & Hk & Hno)].
      * left. rewrite <- Hex. exact Hin1.
      * right. exists k; split; [|exact Hno]. right.
        destruct Hrest as [-> | (_ & _ & v & _ & ->)];
          [exact Hk | right; exact Hk].
  - destruct (span_arguments_app _ _ _ Hs) as (-> & Hnone & _).
    destruct (IH Hin) as [Hin1 | (k & Hk & Hno)]; [left; exact Hin1|].
    right. exists k; split; [apply in_or_app; right; exact Hk | exact Hno].
  - destruct (span_arguments_app _ _ _ Hs) as (-> & Hnone & _).
    destruct (IH Hin) as [Hin1 | (k & Hk & Hno)].
    + simpl in Hin1. apply in_app_or in Hin1 as [Hin1 | Hin1];
        [left; exact Hin1|].
      right. apply in_map_iff in Hin1 as ([y k] & <- & Hy). exists k.
      split; [apply in_or_app; left; exact Hy|].
      intros a os e ->.
      assert (existsb is_option strings = true)
        by (apply existsb_exists; eexists; split; [exact Hy|reflexivity]).
      congruence.
    + right. exists k; split; [apply in_or_app; right; exact Hk | exact Hno].
Qed.

(** The positional takes its list once, at the latest when the loop ends. *)
Lemma parses_positional_list items st st' :
  parses items st st' ->
  positionals st = true \/ is_list (non_option_arguments (namespace st)) ->
  is_list (non_option_arguments (namespace st')).
Proof.
  intros H. induction H as
    [items st st' rest Hno Hc
    |arg' t rest st st1 items1 st' Hc Hp IH
    |items taken rest st st' Hex Hpos Hs Hne Hp IH
    |items strings rest st st' Hex Hpos Hs Hne Hp IH]; intros Hor.
  - simpl. unfold consume_positionals in Hc.
    destruct (positionals st) eqn:P.
    + destruct (span_arguments items). inversion Hc; subst.
      eexists; reflexivity.
    + inversion Hc; subst. destruct Hor; [discriminate | assumption].
  - apply IH.
    destruct (consume_optional_inv _ _ _ _ _ _ Hc)
      as (Hpos & [(os' & e' & _ & Hns & _ & _)
                 |(b & os' & e' & args & _ & Hns & _ & _ & _)]);
      rewrite Hpos, Hns.
    + exact Hor.
    + destruct Hor as [Hor | Hor]; [left; exact Hor | right].
      destruct b; try exact Hor. eexists; reflexivity.
  - apply IH. right. eexists; reflexivity.
  - apply IH. right. destruct Hor as [Hor | Hor]; [congruence | exact Hor].
Qed.

Lemma find_none_forall {X} (f : X -> bool) (l : list X) :
  (forall x, In x l -> f x = false) -> find f l = None.
Proof.
  induction l as [|y l IH]; intros H; simpl; [reflexivity|].
  rewrite (H y (or_introl eq_refl)). apply IH. intros x Hx. apply H; right; auto.
Qed.

Lemma options_part_incl argv arg : In arg (options_part argv) -> In arg argv.
Proof.
  induction argv as [|x argv IH]; simpl; [tauto|].
  destruct (str_eqb x (lit "--")); simpl; [tauto|].
  intros [-> | H]; auto.
Qed.

Lemma is_help_parse arg :
  is_help arg = true ->
  _parse_optional arg = inr (Some (Some help_action, arg, None)).
Proof.
  unfold is_help, help_spellings. simpl existsb. rewrite !orb_true_iff.
  intros [H|[H|[H|[H|H]]]]; try discriminate H;
    apply str_eqb_eq in H; subst arg; reflexivity.
Qed.

(** Whatever the arguments, a run that ends in the parser or in the checks
    of the arguments has nothing to do with the server. *)
Lemma main_usage repr argv stdin post cmdargs unhandled :
  parse_known_args argv = inr (cmdargs, unhandled) ->
  help cmdargs = PyTrue ->
  main repr argv stdin post = ([Stdout (usage ++ newline)], Exit 0).
Proof. intros Hp Hh. unfold main. rewrite Hp, Hh. reflexivity. Qed.

(** C4, as the program has it: when one of the spellings [--help], [--hel],
    [--he], [--h] occurs among the arguments before any [--], in whatever
    position and with whatever other arguments, then either the parser
    rejects the command line, reports that on standard error and exits with
    status 2, or the usage text is printed on standard output and the
    program exits with status 0; in both cases the server is not involved. *)
Theorem help_option repr argv stdin post :
  (exists arg, In arg (options_part argv) /\ is_help arg = true) ->
  let run := main repr argv stdin post in
  ((exists e,
      parse_known_args argv = inl e /\ usage_error e /\
      run = ([ArgparseError e], Exit 2))
   \/ run = ([Stdout (usage ++ newline)], Exit 0)) /\
  existsb network (fst run) = false.
Proof.
  intros (arg & Hin & Hh) run.
  assert (Hrun :
    (exists e,
       parse_known_args argv = inl e /\ usage_error e /\
      run = ([ArgparseError e], Exit 2))
    \/ run = ([Stdout (usage ++ newline)], Exit 0)).
  { subst run. destruct (parse_known_args argv) as [e|[cmdargs unhandled]] eqn:P.
    - left. exists e. split; [reflexivity|].
      split; [exact (parse_known_args_error _ _ P)|]. unfold main. rewrite P. reflexivity.
    - right. apply (main_usage _ _ _ _ _ _ P).
      destruct (parse_known_args_parses _ _ _ P) as (items & st' & Hpat & Hp & -> & _).
      apply (parses_field_set help_action (fun v => v = PyTrue) _ _ _
               (fun _ _ => eq_refl) Hp).
      right. exists arg, arg, None.
      eapply pattern_in_option; eauto. apply is_help_parse; exact Hh. }
  split; [exact Hrun|].
  destruct Hrun as [(e & _ & _ & ->) | ->]; reflexivity.
Qed.

Lemma help_option_witness :
  (exists arg,
     In arg (options_part
               [lit "--foo"; lit "x"; lit "--he"; lit "--model"; lit "m"])
     /\ is_help arg = true) /\
  main no_repr [lit "--foo"; lit "x"; lit "--he"; lit "--model"; lit "m"]
    (lit "hello") unreachable
  = ([Stdout (usage ++ newline)], Exit 0).
Proof.
  assert (H : exists arg,
     In arg (options_part
               [lit "--foo"; lit "x"; lit "--he"; lit "--model"; lit "m"])
     /\ is_help arg = true).
  { exists (lit "--he"). split; [right; right; left|]; reflexivity. }
  split; [exact H|].
  destruct (proj1 (help_option no_repr _ (lit "hello") unreachable H))
    as [(e & He & _) | Hrun]; [discriminate He | exact Hrun].
Defined.

(** With [--help] where [--model] expects its value, the parser rejects the
    command line and the program exits with status 2; after [--], [--help]
    is an ordinary argument. *)
Lemma help_option_counterexample :
  In (lit "--help") [lit "--model"; lit "--help"] /\
  is_help (lit "--help") = true /\
  main no_repr [lit "--model"; lit "--help"] (lit "hello") unreachable
  = ([ArgparseError (expected_argument model_action)], Exit 2) /\
  main no_repr [lit "--model"; lit "--help"] (lit "hello") unreachable
  <> ([Stdout (usage ++ newline)], Exit 0) /\
  main no_repr [lit "--"; lit "--help"] (lit "hello") unreachable
  = ([Stderr missing_model], Exit 1).
Proof.
  repeat split; [right; left; reflexivity|].
  intros H; vm_compute in H; discriminate H.
Qed.

Lemma unknown_option_dash arg t :
  _parse_optional arg = inr (Some t) -> dash arg = true.
Proof.
  unfold _parse_optional, dash. destruct arg as [|c0 arg]; [discriminate|].
  destruct (contains c0 prefix_chars) eqn:C; simpl negb; cbv iota;
    [|discriminate].
  intros _. unfold contains, prefix_chars in C. simpl in C.
  rewrite orb_false_r in C. apply N.eqb_eq in C. subst c0. reflexivity.
Qed.

Lemma no_help_option argv items st st' :
  arg_strings_pattern argv = inr items ->
  parses items st st' ->
  (forall arg, In arg (options_part argv) ->
               matched_as arg <> Some help_action) ->
  help (namespace st') = help (namespace st).
Proof.
  intros Hpat Hp Hno.
  apply (parses_field_unchanged help_action _ _ _ ltac:(discriminate) Hp).
  intros arg os e Hin.
  destruct (pattern_option_in _ _ _ _ Hpat Hin) as [Hin' Hpo].
  apply (Hno arg Hin'). unfold matched_as. rewrite Hpo. reflexivity.
Qed.

Lemma no_model_option argv items st st' :
  arg_strings_pattern argv = inr items ->
  parses items st st' ->
  (forall arg, In arg (options_part argv) ->
               matched_as arg <> Some model_action) ->
  model (namespace st') = model (namespace st).
Proof.
  intros Hpat Hp Hno.
  apply (parses_field_unchanged model_action _ _ _ ltac:(discriminate) Hp).
  intros arg os e Hin.
  destruct (pattern_option_in _ _ _ _ Hpat Hin) as [Hin' Hpo].
  apply (Hno arg Hin'). unfold matched_as. rewrite Hpo. reflexivity.
Qed.

(** C7, as the program has it: when no argument before a [--] is matched to
    the help option and some argument before a [--] is taken by the parser
    for an option that no option of the program matches, then either the
    parser rejects the command line and the program exits with status 2, or
    the program writes the error naming the first unhandled argument that
    begins with [-], followed by the hint at [--help], and exits with
    status 1; in both cases the server is not involved. *)
Theorem unrecognized_option_reported repr argv stdin post :
  (forall arg, In arg (options_part argv) ->
               matched_as arg <> Some help_action) ->
  (exists arg, In arg (options_part argv) /\ unknown_option arg) ->
  let run := main repr argv stdin post in
  ((exists e,
      parse_known_args argv = inl e /\ usage_error e /\
      run = ([ArgparseError e], Exit 2))
   \/
   (exists cmdargs unhandled arg,
      parse_known_args argv = inr (cmdargs, unhandled) /\
      find dash unhandled = Some arg /\
      In arg argv /\
      run = ([Stderr (unrecognized_option arg)], Exit 1))) /\
  existsb network (fst run) = false.
Proof.
  intros Hnohelp (opt & Hin & Hopt) run.
  assert (Hrun :
    (exists e,
       parse_known_args argv = inl e /\ usage_error e /\
      run = ([ArgparseError e], Exit 2))
    \/
    (exists cmdargs unhandled arg,
       parse_known_args argv = inr (cmdargs, unhandled) /\
       find dash unhandled = Some arg /\
       In arg argv /\
       run = ([Stderr (unrecognized_option arg)], Exit 1))).
  { subst run.
    destruct (parse_known_args argv) as [e|[cmdargs unhandled]] eqn:P.
    - left. exists e. split; [reflexivity|].
      split; [exact (parse_known_args_error _ _ P)|]. unfold main. rewrite P.
      reflexivity.
    - right.
      destruct (parse_known_args_parses _ _ _ P)
        as (items & st' & Hpat & Hp & -> & ->).
      assert (Hex : In opt (extras st')).
      { eapply parses_unknown_option; [exact Hp|].
        eapply pattern_in_option; eauto. }
      destruct (find dash (extras st')) as [arg|] eqn:F.
      + exists (namespace st'), (extras st'), arg.
        split; [reflexivity|]. split; [exact F|].
        pose proof (find_some _ _ F) as [Hargin Hdash]. split.
        * destruct (parses_extras_origin _ _ _ _ Hp Hargin)
            as [[] | (k & Hk & Hno)].
          apply (pattern_unmatched _ _ _ _ Hpat Hk Hno).
        * unfold main. rewrite P.
          rewrite (no_help_option _ _ _ _ Hpat Hp Hnohelp). simpl help.
          cbv iota. fold dash. rewrite F. reflexivity.
      + pose proof (find_none _ _ F _ Hex) as Hd.
        rewrite (unknown_option_dash _ _ Hopt) in Hd. discriminate Hd. }
  split; [exact Hrun|].
  destruct Hrun as [(e & _ & _ & ->) | (c & un & arg & _ & _ & _ & ->)];
    reflexivity.
Qed.

Lemma unrecognized_option_reported_witness :
  (forall arg,
     In arg (options_part [lit "--foo"; lit "--model"; lit "m"]) ->
     matched_as arg <> Some help_action) /\
  (exists arg,
     In arg (options_part [lit "--foo"; lit "--model"; lit "m"]) /\
     unknown_option arg) /\
  main no_repr [lit "--foo"; lit "--model"; lit "m"] (lit "hello")
    unreachable
  = ([Stderr (lit "spit: Unrecognized option '--foo'." ++ newline ++
              lit "Try 'spit --help' for more information." ++ newline)],
     Exit 1).
Proof.
  assert (H1 : forall arg,
     In arg (options_part [lit "--foo"; lit "--model"; lit "m"]) ->
     matched_as arg <> Some help_action).
  { intros arg [<-|[<-|[<-|[]]]]; discriminate. }
  assert (H2 : exists arg,
     In arg (options_part [lit "--foo"; lit "--model"; lit "m"]) /\
     unknown_option arg).
  { exists (lit "--foo"). split; [left|]; reflexivity. }
  split; [exact H1|]. split; [exact H2|].
  destruct (proj1 (unrecognized_option_reported no_repr _ (lit "hello")
                     unreachable H1 H2))
    as [(e & He & _) | (c & un & arg & Hp & Hf & _ & Hrun)];
    [discriminate He|].
  inversion Hp; subst. inversion Hf; subst. exact Hrun.
Defined.

(** The argument [-1] begins with [-] and is matched to no option; the
    parser takes it for a positional argument, and the program reports too
    many arguments, or a missing model, instead of an unrecognized option. *)
Lemma unrecognized_option_reported_counterexample :
  dash (lit "-1") = true /\ matched_as (lit "-1") = None /\
  main no_repr [lit "--model"; lit "m"; lit "-1"] (lit "hello") unreachable
  = ([Stderr too_many_arguments], Exit 1) /\
  main no_repr [lit "--model"; lit "m"; lit "-1"] (lit "hello") unreachable
  <> ([Stderr (unrecognized_option (lit "-1"))], Exit 1) /\
  main no_repr [lit "-1"] (lit "hello") unreachable
  = ([Stderr missing_model], Exit 1).
Proof. repeat split. intros H; vm_compute in H; discriminate H. Qed.

Lemma no_dash_extras argv items st st' :
  arg_strings_pattern argv = inr items ->
  parses items st st' ->
  extras st = [] ->
  (forall arg, In arg argv -> dash arg = true -> matched_as arg <> None) ->
  find dash (extras st') = None.
Proof.
  intros Hpat Hp Hnil Hall. apply find_none_forall. intros x Hx.
  destruct (dash x) eqn:D; [exfalso | reflexivity].
  destruct (parses_extras_origin _ _ _ _ Hp Hx) as [Hin | (k & Hk & Hno)].
  - rewrite Hnil in Hin. destruct Hin.
  - destruct (pattern_unmatched _ _ _ _ Hpat Hk Hno) as [Hin [Hu | Hd]].
    + exact (Hall x Hin D Hu).
    + exact (Hall (lit "--") Hd eq_refl eq_refl).
Qed.

(** C8, as the program has it: when no argument is matched to the help
    option or to [--model], and every argument that begins with [-] is
    matched to an option, then either the parser rejects the command line
    and the program exits with status 2, or the program writes
    [spit: missing --model option] on standard error and exits with status
    1; in both cases the server is not involved. *)
Theorem missing_model_reported repr argv stdin post :
  (forall arg, In arg (options_part argv) ->
               matched_as arg <> Some help_action) ->
  (forall arg, In arg argv -> dash arg = true -> matched_as arg <> None) ->
  (forall arg, In arg (options_part argv) ->
               matched_as arg <> Some model_action) ->
  let run := main repr argv stdin post in
  ((exists e,
      parse_known_args argv = inl e /\ usage_error e /\
      run = ([ArgparseError e], Exit 2))
   \/ run = ([Stderr missing_model], Exit 1)) /\
  existsb network (fst run) = false.
Proof.
  intros Hnohelp Hall Hnomodel run.
  assert (Hrun :
    (exists e,
       parse_known_args argv = inl e /\ usage_error e /\
      run = ([ArgparseError e], Exit 2))
    \/ run = ([Stderr missing_model], Exit 1)).
  { subst run.
    destruct (parse_known_args argv) as [e|[cmdargs unhandled]] eqn:P.
    - left. exists e. split; [reflexivity|].
      split; [exact (parse_known_args_error _ _ P)|]. unfold main. rewrite P.
      reflexivity.
    - right.
      destruct (parse_known_args_parses _ _ _ P)
        as (items & st' & Hpat & Hp & -> & ->).
      unfold main. rewrite P.
      rewrite (no_help_option _ _ _ _ Hpat Hp Hnohelp). simpl help.
      cbv iota. fold dash.
      rewrite (no_dash_extras _ _ _ _ Hpat Hp eq_refl Hall).
      destruct (parses_positional_list _ _ _ Hp (or_introl eq_refl))
        as [l ->].
      rewrite (no_model_option _ _ _ _ Hpat Hp Hnomodel). reflexivity. }
  split; [exact Hrun|].
  destruct Hrun as [(e & _ & _ & ->) | ->]; reflexivity.
Qed.

Lemma missing_model_reported_witness :
  main no_repr [lit "--url"; lit "http://h:1"] (lit "hello") unreachable
  = ([Stderr (lit "spit: missing --model option" ++ newline)], Exit 1).
Proof.
  assert (H1 : forall arg,
     In arg (options_part [lit "--url"; lit "http://h:1"]) ->
     matched_as arg <> Some help_action).
  { intros arg [<-|[<-|[]]]; discriminate. }
  assert (H2 : forall arg,
     In arg [lit "--url"; lit "http://h:1"] -> dash arg = true ->
     matched_as arg <> None).
  { intros arg [<-|[<-|[]]]; discriminate. }
  assert (H3 : forall arg,
     In arg (options_part [lit "--url"; lit "http://h:1"]) ->
     matched_as arg <> Some model_action).
  { intros arg [<-|[<-|[]]]; discriminate. }
  destruct (proj1 (missing_model_reported no_repr _ (lit "hello")
                     unreachable H1 H2 H3))
    as [(e & He & _) | Hrun]; [discriminate He | exact Hrun].
Defined.

(** [--url] without its value contains no help option, no unrecognized
    option and no [--model]; the parser rejects it, and the program exits
    with status 2 without the message about the model. *)
Lemma missing_model_reported_counterexample :
  matched_as (lit "--url") = Some url_action /\
  main no_repr [lit "--url"] (lit "hello") unreachable
  = ([ArgparseError (expected_argument url_action)], Exit 2) /\
  main no_repr [lit "--url"] (lit "hello") unreachable
  <> ([Stderr missing_model], Exit 1).
Proof. repeat split. intros H; vm_compute in H; discriminate H. Qed.

(** ** The options the parser matches *)

Lemma lookup_in key d a : lookup key d = Some a -> In (key, a) d.
Proof.
  induction d as [|[k b] d IH]; simpl; [discriminate|].
  destruct (str_eqb key k) eqn:E.
  - apply str_eqb_eq in E; subst k. intros H; inversion H; auto.
  - intros H; right; auto.
Qed.

Lemma long_tuples_known (d : list (str * action)) (prefix : str)
    (explicit : option str) (a : action) (os : str) (e : option str) :
  In (Some a, os, e)
    (map (fun oa => (Some (snd oa), fst oa, explicit))
       (filter (fun oa => startswith (fst oa) prefix) d)) ->
  In (os, a) d.
Proof.
  intros Hin. apply in_map_iff in Hin as ([k b] & Heq & Hin).
  apply filter_In in Hin as [Hin _]. inversion Heq; subst. exact Hin.
Qed.

Lemma short_tuples_known (d : list (str * action)) (prefix short rest : str)
    (a : action) (os : str) (e : option str) :
  In (Some a, os, e)
    (flat_map
       (fun oa =>
          if str_eqb (fst oa) short
          then [(Some (snd oa), fst oa, Some rest)]
          else if startswith (fst oa) prefix
          then [(Some (snd oa), fst oa, None)]
          else []) d) ->
  In (os, a) d.
Proof.
  intros Hin. apply in_flat_map in Hin as ([k b] & Hin & Htup).
  simpl in Htup.
  destruct (str_eqb k short); [|destruct (startswith k prefix)];
    simpl in Htup; try contradiction;
    destruct Htup as [Heq | Hf]; try contradiction;
    inversion Heq; subst; exact Hin.
Qed.

Lemma _get_option_tuples_known s l a os e :
  _get_option_tuples s = inr l -> In (Some a, os, e) l ->
  In (os, a) _option_string_actions.
Proof.
  unfold _get_option_tuples.
  destruct s as [|c0 [|c1 r]]; try discriminate.
  destruct (contains c0 prefix_chars && contains c1 prefix_chars).
  - destruct (split_once (ch "=") (c0 :: c1 :: r)) as [[p x]|];
      intros H Hin; injection H as Hl; subst l.
    + exact (long_tuples_known _option_string_actions p (Some x) a os e Hin).
    + exact (long_tuples_known _option_string_actions (c0 :: c1 :: r) None
               a os e Hin).
  - destruct (contains c0 prefix_chars && negb (contains c1 prefix_chars));
      [|discriminate].
    intros H Hin; injection H as Hl; subst l.
    exact (short_tuples_known _option_string_actions (c0 :: c1 :: r)
             (firstn 2 (c0 :: c1 :: r)) (skipn 2 (c0 :: c1 :: r))
             a os e Hin).
Qed.

(** An option tuple with an action names an option string of the parser. *)
Lemma _parse_optional_known arg a os e :
  _parse_optional arg = inr (Some (Some a, os, e)) ->
  In (os, a) _option_string_actions.
Proof.
  unfold _parse_optional. destruct arg as [|c0 arg]; [discriminate|].
  destruct (negb (contains c0 prefix_chars)); [discriminate|].
  destruct (lookup (c0 :: arg) _option_string_actions) as [b|] eqn:L.
  { intros H; inversion H; subst. apply lookup_in; exact L. }
  destruct (Nat.eqb (List.length (c0 :: arg)) 1); [discriminate|].
  cbv zeta.
  destruct (split_once (ch "=") (c0 :: arg)) as [[p x]|].
  - destruct (lookup p _option_string_actions) as [b|] eqn:Lp.
    { intros H; inversion H; subst. apply lookup_in; exact Lp. }
    destruct (_get_option_tuples (c0 :: arg)) as [err|[|t [|t' l]]] eqn:G;
      try discriminate.
    + destruct (_negative_number_matcher (c0 :: arg)); [discriminate|].
      destruct (contains (ch " ") (c0 :: arg)); discriminate.
    + intros H; inversion H; subst.
      apply (_get_option_tuples_known _ _ a os e G). left; reflexivity.
  - destruct (_get_option_tuples (c0 :: arg)) as [err|[|t [|t' l]]] eqn:G;
      try discriminate.
    + destruct (_negative_number_matcher (c0 :: arg)); [discriminate|].
      destruct (contains (ch " ") (c0 :: arg)); discriminate.
    + intros H; inversion H; subst.
      apply (_get_option_tuples_known _ _ a os e G). left; reflexivity.
Qed.

Lemma not_dash_positional arg : dash arg = false -> _parse_optional arg = inr None.
Proof.
  unfold dash, _parse_optional. destruct arg as [|c0 arg]; [reflexivity|].
  simpl. unfold contains, prefix_chars. simpl.
  rewrite orb_false_r, andb_true_r. intros ->. reflexivity.
Qed.

Lemma pattern_plain argv :
  ~ In (lit "--") argv ->
  (forall arg, In arg argv -> exists r, _parse_optional arg = inr r) ->
  arg_strings_pattern argv = inr (map (fun arg => (arg, letter_of arg)) argv).
Proof.
  induction argv as [|x argv IH]; intros Hno Hall; simpl; [reflexivity|].
  destruct (str_eqb x (lit "--")) eqn:E.
  - apply str_eqb_eq in E. destruct Hno. left; auto.
  - destruct (Hall x (or_introl eq_refl)) as [r Hr].
    unfold letter_of at 1. rewrite Hr, IH.
    + destruct r; reflexivity.
    + intros Hin; apply Hno; right; exact Hin.
    + intros arg Hin; apply Hall; right; exact Hin.
Qed.

Lemma pattern_accepts argv items arg :
  arg_strings_pattern argv = inr items ->
  In arg (options_part argv) -> exists r, _parse_optional arg = inr r.
Proof.
  revert items; induction argv as [|x argv IH]; intros items H Hin;
    simpl in *; [destruct Hin|].
  destruct (str_eqb x (lit "--")); [destruct Hin|].
  destruct (_parse_optional x) as [e|r] eqn:P; [discriminate|].
  destruct (arg_strings_pattern argv) as [e|parts]; [discriminate|].
  destruct Hin as [<- | Hin]; eauto.
Qed.

Lemma options_part_plain argv : ~ In (lit "--") argv -> options_part argv = argv.
Proof.
  induction argv as [|x argv IH]; intros Hno; simpl; [reflexivity|].
  destruct (str_eqb x (lit "--")) eqn:E.
  - apply str_eqb_eq in E. destruct Hno; left; auto.
  - rewrite IH; [reflexivity|]. intros Hin; apply Hno; right; exact Hin.
Qed.

(** ** The positional arguments *)

Lemma in_remove_first (x y : str) l :
  In y l -> y <> x -> In y (remove_first x l).
Proof.
  induction l as [|z l IH]; simpl; [tauto|]. intros Hin Hne.
  destruct (str_eqb z x) eqn:E.
  - apply str_eqb_eq in E; subst z. destruct Hin; [congruence | assumption].
  - destruct Hin; [left | right]; auto.
Qed.

Lemma span_arguments_all items :
  existsb is_option items = false -> span_arguments items = (items, []).
Proof.
  induction items as [|it items IH]; simpl; [reflexivity|].
  destruct (is_option it); simpl; [discriminate|].
  intros H. rewrite (IH H). reflexivity.
Qed.

(** An argument that is no option and not the value of the option before it
    is kept: it is in the list of the positional or among the extras. *)
Lemma parses_positional_kept items st st' :
  parses items st st' ->
  forall pre p post,
    items = pre ++ (p, letter_A) :: post ->
    p <> lit "--" ->
    (forall pre' it, pre = pre' ++ [it] -> ~ awaiting it) ->
    (forall arg os e,
       ~ In (arg, letter_O (Some non_option_arguments_action, os, e)) items) ->
    positionals st = true \/ is_list (non_option_arguments (namespace st)) ->
    exists l,
      non_option_arguments (namespace st') = PyList l /\
      In p (l ++ extras st').
Proof.
  intros H. induction H as
    [items st st' rest Hno Hc
    |arg' t rest st st1 items1 st' Hc Hp IH
    |items taken rest st st' Hex Hpos Hs Hne Hp IH
    |items strings rest st st' Hex Hpos Hs Hne Hp IH];
    intros pre p post Hitems Hp_ne Hpre Hnoa Hor.
  - assert (Hin : In p (map fst items)).
    { subst items. rewrite map_app. apply in_or_app; right; left; reflexivity. }
    unfold consume_positionals in Hc. destruct (positionals st) eqn:P.
    + rewrite (span_arguments_all _ Hno) in Hc. inversion Hc; subst st' rest.
      eexists; split; [reflexivity|]. apply in_or_app; left.
      apply in_remove_first; assumption.
    + inversion Hc; subst st' rest.
      destruct Hor as [Hor | [l Hl]]; [discriminate|].
      exists l; split; [exact Hl|]. simpl.
      apply in_or_app; right. apply in_or_app; right. exact Hin.
  - destruct pre as [|x pre1]; [inversion Hitems|].
    simpl in Hitems. inversion Hitems; subst x rest.
    destruct (consume_optional_inv _ _ _ _ _ _ Hc)
      as (Hpos & Hcases).
    assert (Hor1 : positionals st1 = true \/
                   is_list (non_option_arguments (namespace st1))).
    { rewrite Hpos.
      destruct Hcases as [(os & e & _ & Hns & _ & _)
                         |(b & os & e & args & _ & Hns & _ & _ & _)];
        rewrite Hns; [exact Hor|].
      destruct Hor as [Hor | Hor]; [left; exact Hor | right].
      destruct b; try exact Hor. eexists; reflexivity. }
    assert (Hnoa1 : forall arg os e,
      ~ In (arg, letter_O (Some non_option_arguments_action, os, e))
          (pre1 ++ (p, letter_A) :: post)).
    { intros arg os e Hin. apply (Hnoa arg os e). right; exact Hin. }
    assert (Hrest :
      items1 = pre1 ++ (p, letter_A) :: post \/
      exists a os v,
        t = (Some a, os, None) /\ nargs a = 1%nat /\
        pre1 ++ (p, letter_A) :: post = (v, letter_A) :: items1).
    { destruct Hcases as [(os & e & _ & _ & _ & ->)
                         |(b & os & e & args & -> & _ & _ & _ & Hrest)];
        [left; reflexivity|].
      destruct Hrest as [-> | (-> & Hn & v & _ & Hv)];
        [left; reflexivity | right]. exists b, os, v. auto. }
    destruct Hrest as [-> | (a & os & v & -> & Hn & Hv)].
    + apply (IH pre1 p post eq_refl Hp_ne); auto.
      intros pre' it ->. apply (Hpre ((arg', letter_O t) :: pre') it).
      reflexivity.
    + destruct pre1 as [|y pre2].
      * destruct (Hpre [] (arg', letter_O (Some a, os, None)) eq_refl).
        exists a, os. split; [reflexivity | exact Hn].
      * simpl in Hv. inversion Hv; subst y items1.
        apply (IH pre2 p post eq_refl Hp_ne); auto.
        -- intros pre' it ->.
           apply (Hpre ((arg', letter_O (Some a, os, None))
                          :: (v, letter_A) :: pre') it).
           reflexivity.
        -- intros arg os' e Hin. apply (Hnoa1 arg os' e). right; exact Hin.
  - destruct (span_arguments_app _ _ _ Hs) as (Hitems' & Hnone & Hopt).
    destruct (Hopt Hex) as (oarg & ot & rest' & Hrest).
    rewrite Hitems' in Hitems.
    destruct (app_eq_app _ _ _ _ Hitems) as (l & [[Ht Hl] | [Ht Hl]]).
    + destruct l as [|z l].
      * simpl in Hl. rewrite Hrest in Hl. discriminate Hl.
      * simpl in Hl. inversion Hl; subst z.
        assert (Hin : In p (map fst taken)).
        { rewrite Ht, map_app. apply in_or_app; right; left; reflexivity. }
        assert (Hkeep :
          non_option_arguments (namespace st')
          = PyList (remove_first (lit "--") (map fst taken))).
        { refine (parses_field_unchanged non_option_arguments_action
                    _ _ _ _ Hp _); [intros _; reflexivity|].
          intros arg os e Hin'. apply (Hnoa arg os e). rewrite Hitems'.
          apply in_or_app; right; exact Hin'. }
        eexists; split; [exact Hkeep|]. apply in_or_app; left.
        apply in_remove_first; assumption.
    + apply (IH l p post Hl Hp_ne).
      * intros pre' it ->. apply (Hpre (taken ++ pre') it).
        rewrite Ht, app_assoc. reflexivity.
      * intros arg os e Hin'. apply (Hnoa arg os e). rewrite Hitems'.
        apply in_or_app; right; exact Hin'.
      * right. eexists; reflexivity.
  - destruct (span_arguments_app _ _ _ Hs) as (Hitems' & Hnone & Hopt).
    destruct (Hopt Hex) as (oarg & ot & rest' & Hrest).
    assert (Hlist : is_list (non_option_arguments (namespace st))).
    { destruct Hor as [Hor | Hor]; [congruence | exact Hor]. }
    rewrite Hitems' in Hitems.
    destruct (app_eq_app _ _ _ _ Hitems) as (l & [[Ht Hl] | [Ht Hl]]).
    + destruct l as [|z l].
      * simpl in Hl. rewrite Hrest in Hl. discriminate Hl.
      * simpl in Hl. inversion Hl; subst z.
        assert (Hin : In p (map fst strings)).
        { rewrite Ht, map_app. apply in_or_app; right; left; reflexivity. }
        destruct (parses_positional_list _ _ _ Hp (or_intror Hlist))
          as [l' Hl'].
        exists l'; split; [exact Hl'|]. apply in_or_app; right.
        eapply parses_extras_mono; [exact Hp|]. simpl.
        apply in_or_app; right; exact Hin.
    + apply (IH l p post Hl Hp_ne).
      * intros pre' it ->. apply (Hpre (strings ++ pre') it).
        rewrite Ht, app_assoc. reflexivity.
      * intros arg os e Hin'. apply (Hnoa arg os e). rewrite Hitems'.
        apply in_or_app; right; exact Hin'.
      * right; exact Hlist.
Qed.

Lemma matched_as_parse arg a :
  matched_as arg = Some a ->
  exists os e, _parse_optional arg = inr (Some (Some a, os, e)).
Proof.
  unfold matched_as.
  destruct (_parse_optional arg) as [err|[[[[b|] os] e]|]]; try discriminate.
  intros H; inversion H; subst. eauto.
Qed.

Lemma no_positional_option argv items arg os e :
  arg_strings_pattern argv = inr items ->
  ~ In (arg, letter_O (Some non_option_arguments_action, os, e)) items.
Proof.
  intros Hpat Hin. destruct (pattern_option_in _ _ _ _ Hpat Hin) as [_ Hp].
  apply _parse_optional_known in Hp. simpl in Hp.
  repeat (destruct Hp as [Hp | Hp]; [discriminate Hp|]). exact Hp.
Qed.

(** C9, as the program has it: when no argument is matched to the help
    option, every argument that begins with [-] is matched to an option, one
    of them to [--model], and some argument does not begin with [-] and does
    not follow an option that takes it as its value, then either the parser
    rejects the command line and the program exits with status 2, or the
    program writes [spit: too many arguments] and the hint at [--help] on
    standard error and exits with status 1; in both cases the server is not
    involved. *)
Theorem too_many_arguments_reported repr argv stdin post :
  (forall arg, In arg (options_part argv) ->
               matched_as arg <> Some help_action) ->
  (forall arg, In arg argv -> dash arg = true -> matched_as arg <> None) ->
  (exists arg, In arg (options_part argv) /\
               matched_as arg = Some model_action) ->
  (exists pre p rest,
     argv = pre ++ p :: rest /\ dash p = false /\
     forall pre' arg, pre = pre' ++ [arg] -> awaits_value arg = false) ->
  let run := main repr argv stdin post in
  ((exists e,
      parse_known_args argv = inl e /\ usage_error e /\
      run = ([ArgparseError e], Exit 2))
   \/ run = ([Stderr too_many_arguments], Exit 1)) /\
  existsb network (fst run) = false.
Proof.
  intros Hnohelp Hall (marg & Hmin & Hmodel)
    (pre & p & rest & Hargv & Hdash & Hpre) run.
  assert (Hrun :
    (exists e,
       parse_known_args argv = inl e /\ usage_error e /\
      run = ([ArgparseError e], Exit 2))
    \/ run = ([Stderr too_many_arguments], Exit 1)).
  { subst run.
    destruct (parse_known_args argv) as [e|[cmdargs unhandled]] eqn:P.
    - left. exists e. split; [reflexivity|].
      split; [exact (parse_known_args_error _ _ P)|]. unfold main. rewrite P.
      reflexivity.
    - right.
      destruct (parse_known_args_parses _ _ _ P)
        as (items & st' & Hpat & Hp & -> & ->).
      assert (Hnd : ~ In (lit "--") argv).
      { intros Hin. exact (Hall _ Hin eq_refl eq_refl). }
      assert (Hitems : items = map (fun arg => (arg, letter_of arg)) argv).
      { assert (Hpl := pattern_plain argv Hnd).
        rewrite Hpat in Hpl. symmetry.
        assert (Hacc : forall arg, In arg argv ->
                         exists r, _parse_optional arg = inr r).
        { intros arg Hin. apply (pattern_accepts _ _ _ Hpat).
          rewrite (options_part_plain _ Hnd). exact Hin. }
        specialize (Hpl Hacc). inversion Hpl; reflexivity. }
      assert (Hkept : exists l,
        non_option_arguments (namespace st') = PyList l /\
        In p (l ++ extras st')).
      { apply (parses_positional_kept _ _ _ Hp
                 (map (fun arg => (arg, letter_of arg)) pre) p
                 (map (fun arg => (arg, letter_of arg)) rest)).
        - rewrite Hitems, Hargv, map_app. simpl. unfold letter_of at 2.
          rewrite (not_dash_positional _ Hdash). reflexivity.
        - intros ->. discriminate Hdash.
        - intros pre' it Heq (a & os & Hsnd & Hn).
          apply map_eq_app in Heq as (l1 & l2 & -> & _ & Hl2).
          destruct l2 as [|arg [|? ?]]; try discriminate Hl2.
          inversion Hl2; subst it. simpl in Hsnd.
          specialize (Hpre l1 arg eq_refl). unfold awaits_value in Hpre.
          unfold letter_of in Hsnd.
          destruct (_parse_optional arg) as [err|[t|]]; try discriminate Hsnd.
          inversion Hsnd; subst t. rewrite Hn in Hpre. discriminate Hpre.
        - intros arg os e. apply (no_positional_option _ _ _ _ _ Hpat).
        - left; reflexivity. }
      destruct Hkept as (l & Hl & Hin).
      assert (Hm : is_list (model (namespace st'))).
      { apply (parses_field_set model_action is_list _ _ _
                 (fun _ _ => ex_intro _ _ eq_refl) Hp).
        right. destruct (matched_as_parse _ _ Hmodel) as (os & e & Hpo).
        exists marg, os, e. eapply pattern_in_option; eauto. }
      destruct Hm as [lm Hm].
      unfold main. rewrite P.
      rewrite (no_help_option _ _ _ _ Hpat Hp Hnohelp). simpl help.
      cbv iota. fold dash.
      rewrite (no_dash_extras _ _ _ _ Hpat Hp eq_refl Hall), Hl, Hm.
      destruct (l ++ extras st'); [destruct Hin | reflexivity]. }
  split; [exact Hrun|].
  destruct Hrun as [(e & _ & _ & ->) | ->]; reflexivity.
Qed.

Lemma too_many_arguments_reported_witness :
  main no_repr [lit "--model"; lit "m"; lit "x"] (lit "hello") unreachable
  = ([Stderr (lit "spit: too many arguments" ++ newline ++
              lit "Try 'spit --help' for more information." ++ newline)],
     Exit 1).
Proof.
  assert (H1 : forall arg,
     In arg (options_part [lit "--model"; lit "m"; lit "x"]) ->
     matched_as arg <> Some help_action).
  { intros arg [<-|[<-|[<-|[]]]]; discriminate. }
  assert (H2 : forall arg,
     In arg [lit "--model"; lit "m"; lit "x"] -> dash arg = true ->
     matched_as arg <> None).
  { intros arg [<-|[<-|[<-|[]]]]; discriminate. }
  assert (H3 : exists arg,
     In arg (options_part [lit "--model"; lit "m"; lit "x"]) /\
     matched_as arg = Some model_action).
  { exists (lit "--model"). split; [left|]; reflexivity. }
  assert (H4 : exists pre p rest,
     [lit "--model"; lit "m"; lit "x"] = pre ++ p :: rest /\
     dash p = false /\
     forall pre' arg, pre = pre' ++ [arg] -> awaits_value arg = false).
  { exists [lit "--model"; lit "m"], (lit "x"), [].
    split; [reflexivity|]. split; [reflexivity|].
    intros pre' arg Heq.
    destruct pre' as [|a [|b [|c pre']]]; simpl in Heq;
      inversion Heq; subst; try reflexivity. }
  destruct (proj1 (too_many_arguments_reported no_repr _ (lit "hello")
                     unreachable H1 H2 H3 H4))
    as [(e & He & _) | Hrun]; [discriminate He | exact Hrun].
Defined.

(** With [--url] left without its value after a model and a positional
    argument, the parser rejects the command line and the program exits
    with status 2 without the message about the arguments. *)
Lemma too_many_arguments_reported_counterexample :
  matched_as (lit "--model") = Some model_action /\
  matched_as (lit "--url") = Some url_action /\
  dash (lit "m") = false /\ dash (lit "x") = false /\
  main no_repr [lit "--model"; lit "m"; lit "x"; lit "--url"]
    (lit "hello") unreachable
  = ([ArgparseError (expected_argument url_action)], Exit 2) /\
  main no_repr [lit "--model"; lit "m"; lit "x"; lit "--url"]
    (lit "hello") unreachable
  <> ([Stderr too_many_arguments], Exit 1).
Proof. repeat split. intros H; vm_compute in H; discriminate H. Qed.

(** ** Abbreviations, and what is reported as unrecognized *)

Lemma startswith_In_prefixes s p :
  startswith s p = true ->
  In p (map (fun n => firstn n s) (seq 0 (S (List.length s)))).
Proof.
  intros H. destruct (startswith_prefix _ _ H) as [r ->].
  apply in_map_iff. exists (List.length p). split.
  - rewrite firstn_app, Nat.sub_diag, firstn_all. simpl. apply app_nil_r.
  - apply in_seq. rewrite length_app. lia.
Qed.

(** An argument that is a prefix of exactly one option string is matched to
    that option. *)
Lemma unambiguous_prefix arg name a :
  filter (fun oa => startswith (fst oa) arg) _option_string_actions
  = [(name, a)] ->
  _parse_optional arg = inr (Some (Some a, name, None)).
Proof.
  intros Hf.
  assert (Hin : In (name, a)
                  (filter (fun oa => startswith (fst oa) arg)
                     _option_string_actions))
    by (rewrite Hf; left; reflexivity).
  apply filter_In in Hin as [Hin Hsw]. simpl in Hsw.
  unfold _option_string_actions in Hin. simpl in Hin.
  repeat (destruct Hin as [Hin | Hin];
          [inversion Hin; subst name a; clear Hin;
           apply startswith_In_prefixes in Hsw; simpl in Hsw;
           repeat (destruct Hsw as [Hsw | Hsw];
                   [subst arg; vm_compute in Hf; try discriminate Hf;
                    reflexivity|]);
           destruct Hsw|]).
  destruct Hin.
Qed.

Lemma classified_tail_option taken : forall arg t rest,
  classified (taken ++ (arg, letter_O t) :: rest) ->
  existsb is_option taken = false ->
  classified ((arg, letter_O t) :: rest) /\ Forall plain (map fst taken).
Proof.
  induction taken as [|x taken IH]; intros arg t rest Hc Hno; simpl in *.
  - split; [exact Hc | constructor].
  - apply orb_false_iff in Hno as [Hx Hno].
    remember (x :: taken ++ (arg, letter_O t) :: rest) as items eqn:E.
    destruct Hc as [|rest0|a0 r items Hne Hp Hc']; [discriminate E| |].
    + injection E as _ Htl.
      assert (Hin : In (arg, letter_O t)
                      (map (fun s : str => (s, letter_A)) rest0)).
      { rewrite Htl. apply in_or_app; right; left; reflexivity. }
      apply in_map_iff in Hin as (s & Heq & _). discriminate Heq.
    + injection E as Hhd Htl. subst x items.
      destruct (IH _ _ _ Hc' Hno) as [Hc2 Hpl]. split; [exact Hc2|].
      constructor; [|exact Hpl]. unfold plain, matched_as. simpl.
      unfold is_option, letter_of in Hx. simpl in Hx. rewrite Hp in *.
      destruct r as [t0|]; [discriminate Hx | reflexivity].
Qed.

Lemma classified_no_option items :
  classified items -> existsb is_option items = false ->
  exists e1 e2,
    map fst items = e1 ++ e2 /\ Forall plain e1 /\
    (e2 = [] \/ exists e, e2 = lit "--" :: e).
Proof.
  induction 1 as [|rest|arg r items Hne Hp Hc IH]; intros Hno.
  - exists [], []. repeat split; auto.
  - exists [], (lit "--" :: map fst (map (fun s => (s, letter_A)) rest)).
    repeat split; eauto.
  - simpl in Hno. apply orb_false_iff in Hno as [Hx Hno].
    destruct (IH Hno) as (e1 & e2 & Heq & Hpl & He2).
    exists (arg :: e1), e2. simpl. rewrite Heq. repeat split; auto.
    constructor; [|exact Hpl]. unfold plain, matched_as.
    unfold is_option, letter_of in Hx. simpl in Hx. rewrite Hp in *.
    destruct r as [t0|]; [discriminate Hx | reflexivity].
Qed.

Lemma classified_option_inv arg t rest :
  classified ((arg, letter_O t) :: rest) ->
  classified rest /\ _parse_optional arg = inr (Some t).
Proof.
  intros Hc. remember ((arg, letter_O t) :: rest) as items eqn:E.
  destruct Hc as [|rest0|a0 r items Hne Hp Hc']; try discriminate E.
  injection E as Harg Hk Hitems. subst a0 items.
  split; [exact Hc'|]. unfold letter_of in Hk. rewrite Hp in *.
  destruct r; inversion Hk; reflexivity.
Qed.

Lemma classified_value_inv v items :
  classified ((v, letter_A) :: items) -> classified items.
Proof.
  intros Hc. remember ((v, letter_A) :: items) as l eqn:E.
  destruct Hc as [|rest0|a0 r items' Hne Hp Hc']; try discriminate E.
  injection E as _ _ Hitems. subst items'. exact Hc'.
Qed.

Lemma Forall_plain_app e1 e2 :
  Forall plain e1 -> Forall plain e2 -> Forall plain (e1 ++ e2).
Proof. intros H1 H2. apply Forall_app; split; assumption. Qed.

(** The extras are arguments the parser matches to no option, up to a [--]
    that may follow them. *)
Lemma parses_extras_shape items st st' :
  parses items st st' ->
  classified items ->
  Forall plain (extras st) ->
  exists e1 e2,
    extras st' = e1 ++ e2 /\ Forall plain e1 /\
    (e2 = [] \/ exists e, e2 = lit "--" :: e).
Proof.
  intros H. induction H as
    [items st st' rest Hno Hc
    |arg' t rest st st1 items1 st' Hc Hp IH
    |items taken rest st st' Hex Hpos Hs Hne Hp IH
    |items strings rest st st' Hex Hpos Hs Hne Hp IH]; intros Hcl Hpl.
  - simpl. unfold consume_positionals in Hc. destruct (positionals st).
    + rewrite (span_arguments_all _ Hno) in Hc. inversion Hc; subst.
      exists (extras st), []. simpl. repeat split; auto.
    + inversion Hc; subst.
      destruct (classified_no_option _ Hcl Hno) as (e1 & e2 & Heq & H1 & H2).
      exists (extras st' ++ e1), e2. rewrite Heq, app_assoc.
      repeat split; auto. apply Forall_plain_app; assumption.
  - destruct (classified_option_inv _ _ _ Hcl) as [Hcl' Hpo].
    destruct (consume_optional_inv _ _ _ _ _ _ Hc)
      as (_ & [(os & e & -> & _ & Hex & ->)
              |(b & os & e & args & -> & _ & Hex & _ & Hrest)]).
    + apply IH; [exact Hcl'|]. rewrite Hex.
      apply Forall_plain_app; [exact Hpl|]. constructor; [|constructor].
      unfold plain, matched_as. rewrite Hpo. reflexivity.
    + apply IH; [|rewrite Hex; exact Hpl].
      destruct Hrest as [-> | (_ & _ & v & _ & ->)]; [exact Hcl'|].
      eapply classified_value_inv; exact Hcl'.
  - destruct (span_arguments_app _ _ _ Hs) as (-> & Hnone & Hopt).
    destruct (Hopt Hex) as (oarg & ot & rest' & ->).
    destruct (classified_tail_option _ _ _ _ Hcl Hnone) as [Hcl' _].
    apply IH; [exact Hcl' | exact Hpl].
  - destruct (span_arguments_app _ _ _ Hs) as (-> & Hnone & Hopt).
    destruct (Hopt Hex) as (oarg & ot & rest' & ->).
    destruct (classified_tail_option _ _ _ _ Hcl Hnone) as [Hcl' Hpl'].
    apply IH; [exact Hcl'|]. simpl.
    apply Forall_plain_app; assumption.
Qed.

Lemma find_app {X} (f : X -> bool) (l1 l2 : list X) :
  find f (l1 ++ l2)
  = match find f l1 with Some x => Some x | None => find f l2 end.
Proof.
  induction l1 as [|x l1 IH]; simpl; [reflexivity|].
  destruct (f x); [reflexivity | exact IH].
Qed.

(** The argument the program names as unrecognized is one the parser
    matches to no option. *)
Lemma reported_unmatched argv cmdargs unhandled arg :
  parse_known_args argv = inr (cmdargs, unhandled) ->
  find dash unhandled = Some arg ->
  matched_as arg = None.
Proof.
  intros P F.
  destruct (parse_known_args_parses _ _ _ P)
    as (items & st' & Hpat & Hp & -> & ->).
  destruct (pattern_classified _ _ Hpat) as [Hcl _].
  destruct (parses_extras_shape _ _ _ Hp Hcl (Forall_nil _))
    as (e1 & e2 & Heq & Hpl & He2).
  rewrite Heq, find_app in F.
  destruct (find dash e1) as [x|] eqn:F1.
  - inversion F; subst x. apply find_some in F1 as [Hin _].
    rewrite Forall_forall in Hpl. exact (Hpl _ Hin).
  - destruct He2 as [-> | [e ->]]; [discriminate F|].
    simpl in F. inversion F; subst arg. reflexivity.
Qed.

Lemma option_takes_value arg a name v :
  _parse_optional arg = inr (Some (Some a, name, None)) ->
  nargs a = 1%nat ->
  _parse_optional v = inr None -> v <> lit "--" ->
  parse_known_args [arg; v]
  = inr (take_action non_option_arguments_action []
           (take_action a [v] defaults), []).
Proof.
  intros Ha Hn Hv Hne.
  assert (E1 : str_eqb arg (lit "--") = false).
  { apply str_eqb_neq. intros ->. discriminate Ha. }
  assert (E2 : str_eqb v (lit "--") = false) by (apply str_eqb_neq; exact Hne).
  unfold parse_known_args. simpl arg_strings_pattern.
  rewrite E1, Ha, E2, Hv. simpl. rewrite Hn. reflexivity.
Qed.

Lemma unrecognized_option_inj x y :
  unrecognized_option x = unrecognized_option y -> x = y.
Proof.
  unfold unrecognized_option. intros H.
  apply app_inv_head in H. apply app_inv_tail in H. exact H.
Qed.

Lemma main_unrecognized_inv repr argv stdin post arg :
  main repr argv stdin post = ([Stderr (unrecognized_option arg)], Exit 1) ->
  exists cmdargs unhandled,
    parse_known_args argv = inr (cmdargs, unhandled) /\
    find dash unhandled = Some arg.
Proof.
  unfold main.
  destruct (parse_known_args argv) as [e|[cmdargs unhandled]];
    [discriminate|].
  destruct (help cmdargs); try discriminate. fold dash.
  destruct (find dash unhandled) as [x|] eqn:F.
  - intros H.
    assert (Hx : unrecognized_option x = unrecognized_option arg)
      by congruence.
    apply unrecognized_option_inj in Hx. subst x. eauto.
  - destruct (non_option_arguments cmdargs); try discriminate.
    assert (Hreq : forall u m,
      request repr u m stdin post
      <> ([Stderr (unrecognized_option arg)], Exit 1)).
    { intros u m. unfold request.
      destruct (post _ _) as [r|]; [destruct (handle repr r)|];
        discriminate. }
    assert (Hmiss : missing_model <> unrecognized_option arg).
    { intros H. apply (f_equal (fun l => nth 6 l 0)) in H.
      vm_compute in H. discriminate H. }
    assert (Hmany : too_many_arguments <> unrecognized_option arg).
    { intros H. apply (f_equal (fun l => nth 6 l 0)) in H.
      vm_compute in H. discriminate H. }
    destruct (model cmdargs) as [| |m|ms];
      try (intros H; exfalso; apply Hmiss; congruence);
      destruct (Nat.ltb 0 (List.length (l ++ unhandled)));
      try (intros H; exfalso; apply Hmany; congruence);
      destruct (url cmdargs); try discriminate;
      simpl subscript0; try discriminate.
    + destruct m; [discriminate | intros H; destruct (Hreq _ _ H)].
    + destruct ms; [discriminate | intros H; destruct (Hreq _ _ H)].
Qed.

(** C10: an argument that is a prefix of exactly one option string is
    matched to that option: [--u] and [--ur], followed by a value, set the
    URL, and [--m], [--mo], [--mod] and [--mode] the model; and the argument
    the program reports as an unrecognized option begins with [-] and is
    matched to no option, in particular it is not such a prefix. *)
Theorem option_abbreviations repr :
  (forall arg name a,
     filter (fun oa => startswith (fst oa) arg) _option_string_actions
     = [(name, a)] ->
     _parse_optional arg = inr (Some (Some a, name, None))) /\
  (forall arg v,
     In arg [lit "--u"; lit "--ur"] ->
     _parse_optional v = inr None -> v <> lit "--" ->
     parse_known_args [arg; v]
     = inr ({| url := PyStr v; model := PyNone; help := PyNone;
               non_option_arguments := PyList [] |}, [])) /\
  (forall arg v,
     In arg [lit "--m"; lit "--mo"; lit "--mod"; lit "--mode"] ->
     _parse_optional v = inr None -> v <> lit "--" ->
     parse_known_args [arg; v]
     = inr ({| url := PyStr (lit "http://localhost:11434");
               model := PyList [v]; help := PyNone;
               non_option_arguments := PyList [] |}, [])) /\
  (forall argv stdin post arg,
     main repr argv stdin post
     = ([Stderr (unrecognized_option arg)], Exit 1) ->
     dash arg = true /\ matched_as arg = None /\
     forall name a,
       filter (fun oa => startswith (fst oa) arg) _option_string_actions
       <> [(name, a)]).
Proof.
  split; [exact unambiguous_prefix|]. split; [|split].
  - intros arg v Hin Hv Hne.
    assert (Ha : _parse_optional arg
                 = inr (Some (Some url_action, lit "--url", None))).
    { destruct Hin as [<-|[<-|[]]]; reflexivity. }
    rewrite (option_takes_value _ _ _ _ Ha eq_refl Hv Hne).
    unfold take_action, _get_values. simpl.
    apply str_eqb_neq in Hne. rewrite Hne. reflexivity.
  - intros arg v Hin Hv Hne.
    assert (Ha : _parse_optional arg
                 = inr (Some (Some model_action, lit "--model", None))).
    { destruct Hin as [<-|[<-|[<-|[<-|[]]]]]; reflexivity. }
    rewrite (option_takes_value _ _ _ _ Ha eq_refl Hv Hne).
    unfold take_action, _get_values. simpl.
    apply str_eqb_neq in Hne. rewrite Hne. reflexivity.
  - intros argv stdin post arg H.
    destruct (main_unrecognized_inv _ _ _ _ _ H) as (c & u & P & F).
    pose proof (reported_unmatched _ _ _ _ P F) as Hm.
    split; [apply (find_some _ _ F) | split; [exact Hm|]].
    intros name a Hf. apply unambiguous_prefix in Hf.
    unfold matched_as in Hm. rewrite Hf in Hm. discriminate Hm.
Qed.

Lemma option_abbreviations_witness :
  _parse_optional (lit "--mod")
  = inr (Some (Some model_action, lit "--model", None)) /\
  parse_known_args [lit "--ur"; lit "http://h:1"]
  = inr ({| url := PyStr (lit "http://h:1"); model := PyNone; help := PyNone;
            non_option_arguments := PyList [] |}, []) /\
  parse_known_args [lit "--mod"; lit "foo"]
  = inr ({| url := PyStr (lit "http://localhost:11434");
            model := PyList [lit "foo"]; help := PyNone;
            non_option_arguments := PyList [] |}, []) /\
  main no_repr [lit "--mod"; lit "foo"; lit "--x"] (lit "hello") unreachable
  = ([Stderr (unrecognized_option (lit "--x"))], Exit 1) /\
  dash (lit "--x") = true /\ matched_as (lit "--x") = None.
Proof.
  destruct (option_abbreviations no_repr) as (H1 & H2 & H3 & H4).
  split; [apply H1; reflexivity|].
  split; [apply H2; [right; left; reflexivity | reflexivity | discriminate]|].
  split;
    [apply H3;
     [right; right; left; reflexivity | reflexivity | discriminate]|].
  assert (Hrun :
    main no_repr [lit "--mod"; lit "foo"; lit "--x"] (lit "hello") unreachable
    = ([Stderr (unrecognized_option (lit "--x"))], Exit 1))
    by reflexivity.
  split; [exact Hrun|].
  destruct (H4 _ _ _ _ Hrun) as (Hd & Hm & _). split; [exact Hd | exact Hm].
Defined.

(** ** The request and the response *)

Lemma main_resolves repr argv u m stdin post :
  resolves argv u m ->
  main repr argv stdin post = request repr (sanitize u) m stdin post.
Proof.
  intros (cmdargs & unhandled & Hp & Hh & Hf & (l & Hl & Hnil) & Hu & Hm & Hs).
  unfold main. unfold dash in Hf. rewrite Hp, Hh, Hf, Hl, Hnil, Hu.
  destruct (model cmdargs); [congruence | rewrite Hs; reflexivity ..].
Qed.

Lemma main_response repr argv u m stdin post r :
  resolves argv u m ->
  post (target u) (payload m stdin) = Some r ->
  main repr argv stdin post =
  (ReadStdin :: Post (target u) (payload m stdin) true
     :: fst (handle repr r), snd (handle repr r)).
Proof.
  intros H Hr. rewrite (main_resolves _ _ _ _ _ _ H). unfold request.
  fold (target u). fold (payload m stdin). rewrite Hr.
  destruct (handle repr r); reflexivity.
Qed.

Lemma stream_objects repr (lines rest : list bytes) :
  Forall json_object_line lines ->
  stream repr (lines ++ rest) =
  (flat_map (fun line => [NextLine; Stdout (response_field repr line); Flush])
     lines ++ fst (stream repr rest),
   snd (stream repr rest)).
Proof.
  induction 1 as [|line lines (s & pairs & Hd & Hl) _ IH]; simpl.
  - destruct (stream repr rest); reflexivity.
  - unfold response_field. rewrite Hd, Hl, IH. reflexivity.
Qed.

Lemma stdout_of_app (xs ys : list event) :
  stdout_of (xs ++ ys) = stdout_of xs ++ stdout_of ys.
Proof. unfold stdout_of. apply flat_map_app. Qed.

Lemma stdout_of_fragments (f : bytes -> str) (lines : list bytes) :
  stdout_of (flat_map (fun line => [NextLine; Stdout (f line); Flush]) lines)
  = flat_map f lines.
Proof.
  unfold stdout_of.
  induction lines as [|line lines IH]; simpl; [reflexivity|].
  f_equal. exact IH.
Qed.

Lemma handle_200 repr r :
  status_code r = 200%Z ->
  handle repr r =
  (fst (stream repr (iter_lines r)), snd (stream repr (iter_lines r))).
Proof.
  intros H. unfold handle. rewrite H. simpl.
  destruct (stream repr (iter_lines r)); reflexivity.
Qed.

Lemma resolves_sample :
  resolves sample_argv (lit "http://localhost:11434") (lit "foo").
Proof.
  exists {| url := PyStr (lit "http://localhost:11434");
            model := PyList [lit "foo"]; help := PyNone;
            non_option_arguments := PyList [] |}, [].
  repeat split; try reflexivity; try discriminate.
  exists []; split; reflexivity.
Qed.

(** C6: the URL is given a final slash exactly when it lacks one, before the
    endpoint path is appended, so that the request goes to the sanitized URL
    followed by [api/generate]; the URLs [http://h:1/] and [http://h:1] both
    lead to the target [http://h:1/api/generate]. *)
Theorem url_normalization repr argv u m stdin post :
  resolves argv u m ->
  endswith (sanitize u) (lit "/") = true /\
  (endswith u (lit "/") = true -> sanitize u = u) /\
  (endswith u (lit "/") = false -> sanitize u = u ++ lit "/") /\
  (exists events t,
     main repr argv stdin post =
     (ReadStdin
      :: Post (sanitize u ++ lit "api/generate") (payload m stdin) true
      :: events, t)) /\
  (u = lit "http://h:1/" \/ u = lit "http://h:1" ->
   sanitize u ++ lit "api/generate" = lit "http://h:1/api/generate").
Proof.
  intros H. split; [apply sanitize_ends_with_slash|].
  split; [unfold sanitize; intros ->; reflexivity|].
  split; [unfold sanitize; intros ->; reflexivity|].
  split.
  - rewrite (main_resolves _ _ _ _ _ _ H). unfold request.
    fold (payload m stdin).
    destruct (post _ _) as [r|]; [destruct (handle repr r)|]; eauto.
  - intros [-> | ->]; reflexivity.
Qed.

Lemma url_normalization_witness :
  resolves [lit "--url"; lit "http://h:1"; lit "--model"; lit "foo"]
    (lit "http://h:1") (lit "foo") /\
  exists events t,
    main no_repr [lit "--url"; lit "http://h:1"; lit "--model"; lit "foo"]
      (lit "hello") unreachable =
    (ReadStdin
     :: Post (lit "http://h:1/api/generate")
          (payload (lit "foo") (lit "hello")) true
     :: events, t).
Proof.
  assert (H : resolves
                [lit "--url"; lit "http://h:1"; lit "--model"; lit "foo"]
                (lit "http://h:1") (lit "foo")).
  { exists {| url := PyStr (lit "http://h:1");
              model := PyList [lit "foo"]; help := PyNone;
              non_option_arguments := PyList [] |}, [].
    repeat split; try reflexivity; try discriminate.
    exists []; split; reflexivity. }
  split; [exact H|].
  exact (proj1 (proj2 (proj2 (proj2
           (url_normalization no_repr _ _ _ (lit "hello") unreachable H))))).
Defined.

(** C3: when the response arrives, a status code other than 200 is reported
    on standard error; a status code of 400 or more makes the program report
    the body as well and exit with status 1, without reading the stream and
    without writing to standard output; a status code between 200 and 400 is
    reported and the run goes on as it does for 200. *)
Theorem status_handling repr argv u m stdin post r :
  resolves argv u m ->
  post (target u) (payload m stdin) = Some r ->
  let c := status_code r in
  let sent := [ReadStdin; Post (target u) (payload m stdin) true] in
  let status := Stderr (lit "Status: " ++ str_of_int c ++ newline) in
  let run := main repr argv stdin post in
  (c <> 200%Z -> In status (fst run)) /\
  ((400 <= c)%Z ->
   run = (sent ++ [status; ReadText;
                   Stderr (lit "Body: " ++ text r ++ newline)], Exit 1) /\
   stdout_of (fst run) = [] /\ ~ In NextLine (fst run)) /\
  ((200 < c < 400)%Z ->
   forall post',
     post' (target u) (payload m stdin) =
       Some {| status_code := 200; text := text r;
               iter_lines := iter_lines r |} ->
     exists events t,
       main repr argv stdin post' = (sent ++ events, t) /\
       run = (sent ++ status :: events, t)).
Proof.
  intros H Hr c sent status run. subst run.
  rewrite (main_response _ _ _ _ _ _ _ H Hr).
  unfold handle. fold c. split; [|split].
  - intros Hc. apply Z.eqb_neq in Hc. rewrite Hc. simpl negb. cbv iota.
    destruct (Z.leb 400 c); [|destruct (stream repr (iter_lines r))];
      simpl; auto.
  - intros Hc. assert (Hne : Z.eqb c 200 = false) by (apply Z.eqb_neq; lia).
    apply Z.leb_le in Hc. rewrite Hc, Hne. simpl.
    repeat split. intros [F|[F|[F|[F|[F|[]]]]]]; discriminate F.
  - intros Hc post' Hr'.
    rewrite (main_response _ _ _ _ _ _ _ H Hr'). unfold handle. simpl.
    assert (Hne : Z.eqb c 200 = false) by (apply Z.eqb_neq; lia).
    assert (Hlt : Z.leb 400 c = false) by (apply Z.leb_gt; lia).
    rewrite Hne, Hlt. simpl.
    destruct (stream repr (iter_lines r)) as [events t].
    exists events, t. split; reflexivity.
Qed.

Lemma status_handling_witness :
  resolves sample_argv (lit "http://localhost:11434") (lit "foo") /\
  main no_repr sample_argv (lit "hello")
    (answering {| status_code := 404; text := lit "not found";
                  iter_lines := [] |}) =
  ([ReadStdin;
    Post (lit "http://localhost:11434/api/generate")
      (payload (lit "foo") (lit "hello")) true;
    Stderr (lit "Status: 404" ++ newline);
    ReadText;
    Stderr (lit "Body: not found" ++ newline)], Exit 1).
Proof.
  split; [exact resolves_sample|].
  refine (proj1 (proj1 (proj2 (status_handling no_repr sample_argv _ _
            (lit "hello") (answering _) _ resolves_sample eq_refl)) _)).
  vm_compute. discriminate.
Defined.

Lemma main_200 repr argv u m stdin post r :
  resolves argv u m ->
  post (target u) (payload m stdin) = Some r ->
  status_code r = 200%Z ->
  main repr argv stdin post =
  (ReadStdin :: Post (target u) (payload m stdin) true
     :: fst (stream repr (iter_lines r)),
   snd (stream repr (iter_lines r))).
Proof.
  intros H Hr Hc. rewrite (main_response _ _ _ _ _ _ _ H Hr).
  rewrite (handle_200 _ _ Hc). reflexivity.
Qed.



(** ** The payload

    What [json.dumps] writes for a string, [json.loads] reads back: the
    escapes of [py_encode_basestring_ascii] are undone by [scanstring],
    for text without surrogate code points. *)

Lemma hex_digit_char d : d < 16 -> json.hex_digit (json.hex_char d) = Some d.
Proof.
  intros H.
  destruct d as [|p]; [reflexivity|].
  repeat (destruct p as [p|p|]; try reflexivity; try lia).
Qed.

Lemma hex_sum n :
  n < 65536 ->
  (n / 4096 mod 16) * 4096 + (n / 256 mod 16) * 256 + (n / 16 mod 16) * 16
  + n mod 16 = n.
Proof.
  intros H.
  pose proof (N.div_mod n 16 ltac:(discriminate)).
  pose proof (N.div_mod (n / 16) 16 ltac:(discriminate)).
  pose proof (N.div_mod (n / 256) 16 ltac:(discriminate)).
  pose proof (N.mod_lt n 16 ltac:(discriminate)).
  pose proof (N.mod_lt (n/16) 16 ltac:(discriminate)).
  pose proof (N.mod_lt (n/256) 16 ltac:(discriminate)).
  assert (n / 256 = n / 16 / 16) by (rewrite N.Div0.div_div; reflexivity).
  assert (n / 4096 = n / 256 / 16) by (rewrite N.Div0.div_div; reflexivity).
  assert (n / 4096 < 16) by (apply N.Div0.div_lt_upper_bound; lia).
  rewrite (N.mod_small (n / 4096) 16) by assumption.
  lia.
Qed.

Lemma land_low a b k : b < 2 ^ k -> N.land (a * 2 ^ k) b = 0.
Proof.
  intros H. apply N.bits_inj; intros i. rewrite N.land_spec, N.bits_0.
  rewrite <- N.shiftl_mul_pow2.
  destruct (N.lt_ge_cases i k) as [Hi|Hi].
  - rewrite N.shiftl_spec_low by assumption. reflexivity.
  - rewrite <- (N.mod_small b (2 ^ k)) by assumption.
    rewrite N.mod_pow2_bits_high by assumption. apply andb_false_r.
Qed.

Lemma lor_low a b k : b < 2 ^ k -> N.lor (a * 2 ^ k) b = a * 2 ^ k + b.
Proof.
  intros H. rewrite <- N.lxor_lor by (apply land_low; assumption).
  symmetry. apply N.add_nocarry_lxor. apply land_low; assumption.
Qed.

Lemma pair_join n :
  n < 1048576 ->
  let s1 := N.lor 55296 (N.land (N.shiftr n 10) 1023) in
  let s2 := N.lor 56320 (N.land n 1023) in
  55296 <= s1 <= 56319 /\ 56320 <= s2 <= 57343 /\
  65536 + N.lor (N.shiftl (s1 - 55296) 10) (s2 - 56320) = 65536 + n.
Proof.
  intros H s1 s2.
  pose proof (N.mod_lt n 1024 ltac:(discriminate)) as Hlo.
  assert (Hhi : n / 1024 < 1024) by (apply N.Div0.div_lt_upper_bound; lia).
  assert (H1 : s1 = 55296 + n / 1024).
  { subst s1. rewrite N.shiftr_div_pow2. change 1023 with (N.ones 10).
    rewrite N.land_ones. change (2 ^ 10) with 1024.
    rewrite N.mod_small by assumption.
    change 55296 with (54 * 2 ^ 10). apply lor_low. exact Hhi. }
  assert (H2 : s2 = 56320 + n mod 1024).
  { subst s2. change 1023 with (N.ones 10). rewrite N.land_ones.
    change 56320 with (55 * 2 ^ 10). apply lor_low. exact Hlo. }
  rewrite H1, H2. clear H1 H2 s1 s2.
  pose proof (N.div_mod n 1024 ltac:(discriminate)) as Hn.
  revert Hlo Hhi Hn. generalize (n / 1024), (n mod 1024). intros q r Hlo Hhi Hn.
  split; [lia|]. split; [lia|]. f_equal.
  replace (55296 + q - 55296) with q by lia.
  replace (56320 + r - 56320) with r by lia.
  rewrite N.shiftl_mul_pow2, lor_low by exact Hlo.
  change (2 ^ 10) with 1024. lia.
Qed.

Lemma decode_u_escape n :
  n < 65536 ->
  json._decode_uXXXX
    [json.hex_char (n / 4096 mod 16); json.hex_char (n / 256 mod 16);
     json.hex_char (n / 16 mod 16); json.hex_char (n mod 16)]
  = Some (n, []).
Proof.
  intros H. unfold json._decode_uXXXX.
  rewrite !hex_digit_char by (apply N.mod_lt; discriminate).
  rewrite (hex_sum n H). reflexivity.
Qed.

Section Roundtrip.

#[local] Arguments json._decode_uXXXX : simpl never.
#[local] Arguments between : simpl never.
#[local] Arguments N.eqb : simpl nomatch.
#[local] Arguments N.ltb : simpl nomatch.

Lemma scanstring_plain c s :
  N.eqb c json.quote = false -> N.ltb c 32 = false ->
  N.eqb c json.backslash = false ->
  json.scanstring (c :: s) = json.prepend c (json.scanstring s).
Proof.
  intros H1 H2 H3. cbn [json.scanstring]. rewrite H1, H2, H3. reflexivity.
Qed.

Lemma scanstring_u h1 h2 h3 h4 s uni :
  json._decode_uXXXX [h1; h2; h3; h4] = Some (uni, []) ->
  between 55296 uni 56319 = false ->
  json.scanstring (json.backslash :: ch "u" :: h1 :: h2 :: h3 :: h4 :: s)
  = json.prepend uni (json.scanstring s).
Proof.
  intros H1 H2. simpl. rewrite H1, H2. reflexivity.
Qed.

Lemma scanstring_pair h1 h2 h3 h4 g1 g2 g3 g4 s uni uni2 :
  json._decode_uXXXX [h1; h2; h3; h4] = Some (uni, []) ->
  between 55296 uni 56319 = true ->
  json._decode_uXXXX [g1; g2; g3; g4] = Some (uni2, []) ->
  between 56320 uni2 57343 = true ->
  json.scanstring
    (json.backslash :: ch "u" :: h1 :: h2 :: h3 :: h4
     :: json.backslash :: ch "u" :: g1 :: g2 :: g3 :: g4 :: s)
  = json.prepend (65536 + N.lor (N.shiftl (uni - 55296) 10) (uni2 - 56320))
      (json.scanstring s).
Proof.
  intros H1 H2 H3 H4. simpl. rewrite H1, H2, H3, H4. reflexivity.
Qed.

Lemma scanstring_replace c tail :
  scalar c = true ->
  json.scanstring (json.replace c ++ tail)
  = json.prepend c (json.scanstring tail).
Proof.
  intros Hs. unfold json.replace.
  destruct (N.eqb c json.backslash) eqn:E1.
  { apply N.eqb_eq in E1; subst c; reflexivity. }
  destruct (N.eqb c json.quote) eqn:E2.
  { apply N.eqb_eq in E2; subst c; reflexivity. }
  destruct (between 32 c 126) eqn:E3.
  { apply scanstring_plain; auto. unfold between in E3.
    apply andb_true_iff in E3 as [E3 _]. apply N.leb_le in E3.
    apply N.ltb_ge. exact E3. }
  destruct (N.eqb c 8) eqn:E4.
  { apply N.eqb_eq in E4; subst c; reflexivity. }
  destruct (N.eqb c 12) eqn:E5.
  { apply N.eqb_eq in E5; subst c; reflexivity. }
  destruct (N.eqb c 10) eqn:E6.
  { apply N.eqb_eq in E6; subst c; reflexivity. }
  destruct (N.eqb c 13) eqn:E7.
  { apply N.eqb_eq in E7; subst c; reflexivity. }
  destruct (N.eqb c 9) eqn:E8.
  { apply N.eqb_eq in E8; subst c; reflexivity. }
  unfold scalar in Hs.
  destruct (N.ltb c 65536) eqn:E9.
  - apply N.ltb_lt in E9. unfold json.u_escape.
    apply scanstring_u; [apply decode_u_escape; exact E9|].
    unfold between. apply orb_true_iff in Hs as [Hs | Hs].
    + apply N.ltb_lt in Hs. apply andb_false_iff; left. apply N.leb_gt. exact Hs.
    + apply andb_true_iff in Hs as [Hs _]. apply N.leb_le in Hs.
      apply andb_false_iff; right. apply N.leb_gt. lia.
  - apply N.ltb_ge in E9.
    assert (Hc : c - 65536 < 1048576).
    { apply orb_true_iff in Hs as [Hs | Hs].
      - apply N.ltb_lt in Hs. lia.
      - apply andb_true_iff in Hs as [_ Hs]. apply N.ltb_lt in Hs. lia. }
    destruct (pair_join _ Hc) as (B1 & B2 & J). cbv zeta in *.
    set (s1 := N.lor 55296 (N.land (N.shiftr (c - 65536) 10) 1023)) in *.
    set (s2 := N.lor 56320 (N.land (c - 65536) 1023)) in *.
    assert (D1 := decode_u_escape s1 ltac:(lia)).
    assert (D2 := decode_u_escape s2 ltac:(lia)).
    assert (H1 : between 55296 s1 56319 = true).
    { unfold between. apply andb_true_iff; split; apply N.leb_le; lia. }
    assert (H2 : between 56320 s2 57343 = true).
    { unfold between. apply andb_true_iff; split; apply N.leb_le; lia. }
    unfold json.u_escape. cbn [app].
    rewrite (scanstring_pair _ _ _ _ _ _ _ _ _ _ _ D1 H1 D2 H2), J.
    replace (65536 + (c - 65536)) with c by lia. reflexivity.
Qed.

Lemma scanstring_encode s rest :
  Forall (fun c => scalar c = true) s ->
  json.scanstring (flat_map json.replace s ++ json.quote :: rest)
  = inr (s, rest).
Proof.
  induction 1 as [|c s Hc Hs IH]; [reflexivity|].
  cbn [flat_map]. rewrite <- app_assoc, (scanstring_replace _ _ Hc), IH.
  reflexivity.
Qed.

Lemma scan_once_string fuel s rest :
  scalars s ->
  json.scan_once (S fuel) (json.quote :: flat_map json.replace s ++ json.quote :: rest)
  = inr (json.String s, rest).
Proof.
  intros H. cbn [json.scan_once]. change (N.eqb json.quote json.quote) with true.
  cbv iota. rewrite (scanstring_encode _ _ H). reflexivity.
Qed.

Lemma object_two (F : str -> json.exception + json.value * str) k k1 v1 k2 v2 rest :
  (forall s r, scalars s ->
     F (json.quote :: flat_map json.replace s ++ json.quote :: r)
     = inr (json.String s, r)) ->
  scalars k1 -> scalars v1 -> scalars k2 -> scalars v2 ->
  json.object_loop F (S (S k))
    (flat_map json.replace k1 ++ json.quote :: lit ": " ++
     json.quote :: flat_map json.replace v1 ++ json.quote :: lit ", " ++
     json.quote :: flat_map json.replace k2 ++ json.quote :: lit ": " ++
     json.quote :: flat_map json.replace v2 ++ json.quote :: ch "}" :: rest) []
  = inr (json.Object [(k1, json.String v1); (k2, json.String v2)], rest).
Proof.
  intros HF H1 H2 H3 H4.
  cbn [json.object_loop]. rewrite (scanstring_encode _ _ H1).
  cbn. rewrite (HF _ _ H2). cbn.
  rewrite (scanstring_encode _ _ H3). cbn. rewrite (HF _ _ H4). cbn.
  reflexivity.
Qed.

Lemma payload_shape m s :
  payload m s =
  ch "{" :: json.quote ::
    flat_map json.replace (lit "model") ++ json.quote :: lit ": " ++
    json.quote :: flat_map json.replace m ++ json.quote :: lit ", " ++
    json.quote :: flat_map json.replace (lit "prompt") ++ json.quote :: lit ": " ++
    json.quote :: flat_map json.replace s ++ json.quote :: ch "}" :: [].
Proof.
  unfold payload, json.dumps, json.dumps_items, json.encode_basestring_ascii.
  cbn [app]. rewrite <- !app_assoc. cbn [app].
  repeat (f_equal; try rewrite <- !app_assoc; cbn [app]).
Qed.

Lemma loads_payload m s :
  scalars m -> scalars s ->
  json.loads (payload m s)
  = inr (json.Object [(lit "model", json.String m);
                      (lit "prompt", json.String s)]).
Proof.
  intros Hm Hs. rewrite payload_shape. unfold json.loads.
  match goal with |- context [List.length ?l] => set (n := List.length l) end.
  assert (Hn : exists k, n = S (S k)) by (subst n; cbn; eauto).
  destruct Hn as [k Hn].
  cbn [startswith]. change (N.eqb (ch "{") 65279) with false. cbn [andb].
  cbv iota.
  cbn [json.skip_ws]. change (json.is_ws (ch "{")) with false. cbv iota.
  cbn [json.scan_once].
  change (N.eqb (ch "{") json.quote) with false.
  change (N.eqb (ch "{") (ch "{")) with true. cbv iota.
  unfold json.JSONObject. cbn [json.skip_ws].
  change (json.is_ws json.quote) with false. cbv iota.
  change (N.eqb json.quote json.quote) with true. cbv iota.
  cbn [List.length]. fold n. rewrite Hn.
  rewrite (object_two _ _ (lit "model") m (lit "prompt") s []);
    [reflexivity
    | intros x r Hx; apply scan_once_string; exact Hx
    | repeat constructor | exact Hm | repeat constructor | exact Hs].
Qed.

End Roundtrip.

(** ** The decoder returns, or raises its own exceptions *)

Section Decoding.

#[local] Arguments N.add : simpl never.
#[local] Arguments json._decode_uXXXX : simpl never.
#[local] Arguments between : simpl never.
#[local] Arguments N.eqb : simpl nomatch.
#[local] Arguments N.ltb : simpl nomatch.

Lemma prepend_good c s' s R :
  sgood s' R -> (List.length s' <= List.length s)%nat ->
  sgood s (json.prepend c R).
Proof.
  destruct R as [e|[x r]]; simpl; [auto | lia].
Qed.

Lemma scanstring_good n : forall s,
  (List.length s <= n)%nat -> sgood s (json.scanstring s).
Proof.
  induction n as [|n IH]; intros s Hlen.
  - destruct s; [exact I | simpl in Hlen; lia].
  - destruct s as [|c s1]; [exact I|]. simpl in Hlen. simpl json.scanstring.
    repeat first
      [ exact I
      | eapply prepend_good; [apply IH; simpl in *; lia | simpl in *; lia]
      | match goal with
        | |- sgood _ (inr _) => simpl; lia
        | |- sgood _ (match ?x with _ => _ end) => destruct x eqn:?
        | |- sgood _ (if ?x then _ else _) => destruct x eqn:?
        end ].
Qed.

Lemma scanstring_consumes s : sgood s (json.scanstring s).
Proof. apply (scanstring_good (List.length s)). lia. Qed.

Lemma skip_ws_length s : (List.length (json.skip_ws s) <= List.length s)%nat.
Proof.
  induction s as [|c s IH]; simpl; [lia|].
  destruct (json.is_ws c); simpl; lia.
Qed.

Lemma span_digits_length s : forall ds r,
  json.span_digits s = (ds, r) -> (List.length r <= List.length s)%nat.
Proof.
  induction s as [|c s IH]; intros ds r H; simpl in H.
  - inversion H; simpl; lia.
  - destruct (json.is_digit c).
    + destruct (json.span_digits s) as [ds' r'] eqn:E. inversion H; subst.
      specialize (IH _ _ eq_refl). simpl; lia.
    + inversion H; subst. simpl; lia.
Qed.

Lemma match_number_consumes s i f e r :
  json.match_number s = Some (i, f, e, r) ->
  (List.length r < List.length s)%nat.
Proof.
  unfold json.match_number. intros H.
  repeat match goal with
         | H : context [match ?x with _ => _ end] |- _ =>
             destruct x eqn:?; try discriminate H
         | H : context [if ?x then _ else _] |- _ =>
             destruct x eqn:?; try discriminate H
         | H : (_, _) = (_, _) |- _ => inversion H; subst; clear H
         | H : Some _ = Some _ |- _ => inversion H; subst; clear H
         end;
    repeat match goal with
           | H : json.span_digits _ = _ |- _ =>
               apply span_digits_length in H
           end;
    simpl in *; lia.
Qed.

Lemma good_weaken stop s s' R :
  good false s' R -> (List.length s' <= List.length s)%nat -> good stop s R.
Proof.
  destruct R as [[]|[v r]]; simpl; try tauto; try discriminate. lia.
Qed.

Lemma expecting_value_good s R :
  good true s R -> good false s (json.expecting_value R).
Proof. destruct R as [[]|[v r]]; simpl; auto. Qed.

Section Loops.

Variable F : str -> json.exception + json.value * str.
Variable bound : nat.
Hypothesis F_good :
  forall x, (List.length x <= bound)%nat -> good true x (F x).

Lemma F_value x :
  (List.length x <= bound)%nat ->
  match json.expecting_value (F x) with
  | inr (_, r) => (List.length r < List.length x)%nat
  | inl e => proper e
  end.
Proof.
  intros H. pose proof (expecting_value_good _ _ (F_good x H)) as G.
  destruct (json.expecting_value (F x)) as [[]|[v r]]; simpl in *;
    try tauto; discriminate.
Qed.

Lemma object_loop_good fuel : forall s pairs,
  (List.length s <= bound)%nat -> (List.length s < fuel)%nat ->
  good false s (json.object_loop F fuel s pairs).
Proof.
  induction fuel as [|fuel IH]; intros s pairs Hb Hf; [lia|].
  cbn [json.object_loop].
  pose proof (scanstring_consumes s) as Hs.
  destruct (json.scanstring s) as [e|[key s1]]; simpl in Hs.
  { destruct e; simpl in *; tauto. }
  set (s2 := match s1 with
             | [] => s1
             | c :: _ => if N.eqb c (ch ":") then s1 else json.skip_ws s1
             end).
  assert (H2 : (List.length s2 <= List.length s1)%nat).
  { subst s2. destruct s1 as [|c s1']; [lia|].
    destruct (N.eqb c (ch ":")); [lia | apply skip_ws_length]. }
  destruct s2 as [|c s3]; [exact I|]. simpl in H2.
  destruct (N.eqb c (ch ":")); [|exact I].
  pose proof (skip_ws_length s3) as H3.
  pose proof (F_value (json.skip_ws s3) ltac:(lia)) as Hv.
  destruct (json.expecting_value (F (json.skip_ws s3))) as [e|[v s4]].
  { destruct e; simpl in *; tauto. }
  pose proof (skip_ws_length s4) as H4.
  destruct (json.skip_ws s4) as [|n s5]; [exact I|]. simpl in H4.
  destruct (N.eqb n (ch "}")); [simpl; lia|].
  destruct (N.eqb n (ch ",")); [|exact I].
  pose proof (skip_ws_length s5) as H5.
  destruct (json.skip_ws s5) as [|q s6]; [exact I|]. simpl in H5.
  destruct (N.eqb q json.quote); [|exact I].
  eapply good_weaken; [apply IH; lia | lia].
Qed.

Lemma JSONObject_good fuel s :
  (List.length s <= bound)%nat -> (List.length s < fuel)%nat ->
  good false s (json.JSONObject F fuel s).
Proof.
  intros Hb Hf. unfold json.JSONObject.
  pose proof (skip_ws_length s) as H1.
  destruct (json.skip_ws s) as [|c s1]; [exact I|]. simpl in H1.
  destruct (N.eqb c json.quote).
  - eapply good_weaken; [apply object_loop_good; lia | lia].
  - destruct (N.eqb c (ch "}")); [simpl; lia | exact I].
Qed.

Lemma array_loop_good fuel : forall s values,
  (List.length s <= bound)%nat -> (List.length s < fuel)%nat ->
  good false s (json.array_loop F fuel s values).
Proof.
  induction fuel as [|fuel IH]; intros s values Hb Hf; [lia|].
  cbn [json.array_loop].
  pose proof (F_value s Hb) as Hv.
  destruct (json.expecting_value (F s)) as [e|[v s1]].
  { destruct e; simpl in *; tauto. }
  pose proof (skip_ws_length s1) as H1.
  destruct (json.skip_ws s1) as [|n s2]; [exact I|]. simpl in H1.
  destruct (N.eqb n (ch "]")); [simpl; lia|].
  destruct (N.eqb n (ch ",")); [|exact I].
  pose proof (skip_ws_length s2) as H2.
  eapply good_weaken; [apply IH; lia | lia].
Qed.

Lemma JSONArray_good fuel s :
  (List.length s <= bound)%nat -> (List.length s < fuel)%nat ->
  good false s (json.JSONArray F fuel s).
Proof.
  intros Hb Hf. unfold json.JSONArray.
  pose proof (skip_ws_length s) as H1.
  destruct (json.skip_ws s) as [|c s1] eqn:E.
  - eapply good_weaken; [apply array_loop_good; simpl; lia|].
    simpl; lia.
  - simpl in H1. destruct (N.eqb c (ch "]")); [simpl; lia|].
    eapply good_weaken; [apply array_loop_good; simpl; lia | simpl; lia].
Qed.

End Loops.

Lemma skipn_shorter (k : nat) (s : str) :
  s <> [] -> (0 < k)%nat -> (List.length (skipn k s) < List.length s)%nat.
Proof.
  intros Hs Hk. rewrite length_skipn. destruct s; [congruence|].
  cbn [List.length]. lia.
Qed.

Lemma scan_once_good fuel : forall s,
  (List.length s < fuel)%nat -> good true s (json.scan_once fuel s).
Proof.
  induction fuel as [|fuel IH]; intros s Hf; [lia|].
  cbn [json.scan_once]. destruct s as [|c s1]; [reflexivity|].
  simpl in Hf.
  assert (HF : forall x, (List.length x <= List.length s1)%nat ->
                 good true x (json.scan_once fuel x)).
  { intros x Hx. apply IH. lia. }
  destruct (N.eqb c json.quote).
  { pose proof (scanstring_consumes s1) as Hs.
    destruct (json.scanstring s1) as [e|[x r]]; simpl in *.
    - destruct e; simpl in *; tauto.
    - lia. }
  destruct (N.eqb c (ch "{")).
  { eapply good_weaken;
      [apply (JSONObject_good _ _ HF); simpl; lia | simpl; lia]. }
  destruct (N.eqb c (ch "[")).
  { eapply good_weaken;
      [apply (JSONArray_good _ _ HF); simpl; lia | simpl; lia]. }
  destruct (startswith (c :: s1) (lit "null"));
    [apply skipn_shorter; [discriminate | lia]|].
  destruct (startswith (c :: s1) (lit "true"));
    [apply skipn_shorter; [discriminate | lia]|].
  destruct (startswith (c :: s1) (lit "false"));
    [apply skipn_shorter; [discriminate | lia]|].
  destruct (json.match_number (c :: s1)) as [[[[i f] e] r]|] eqn:M.
  - apply match_number_consumes in M.
    destruct f, e; try exact M.
    unfold json.parse_int.
    destruct i as [|d ds]; [|destruct (N.eqb d (ch "-"))];
      match goal with
      | |- context [if ?b then _ else _] => destruct b
      end; simpl; auto.
  - destruct (startswith (c :: s1) (lit "NaN"));
      [apply skipn_shorter; [discriminate | lia]|].
    destruct (startswith (c :: s1) (lit "Infinity"));
      [apply skipn_shorter; [discriminate | lia]|].
    destruct (startswith (c :: s1) (lit "-Infinity"));
      [apply skipn_shorter; [discriminate | lia]|].
    reflexivity.
Qed.

(** [json.loads] raises [JSONDecodeError] or [ValueError], or returns. *)
Lemma loads_proper s e : json.loads s = inl e -> proper e.
Proof.
  unfold json.loads.
  destruct (startswith s [65279]); [intros H; inversion H; exact I|].
  pose proof (skip_ws_length s) as Hw.
  pose proof (expecting_value_good _ _
                (scan_once_good (S (List.length s)) (json.skip_ws s)
                   ltac:(lia))) as G.
  destruct (json.expecting_value _) as [e'|[v r]].
  - intros H; inversion H; subst. destruct e; simpl in *; tauto || discriminate.
  - destruct (json.skip_ws r); [discriminate|].
    intros H; inversion H; exact I.
Qed.

End Decoding.




Lemma hex_char_printable d : d < 16 -> printable (json.hex_char d).
Proof.
  intros H. destruct d as [|p]; [reflexivity|].
  repeat (destruct p as [p|p|]; try reflexivity; try lia).
Qed.

Lemma u_escape_printable n : Forall printable (json.u_escape n).
Proof.
  unfold json.u_escape.
  repeat (constructor;
          [first [reflexivity
                 | apply hex_char_printable; apply N.mod_lt; discriminate]|]).
  constructor.
Qed.

Lemma replace_printable c : Forall printable (json.replace c).
Proof.
  unfold json.replace.
  repeat match goal with
         | |- Forall _ (if ?b then _ else _) => destruct b eqn:?
         end;
    try (repeat constructor; fail).
  - constructor; [assumption | constructor].
  - apply u_escape_printable.
  - cbv zeta. apply Forall_app; split; apply u_escape_printable.
Qed.

Lemma encode_printable s : Forall printable (json.encode_basestring_ascii s).
Proof.
  unfold json.encode_basestring_ascii. constructor; [reflexivity|].
  apply Forall_app; split; [|repeat constructor].
  induction s as [|c s IH]; simpl; [constructor|].
  apply Forall_app; split; [apply replace_printable | exact IH].
Qed.

(** The payload consists of printable ASCII characters only. *)
Lemma payload_printable m s : Forall printable (payload m s).
Proof.
  unfold payload, json.dumps, json.dumps_items.
  constructor; [reflexivity|].
  repeat (apply Forall_app; split);
    try apply encode_printable; repeat constructor.
Qed.

Lemma stream_no_request repr lines :
  existsb is_request (fst (stream repr lines)) = false.
Proof.
  induction lines as [|line lines IH]; simpl; [reflexivity|].
  destruct (decode line) as [s|]; [|reflexivity].
  destruct (json.loads s) as [e|[]]; try reflexivity.
  destruct (stream repr lines). exact IH.
Qed.

Lemma handle_no_request repr r :
  existsb is_request (fst (handle repr r)) = false.
Proof.
  unfold handle.
  destruct (negb (Z.eqb (status_code r) 200)); destruct (Z.leb 400 (status_code r));
    try reflexivity;
    pose proof (stream_no_request repr (iter_lines r)) as H;
    destruct (stream repr (iter_lines r)); exact H.
Qed.

(** C2: a run that passes argument resolution with the URL [u] and the
    model [m] first reads standard input, then posts once, to the sanitized
    URL followed by [api/generate], asking for a streamed response; the body
    is what [json.dumps] writes for the dictionary with the model under
    [model] and the text of standard input under [prompt]: printable ASCII
    that [json.loads] reads back as that object.  Nothing else is read from
    standard input or posted. *)
Theorem request_issued repr argv u m stdin post :
  resolves argv u m ->
  let run := main repr argv stdin post in
  let body := json.dumps [(lit "model", m); (lit "prompt", stdin)] in
  (exists events t,
     run = (ReadStdin
            :: Post (sanitize u ++ lit "api/generate") body true
            :: events, t) /\
     existsb is_request events = false) /\
  Forall printable body /\
  (scalars m -> scalars stdin ->
   json.loads body
   = inr (json.Object [(lit "model", json.String m);
                       (lit "prompt", json.String stdin)])).
Proof.
  intros H run body. split; [|split].
  - subst run. rewrite (main_resolves _ _ _ _ _ _ H). unfold request.
    fold body. destruct (post _ body) as [r|].
    + pose proof (handle_no_request repr r) as Hq.
      destruct (handle repr r) as [events t]. exists events, t.
      split; [reflexivity | exact Hq].
    + exists [], (Raise RequestException). split; reflexivity.
  - apply payload_printable.
  - apply loads_payload.
Qed.

Lemma request_issued_witness :
  resolves sample_argv (lit "http://localhost:11434") (lit "foo") /\
  main no_repr sample_argv (lit "hello") unreachable
  = ([ReadStdin;
      Post (lit "http://localhost:11434/api/generate")
        (jlit "{'model': 'foo', 'prompt': 'hello'}") true],
     Raise RequestException) /\
  json.loads (jlit "{'model': 'foo', 'prompt': 'hello'}")
  = inr (json.Object [(lit "model", json.String (lit "foo"));
                      (lit "prompt", json.String (lit "hello"))]).
Proof.
  split; [exact resolves_sample|].
  destruct (request_issued no_repr sample_argv _ _ (lit "hello") unreachable
              resolves_sample) as ((events & t & Hrun & _) & _ & Hload).
  split.
  - reflexivity.
  - apply Hload; repeat constructor.
Defined.

(** * Further properties *)

(** ** What a run does, and how it ends *)

Lemma request_reads repr u m stdin post :
  existsb is_request (fst (request repr u m stdin post)) = true.
Proof.
  unfold request. destruct (post _ _) as [r|]; [|reflexivity].
  destruct (handle repr r); reflexivity.
Qed.

Lemma stream_no_exit repr lines c : snd (stream repr lines) <> Exit c.
Proof.
  induction lines as [|line lines IH]; simpl; [discriminate|].
  destruct (decode line) as [s|]; [|discriminate].
  destruct (json.loads s) as [e|[]]; try discriminate.
  destruct (stream repr lines). exact IH.
Qed.

Lemma handle_exit repr r c :
  snd (handle repr r) = Exit c ->
  c = 1%Z /\ (400 <= status_code r)%Z /\
  stdout_of (fst (handle repr r)) = [] /\
  exists before,
    fst (handle repr r)
    = before ++ [Stderr (lit "Body: " ++ text r ++ newline)].
Proof.
  unfold handle. destruct (Z.leb 400 (status_code r)) eqn:L.
  - intros H; inversion H. apply Z.leb_le in L.
    split; [reflexivity|]. split; [exact L|].
    destruct (negb (Z.eqb (status_code r) 200)); simpl;
      (split; [reflexivity|]).
    + exists [Stderr (lit "Status: " ++ str_of_int (status_code r) ++ newline);
              ReadText]. reflexivity.
    + exists [ReadText]. reflexivity.
  - pose proof (stream_no_exit repr (iter_lines r) c) as H.
    destruct (stream repr (iter_lines r)). intros H'. destruct (H H').
Qed.

Lemma stream_return repr lines :
  snd (stream repr lines) = Return -> Forall json_object_line lines.
Proof.
  induction lines as [|line lines IH]; simpl; [constructor|].
  destruct (decode line) as [s|] eqn:D; [|discriminate].
  destruct (json.loads s) as [e|[]] eqn:L; try discriminate.
  destruct (stream repr lines) as [events t]. simpl in *. intros H.
  constructor; [exists s, pairs; split; assumption | exact (IH H)].
Qed.

Lemma stream_stderr repr lines : stderr_of (fst (stream repr lines)) = [].
Proof.
  induction lines as [|line lines IH]; simpl; [reflexivity|].
  destruct (decode line) as [s|]; [|reflexivity].
  destruct (json.loads s) as [e|[]]; try reflexivity.
  destruct (stream repr lines). exact IH.
Qed.

(** X1: the program reads standard input and posts to the server exactly
    when argument resolution passes; and whenever a run involves the server
    at all (the request, the body of the response, its lines), it has read
    standard input and posted. *)
Theorem server_only_when_resolved repr argv stdin post :
  let run := main repr argv stdin post in
  ((exists u m, resolves argv u m) <->
   existsb is_request (fst run) = true) /\
  (existsb network (fst run) = true -> existsb is_request (fst run) = true).
Proof.
  intros run. subst run. split; [split|].
  - intros (u & m & H). rewrite (main_resolves _ _ _ _ _ _ H).
    apply request_reads.
  - unfold main.
    destruct (parse_known_args argv) as [e|[cmdargs unhandled]] eqn:P;
      [discriminate|].
    destruct (help cmdargs) eqn:Hh; try discriminate.
    destruct (find _ unhandled) eqn:F; [discriminate|].
    destruct (non_option_arguments cmdargs) as [| | |l] eqn:Hl;
      try discriminate.
    destruct (model cmdargs) as [| |ms|ms] eqn:Hm; try discriminate;
      (destruct (Nat.ltb 0 (List.length (l ++ unhandled))) eqn:L;
       [discriminate|]);
      (destruct (url cmdargs) as [| |u|] eqn:Hu; try discriminate);
      (destruct (subscript0 _) as [e|m] eqn:Hs; [discriminate|]);
      intros _; exists u, m; exists cmdargs, unhandled;
      (assert (Hnil : l ++ unhandled = [])
         by (destruct (l ++ unhandled); [reflexivity | discriminate L]));
      (refine (conj P (conj Hh (conj F (conj (ex_intro _ l (conj Hl Hnil))
                 (conj Hu (conj _ _))))));
       rewrite Hm; [discriminate | exact Hs]).
  - unfold main.
    destruct (parse_known_args argv) as [e|[cmdargs unhandled]] eqn:P;
      [discriminate|].
    destruct (help cmdargs) eqn:Hh; try discriminate.
    destruct (find _ unhandled) eqn:F; [discriminate|].
    destruct (non_option_arguments cmdargs) as [| | |l] eqn:Hl;
      try discriminate.
    destruct (model cmdargs) as [| |ms|ms] eqn:Hm; try discriminate;
      (destruct (Nat.ltb 0 (List.length (l ++ unhandled))) eqn:L;
       [discriminate|]);
      (destruct (url cmdargs) as [| |u|] eqn:Hu; try discriminate);
      (destruct (subscript0 _) as [e|m] eqn:Hs; [discriminate|]);
      intros _; apply request_reads.
Qed.

Lemma server_only_when_resolved_witness :
  (exists u m, resolves sample_argv u m) /\
  existsb is_request
    (fst (main no_repr sample_argv (lit "hello") unreachable)) = true.
Proof.
  assert (H : exists u m, resolves sample_argv u m).
  { exists (lit "http://localhost:11434"), (lit "foo"). exact resolves_sample. }
  split; [exact H|].
  exact (proj1 (proj1 (server_only_when_resolved no_repr sample_argv
                         (lit "hello") unreachable)) H).
Defined.

(** X2: the program exits with the statuses 0, 1 and 2 only.  Status 0 is
    the help run, which prints the usage text and nothing else; status 2 is
    the parser rejecting the command line; a run that exits with status 1
    has written nothing to standard output, and the last thing it did was to
    write a message to standard error. *)
Theorem exit_status repr argv stdin post c :
  let run := main repr argv stdin post in
  snd run = Exit c ->
  (c = 0%Z /\ run = ([Stdout (usage ++ newline)], Exit 0)) \/
  (c = 2%Z /\
   exists e, parse_known_args argv = inl e /\ usage_error e /\
             run = ([ArgparseError e], Exit 2)) \/
  (c = 1%Z /\ stdout_of (fst run) = [] /\
   exists before message, fst run = before ++ [Stderr message]).
Proof.
  intros run. subst run. unfold main.
  destruct (parse_known_args argv) as [e|[cmdargs unhandled]] eqn:P.
  { intros H; inversion H. right; left. split; [reflexivity|].
    exists e. split; [reflexivity|].
    split; [exact (parse_known_args_error _ _ P) | reflexivity]. }
  assert (Hone : forall m c,
    snd ([Stderr m], Exit 1) = Exit c ->
    (c = 0%Z /\ ([Stderr m], Exit 1) = ([Stdout (usage ++ newline)], Exit 0)) \/
    (c = 2%Z /\
     exists e : error, inr (cmdargs, unhandled) = inl e /\ usage_error e /\
        ([Stderr m], Exit 1) = ([ArgparseError e], Exit 2)) \/
    (c = 1%Z /\ stdout_of (fst ([Stderr m], Exit 1)) = [] /\
     exists before message,
       fst ([Stderr m], Exit 1) = before ++ [Stderr message])).
  { intros m c' H; inversion H. right; right.
    repeat split. exists [], m. reflexivity. }
  destruct (help cmdargs);
    try (intros H; inversion H; left; split; reflexivity).
  destruct (find _ unhandled); [apply Hone|].
  destruct (non_option_arguments cmdargs) as [| | |l]; try discriminate.
  destruct (model cmdargs) as [| |ms|ms]; try apply Hone;
    (destruct (Nat.ltb 0 (List.length (l ++ unhandled))); [apply Hone|]);
    (destruct (url cmdargs) as [| |u|]; try discriminate);
    (destruct (subscript0 _) as [e|m]; [discriminate|]);
    unfold request;
    (destruct (post _ _) as [r|]; [|discriminate]);
    pose proof (handle_exit repr r c) as He;
    destruct (handle repr r) as [events t]; simpl in *;
    intros H; destruct (He H) as (-> & _ & Hout & before & ->);
    right; right; (split; [reflexivity|]); (split; [exact Hout|]);
    eexists (ReadStdin :: Post _ _ true :: before), _; reflexivity.
Qed.

Lemma exit_status_witness :
  main no_repr [lit "x"] (lit "hello") unreachable
  = ([Stderr missing_model], Exit 1) /\
  stdout_of (fst (main no_repr [lit "x"] (lit "hello") unreachable)) = [].
Proof.
  split; [reflexivity|].
  destruct (exit_status no_repr [lit "x"] (lit "hello") unreachable 1
              eq_refl)
    as [(H & _) | [(H & _) | (_ & H & _)]];
    [discriminate H | discriminate H | exact H].
Defined.

(** X3: [main] returns normally only when argument resolution passed, the
    server answered with a status below 400, and every line of the response
    held a JSON object. *)
Theorem normal_termination repr argv stdin post :
  snd (main repr argv stdin post) = Return ->
  exists u m r,
    resolves argv u m /\
    post (target u) (payload m stdin) = Some r /\
    (status_code r < 400)%Z /\
    Forall json_object_line (iter_lines r).
Proof.
  unfold main.
  destruct (parse_known_args argv) as [e|[cmdargs unhandled]] eqn:P;
    [discriminate|].
  destruct (help cmdargs) eqn:Hh; try discriminate.
  destruct (find _ unhandled) eqn:F; [discriminate|].
  destruct (non_option_arguments cmdargs) as [| | |l] eqn:Hl;
    try discriminate.
  destruct (model cmdargs) as [| |ms|ms] eqn:Hm; try discriminate;
    (destruct (Nat.ltb 0 (List.length (l ++ unhandled))) eqn:L;
     [discriminate|]);
    (destruct (url cmdargs) as [| |u|] eqn:Hu; try discriminate);
    (destruct (subscript0 _) as [e|m] eqn:Hs; [discriminate|]);
    (assert (Hnil : l ++ unhandled = [])
       by (destruct (l ++ unhandled); [reflexivity | discriminate L]));
    (assert (R : resolves argv u m)
       by (refine (ex_intro _ cmdargs (ex_intro _ unhandled
                     (conj P (conj Hh (conj F
                        (conj (ex_intro _ l (conj Hl Hnil))
                           (conj Hu (conj _ _))))))));
           rewrite Hm; [discriminate | exact Hs]));
    unfold request; fold (target u); fold (payload m stdin);
    (destruct (post (target u) (payload m stdin)) as [r|] eqn:Hp;
     [|discriminate]);
    unfold handle;
    (destruct (Z.leb 400 (status_code r)) eqn:Hc; [discriminate|]);
    pose proof (stream_return repr (iter_lines r)) as Hr;
    destruct (stream repr (iter_lines r)) as [events t]; simpl;
    intros ->; exists u, m, r;
    (split; [exact R | split; [exact Hp | split;
       [apply Z.leb_gt; exact Hc | exact (Hr eq_refl)]]]).
Qed.

Lemma normal_termination_witness :
  exists u m r,
    resolves sample_argv u m /\
    answering hello_response (target u) (payload m (lit "hello")) = Some r /\
    (status_code r < 400)%Z /\
    Forall json_object_line (iter_lines r).
Proof.
  apply (normal_termination no_repr sample_argv (lit "hello")
           (answering hello_response)).
  reflexivity.
Defined.

(** X4: when the response has status 200, the program itself writes nothing
    to standard error, whatever the lines of the response hold. *)
Theorem quiet_success repr argv u m stdin post r :
  resolves argv u m ->
  post (target u) (payload m stdin) = Some r ->
  status_code r = 200%Z ->
  stderr_of (fst (main repr argv stdin post)) = [].
Proof.
  intros H Hr Hc. rewrite (main_200 _ _ _ _ _ _ _ H Hr Hc).
  simpl. apply stream_stderr.
Qed.

Lemma quiet_success_witness :
  stderr_of (fst (main no_repr sample_argv (lit "hello")
                    (answering hello_response))) = [].
Proof.
  exact (quiet_success no_repr sample_argv _ _ (lit "hello")
           (answering hello_response) hello_response
           resolves_sample eq_refl eq_refl).
Defined.

(** ** Command lines the parser accepts *)

(** The letters of a command line whose first part holds no [--]. *)
Lemma pattern_app pre : forall l items,
  ~ In (lit "--") pre ->
  arg_strings_pattern (pre ++ l) = inr items ->
  exists i0 i1,
    arg_strings_pattern pre = inr i0 /\ arg_strings_pattern l = inr i1 /\
    items = i0 ++ i1.
Proof.
  induction pre as [|arg pre IH]; intros l items Hno H.
  - exists [], items. repeat split. exact H.
  - simpl in H. simpl.
    destruct (str_eqb arg (lit "--")) eqn:E.
    { apply str_eqb_eq in E. destruct Hno. left. congruence. }
    destruct (_parse_optional arg) as [e|r]; [discriminate|].
    destruct (arg_strings_pattern (pre ++ l)) as [e|parts] eqn:P;
      [discriminate|].
    destruct (IH l parts (fun Hin => Hno (or_intror Hin)) P)
      as (i0 & i1 & -> & H1 & ->).
    inversion H; subst. eexists _, i1. repeat split. exact H1.
Qed.

Lemma app_option_split (taken : list (str * kind)) : forall rest pre x tail,
  existsb is_option taken = false -> is_option x = true ->
  taken ++ rest = pre ++ x :: tail ->
  exists pre', rest = pre' ++ x :: tail.
Proof.
  induction taken as [|y taken IH]; intros rest pre x tail Hno Hx H.
  - exists pre. exact H.
  - simpl in Hno. apply orb_false_iff in Hno as [Hy Hno].
    destruct pre as [|p pre]; simpl in H; inversion H; subst.
    + congruence.
    + eapply IH; eauto.
Qed.

(** Every option of the command line is at some point the argument the
    second loop of the parser is at. *)
Lemma parses_reaches_option items st st' :
  parses items st st' ->
  forall pre opt t tail,
    items = pre ++ (opt, letter_O t) :: tail ->
    exists st0, parses ((opt, letter_O t) :: tail) st0 st'.
Proof.
  induction 1 as [items st st' rest Hno Hc
                 |arg t0 rest st st1 items1 st' Hc Hp IH
                 |items taken rest st st' Hopt Hpos Hs Hne Hp IH
                 |items strings rest st st' Hopt Hpos Hs Hne Hp IH];
    intros pre opt t tail E.
  - subst items. rewrite existsb_app in Hno. simpl in Hno.
    rewrite orb_true_r in Hno. discriminate Hno.
  - destruct pre as [|p pre]; simpl in E; inversion E; subst.
    + exists st. eapply parses_optional; eauto.
    + destruct (consume_optional_inv _ _ _ _ _ _ Hc)
        as (_ & [(os & e & _ & _ & _ & ->)
                |(a & os & e & args & _ & _ & _ & _ &
                  [-> | (_ & _ & v & _ & Hr)])]);
        try (eapply IH; reflexivity).
      destruct pre as [|q pre]; simpl in Hr; inversion Hr; subst.
      eapply IH; reflexivity.
  - destruct (span_arguments_app _ _ _ Hs) as (Hi & Hno & _).
    subst items.
    destruct (app_option_split taken rest pre (opt, letter_O t) tail Hno
                eq_refl (eq_sym Hi)) as (pre' & ->).
    eapply IH; reflexivity.
  - destruct (span_arguments_app _ _ _ Hs) as (Hi & Hno & _).
    subst items.
    destruct (app_option_split strings rest pre (opt, letter_O t) tail Hno
                eq_refl (eq_sym Hi)) as (pre' & ->).
    eapply IH; reflexivity.
Qed.

(** What the loop does at an option. *)
Lemma parses_at_option opt t tail st0 st' :
  parses ((opt, letter_O t) :: tail) st0 st' ->
  exists st1 items1,
    consume_optional opt t tail st0 = inr (st1, items1) /\
    parses items1 st1 st'.
Proof.
  intros H. inversion H; subst.
  - discriminate.
  - eauto.
  - simpl in *. congruence.
  - simpl in *. congruence.
Qed.

Lemma awaits_value_tuple opt :
  awaits_value opt = true ->
  exists a os,
    _parse_optional opt = inr (Some (Some a, os, None)) /\ nargs a = 1%nat /\
    In (os, a) _option_string_actions.
Proof.
  unfold awaits_value.
  destruct (_parse_optional opt) as [e|[[[[a|] os] [x|]]|]] eqn:P;
    try discriminate.
  intros H. apply Nat.eqb_eq in H. exists a, os.
  repeat split; [exact H | exact (_parse_optional_known _ _ _ _ P)].
Qed.

Lemma consume_pairs ps : forall fuel ns dm,
  Forall option_value ps ->
  (2 * List.length ps < fuel)%nat ->
  exists ns',
    consume fuel
      (flat_map (fun p => [(fst p, letter_of (fst p)); (snd p, letter_A)]) ps)
      {| namespace := ns; positionals := true; extras := [] |}
    = inr {| namespace := ns'; positionals := false; extras := [] |} /\
    help ns' = help ns /\ non_option_arguments ns' = PyList [] /\
    (forall u0 u, url ns = PyStr u0 ->
                  chosen url_action ps (Some u0) = Some u ->
                  url ns' = PyStr u) /\
    (forall m, (forall m0, dm = Some m0 -> model ns = PyList [m0]) ->
               chosen model_action ps dm = Some m ->
               model ns' = PyList [m]).
Proof.
  induction ps as [|[opt v] ps IH]; intros fuel ns dm Hall Hfuel.
  - destruct fuel; [simpl in Hfuel; lia|]. simpl.
    eexists. split; [reflexivity|]. repeat split.
    + intros u0 u Hu H. inversion H; subst. exact Hu.
    + intros m Hdm H. apply Hdm. exact H.
  - inversion Hall as [|p ps' (Ha & Hv & Hne) Hall']; subst.
    simpl in Ha, Hv, Hne.
    destruct (awaits_value_tuple _ Ha) as (a & os & Ht & Hn & Hin).
    destruct fuel as [|fuel]; [simpl in Hfuel; lia|].
    cbn [flat_map app fst snd]. unfold letter_of at 1. rewrite Ht.
    cbn [consume existsb is_option snd orb negb consume_optional].
    rewrite Hn.
    destruct (IH fuel (take_action a [v] ns)
                (if action_eqb model_action a then Some v else dm) Hall'
                ltac:(simpl in *; lia))
      as (ns' & Hc & Hh & Hl & Hu & Hm).
    exists ns'. split; [exact Hc|].
    assert (Hma : matched_as opt = Some a)
      by (unfold matched_as; rewrite Ht; reflexivity).
    assert (Hval : _get_values a [v]
                   = match a with url_action => PyStr v | _ => PyList [v] end).
    { unfold _get_values. simpl remove_first.
      apply str_eqb_neq in Hne. rewrite Hne. destruct a; reflexivity. }
    split; [|split; [exact Hl|split]].
    + rewrite Hh. destruct a; try reflexivity. discriminate Hn.
    + intros u0 u Hu0 H. unfold chosen in H. simpl in H. rewrite Hma in H.
      destruct a; simpl in H.
      * apply (Hu v u); [|exact H]. unfold take_action. rewrite Hval.
        reflexivity.
      * apply (Hu u0 u); [|exact H]. exact Hu0.
      * discriminate Hn.
      * apply (Hu u0 u); [|exact H]. exact Hu0.
    + intros m Hdm H. unfold chosen in H. simpl in H. rewrite Hma in H.
      apply Hm; [|exact H]. intros m0 E. unfold take_action. rewrite Hval.
      destruct a; simpl in E |- *; try (apply Hdm; exact E);
        try discriminate Hn.
      inversion E; reflexivity.
Qed.

Lemma pattern_pairs ps :
  Forall option_value ps ->
  arg_strings_pattern (command_line ps)
  = inr (flat_map
           (fun p => [(fst p, letter_of (fst p)); (snd p, letter_A)]) ps).
Proof.
  induction 1 as [|[opt v] ps (Ha & Hv & Hne) _ IH]; [reflexivity|].
  simpl in Ha, Hv, Hne.
  destruct (awaits_value_tuple _ Ha) as (a & os & Ht & _).
  unfold command_line in *. cbn [flat_map app fst snd arg_strings_pattern].
  destruct (str_eqb opt (lit "--")) eqn:E.
  { apply str_eqb_eq in E. subst opt. discriminate Ha. }
  apply str_eqb_neq in Hne. rewrite Hne, Hv, IH.
  unfold letter_of. rewrite Ht. reflexivity.
Qed.

(** X5: a command line made of options that take a value, each followed by
    its value, in any order and number, with at least one of them matched to
    [--model], passes argument resolution: the request is made with the
    value of the last option matched to [--model] as the model, and with the
    value of the last option matched to [--url], or else the default URL. *)
Theorem accepted_command_line repr ps u m stdin post :
  Forall option_value ps ->
  chosen url_action ps (Some (lit "http://localhost:11434")) = Some u ->
  chosen model_action ps None = Some m ->
  resolves (command_line ps) u m /\
  main repr (command_line ps) stdin post
  = request repr (sanitize u) m stdin post.
Proof.
  intros Hall Hu Hm.
  assert (R : resolves (command_line ps) u m).
  { destruct (consume_pairs ps
                (S (List.length
                      (flat_map (fun p => [(fst p, letter_of (fst p));
                                           (snd p, letter_A)]) ps)))
                defaults None Hall)
      as (ns' & Hc & Hh & Hl & Hu' & Hm').
    { clear. induction ps; simpl in *; lia. }
    exists ns', []. unfold parse_known_args.
    rewrite (pattern_pairs _ Hall), Hc.
    split; [reflexivity|]. split; [exact Hh|]. split; [reflexivity|].
    split; [exists []; split; [exact Hl | reflexivity]|].
    split; [exact (Hu' _ _ eq_refl Hu)|].
    rewrite (Hm' m (fun m0 E => ltac:(discriminate E)) Hm).
    split; [discriminate | reflexivity]. }
  split; [exact R | exact (main_resolves _ _ _ _ _ _ R)].
Qed.

Lemma accepted_command_line_witness :
  main no_repr
    [lit "--url"; lit "http://h:1"; lit "--mod"; lit "a"; lit "--model";
     lit "b"] (lit "hello") unreachable
  = request no_repr (lit "http://h:1/") (lit "b") (lit "hello") unreachable.
Proof.
  refine (proj2 (accepted_command_line no_repr
                   [(lit "--url", lit "http://h:1"); (lit "--mod", lit "a");
                    (lit "--model", lit "b")]
                   (lit "http://h:1") (lit "b") (lit "hello") unreachable
                   _ eq_refl eq_refl)).
  repeat constructor; discriminate.
Defined.

(** X6: when the parser accepts a command line in which an option that takes a
    value is followed by its value, and no later argument before a [--] is
    matched to the same option, the attribute of the option holds that
    value: the text for [--url], the one-element list for [--model]. *)
Theorem last_value_wins pre opt a v rest cmdargs unhandled :
  ~ In (lit "--") pre ->
  matched_as opt = Some a -> awaits_value opt = true ->
  _parse_optional v = inr None -> v <> lit "--" ->
  (forall arg, In arg (options_part rest) -> matched_as arg <> Some a) ->
  parse_known_args (pre ++ opt :: v :: rest) = inr (cmdargs, unhandled) ->
  field a cmdargs
  = match a with url_action => PyStr v | _ => PyList [v] end.
Proof.
  intros Hno Hm Ha Hv Hne Hrest P.
  destruct (parse_known_args_parses _ _ _ P)
    as (items & st' & Hpat & Hp & -> & _).
  destruct (pattern_app _ _ _ Hno Hpat) as (i0 & i1 & _ & H1 & ->).
  destruct (awaits_value_tuple _ Ha) as (a' & os & Ht & Hn & Hin).
  assert (a' = a) by (unfold matched_as in Hm; rewrite Ht in Hm; congruence).
  subst a'.
  simpl in H1.
  destruct (str_eqb opt (lit "--")) eqn:E.
  { apply str_eqb_eq in E. subst opt. discriminate Ha. }
  rewrite Ht in H1.
  apply str_eqb_neq in Hne. rewrite Hne, Hv in H1.
  destruct (arg_strings_pattern rest) as [e|parts] eqn:R; [discriminate|].
  inversion H1; subst i1. clear H1.
  destruct (parses_reaches_option _ _ _ Hp _ _ _ _ eq_refl) as (st0 & Hp0).
  destruct (parses_at_option _ _ _ _ _ Hp0) as (st1 & items1 & Hc & Hp1).
  simpl in Hc. destruct (nargs a) eqn:Hna; [discriminate Hn|].
  inversion Hc; subst st1 items1. clear Hc.
  assert (Hopt : a <> non_option_arguments_action).
  { intros ->. simpl in Hin.
    repeat (destruct Hin as [Hin|Hin]; [discriminate Hin|]). exact Hin. }
  rewrite (parses_field_unchanged a _ _ _
             (fun H => False_ind _ (Hopt H)) Hp1).
  - simpl namespace. unfold take_action, _get_values. simpl remove_first.
    rewrite Hne.
    destruct a; try reflexivity; discriminate Hna.
  - intros arg os' e Hi.
    destruct (pattern_option_in _ _ _ _ R Hi) as [Hi' Hpo].
    apply (Hrest arg Hi'). unfold matched_as. rewrite Hpo. reflexivity.
Qed.

Lemma last_value_wins_witness :
  exists cmdargs unhandled,
    parse_known_args
      [lit "--model"; lit "a"; lit "--m"; lit "b"; lit "--url"; lit "u"]
    = inr (cmdargs, unhandled) /\
    field model_action cmdargs = PyList [lit "b"].
Proof.
  eexists _, _. split; [reflexivity|].
  refine (last_value_wins [lit "--model"; lit "a"] (lit "--m") model_action
            (lit "b") [lit "--url"; lit "u"] _ _ _ _ _ _ _ _ _).
  - intros [H|[H|[]]]; discriminate H.
  - reflexivity.
  - reflexivity.
  - reflexivity.
  - discriminate.
  - intros arg [<-|[<-|[]]]; discriminate.
  - reflexivity.
Defined.

(** X7: an option that takes a value and stands, before any [--], at the end
    of the command line, before a [--], or before an argument that the
    parser does not take for a positional one, makes the parser reject the
    command line, and the program exit with status 2, whatever the other
    arguments are. *)
Theorem option_without_value_rejected repr pre opt rest stdin post :
  ~ In (lit "--") pre ->
  awaits_value opt = true ->
  match rest with
  | [] => True
  | next :: _ => next = lit "--" \/ _parse_optional next <> inr None
  end ->
  exists e,
    parse_known_args (pre ++ opt :: rest) = inl e /\ usage_error e /\
    main repr (pre ++ opt :: rest) stdin post = ([ArgparseError e], Exit 2).
Proof.
  intros Hno Ha Hnext.
  destruct (parse_known_args (pre ++ opt :: rest))
    as [e|[cmdargs unhandled]] eqn:P.
  { exists e. split; [reflexivity|].
    split; [exact (parse_known_args_error _ _ P)|].
    unfold main. rewrite P. reflexivity. }
  exfalso.
  destruct (parse_known_args_parses _ _ _ P) as (items & st' & Hpat & Hp & _).
  destruct (pattern_app _ _ _ Hno Hpat) as (i0 & i1 & _ & H1 & ->).
  destruct (awaits_value_tuple _ Ha) as (a & os & Ht & Hn & _).
  simpl in H1.
  destruct (str_eqb opt (lit "--")) eqn:E.
  { apply str_eqb_eq in E. subst opt. discriminate Ha. }
  rewrite Ht in H1.
  destruct (arg_strings_pattern rest) as [e|parts] eqn:R; [discriminate|].
  inversion H1; subst i1. clear H1.
  destruct (parses_reaches_option _ _ _ Hp _ _ _ _ eq_refl) as (st0 & Hp0).
  destruct (parses_at_option _ _ _ _ _ Hp0) as (st1 & items1 & Hc & _).
  simpl in Hc. destruct (nargs a); [discriminate Hn|].
  destruct rest as [|next rest]; simpl in R.
  - inversion R; subst. discriminate Hc.
  - destruct (str_eqb next (lit "--")) eqn:E'.
    + inversion R; subst. discriminate Hc.
    + destruct Hnext as [->|Hnext]; [discriminate E'|].
      destruct (_parse_optional next) as [e|[t'|]]; [discriminate| |congruence].
      destruct (arg_strings_pattern rest); [discriminate|].
      inversion R; subst. discriminate Hc.
Qed.

Lemma option_without_value_rejected_witness :
  main no_repr [lit "--help"; lit "--mod"; lit "--url"; lit "u"]
    (lit "hello") unreachable
  = ([ArgparseError (expected_argument model_action)], Exit 2).
Proof.
  destruct (option_without_value_rejected no_repr [lit "--help"]
              (lit "--mod") [lit "--url"; lit "u"] (lit "hello") unreachable)
    as (e & He & _ & Hrun).
  - intros [H|[]]. discriminate H.
  - reflexivity.
  - right. discriminate.
  - inversion He; subst. exact Hrun.
Defined.

Lemma _parse_optional_explicit_model v :
  _parse_optional (lit "--model=" ++ v)
  = inr (Some (Some model_action, lit "--model", Some v)).
Proof. reflexivity. Qed.

Lemma _parse_optional_explicit_url v :
  _parse_optional (lit "--url=" ++ v)
  = inr (Some (Some url_action, lit "--url", Some v)).
Proof. reflexivity. Qed.

(** X8: a value attached to [--model] or [--url] with [=] is taken as it is,
    be it empty or beginning with [-]; only the value [--] is dropped by the
    parser, which leaves an empty list in the attribute, and then the
    program raises [AttributeError] at [url.endswith], or [IndexError] at
    [cmdargs.model[0]]. *)
Theorem explicit_values repr m u stdin post :
  main repr [lit "--model=" ++ m; lit "--url=" ++ u] stdin post
  = if str_eqb u (lit "--") then ([], Raise AttributeError)
    else if str_eqb m (lit "--") then ([], Raise IndexError)
    else request repr (sanitize u) m stdin post.
Proof.
  unfold main, parse_known_args.
  cbn [arg_strings_pattern].
  change (str_eqb (lit "--model=" ++ m) (lit "--")) with false.
  change (str_eqb (lit "--url=" ++ u) (lit "--")) with false.
  rewrite _parse_optional_explicit_model, _parse_optional_explicit_url.
  cbv iota beta.
  cbn [consume List.length existsb is_option snd orb negb consume_optional
       nargs Nat.eqb consume_positionals positionals span_arguments map fst
       namespace extras app].
  unfold take_action, _get_values. cbn [remove_first].
  destruct (str_eqb u (lit "--")) eqn:Eu; destruct (str_eqb m (lit "--")) eqn:Em;
    reflexivity.
Qed.

(** ** Arguments that are no options *)

Lemma in_split_first (x : str) (l : list str) :
  In x l -> exists l1 l2, l = l1 ++ x :: l2 /\ ~ In x l1.
Proof.
  induction l as [|y l IH]; [intros []|]. intros Hin.
  destruct (list_eq_dec N.eq_dec y x) as [->|Hne].
  - exists [], l. split; [reflexivity | intros []].
  - destruct Hin as [->|Hin]; [congruence|].
    destruct (IH Hin) as (l1 & l2 & -> & Hno).
    exists (y :: l1), l2. split; [reflexivity|].
    intros [H|H]; [congruence | exact (Hno H)].
Qed.

(** Where an argument that no option takes stands among the letters. *)
Lemma stray_argument_letter pre p rest items :
  arg_strings_pattern (pre ++ p :: rest) = inr items ->
  In (lit "--") pre \/
  (_parse_optional p = inr None /\ p <> lit "--" /\
   forall pre' arg, pre = pre' ++ [arg] -> awaits_value arg = false) ->
  exists ipre ipost,
    items = ipre ++ (p, letter_A) :: ipost /\
    forall pre' it, ipre = pre' ++ [it] -> ~ awaiting it.
Proof.
  intros Hpat H.
  destruct (in_dec (list_eq_dec N.eq_dec) (lit "--") pre) as [Hin|Hno].
  - clear H. destruct (in_split_first _ _ Hin) as (pre0 & mid & -> & Hno).
    rewrite <- app_assoc in Hpat.
    destruct (pattern_app _ _ _ Hno Hpat) as (i0 & i1 & _ & H1 & ->).
    simpl in H1. inversion H1; subst i1. clear H1.
    rewrite map_app. simpl.
    exists (i0 ++ (lit "--", letter_dash) :: map (fun s => (s, letter_A)) mid),
      (map (fun s => (s, letter_A)) rest).
    split; [rewrite <- app_assoc; reflexivity|].
    intros pre' it E (a & os & Hs & _).
    assert (Hit : In it ((lit "--", letter_dash)
                         :: map (fun s => (s, letter_A)) mid)).
    { destruct (exists_last
                  (l := (lit "--", letter_dash)
                        :: map (fun s => (s, letter_A)) mid)
                  ltac:(discriminate)) as (l' & z & El).
      rewrite El in E |- *. rewrite app_assoc in E.
      apply app_inj_tail in E as [_ ->]. apply in_or_app. right. left.
      reflexivity. }
    destruct Hit as [<-|Hit]; [discriminate Hs|].
    apply in_map_iff in Hit as (x & <- & _). discriminate Hs.
  - destruct H as [H|(Hp & Hne & Hpre)]; [destruct (Hno H)|].
    destruct (pattern_app _ _ _ Hno Hpat) as (i0 & i1 & H0 & H1 & ->).
    simpl in H1. apply str_eqb_neq in Hne. rewrite Hne, Hp in H1.
    destruct (arg_strings_pattern rest) as [e|parts]; [discriminate|].
    inversion H1; subst i1. clear H1.
    exists i0, parts. split; [reflexivity|].
    intros pre' [arg k] E (a & os & Hs & Hn). simpl in Hs. subst k.
    destruct (pattern_classified _ _ H0) as [_ Hmap].
    assert (Hin : In (arg, letter_O (Some a, os, None)) i0)
      by (rewrite E; apply in_or_app; right; left; reflexivity).
    destruct (pattern_option_in _ _ _ _ H0 Hin) as [_ Hpo].
    rewrite E, map_app in Hmap. simpl in Hmap.
    specialize (Hpre _ _ (eq_sym Hmap)).
    unfold awaits_value in Hpre. rewrite Hpo, Hn in Hpre. discriminate Hpre.
Qed.

(** X9: an argument other than [--] that comes after a [--], or that the
    parser takes for a positional argument and that does not follow an
    option awaiting its value, keeps the program from reading standard input
    and from contacting the server: the run ends with an exit status,
    whatever the other arguments are. *)
Theorem stray_argument_no_request repr pre p rest stdin post :
  p <> lit "--" ->
  In (lit "--") pre \/
  (_parse_optional p = inr None /\
   forall pre' arg, pre = pre' ++ [arg] -> awaits_value arg = false) ->
  let run := main repr (pre ++ p :: rest) stdin post in
  existsb is_request (fst run) = false /\
  existsb network (fst run) = false /\
  exists code, snd run = Exit code.
Proof.
  intros Hne H run. subst run. unfold main.
  destruct (parse_known_args (pre ++ p :: rest))
    as [e|[cmdargs unhandled]] eqn:P.
  { repeat split. eexists; reflexivity. }
  destruct (parse_known_args_parses _ _ _ P)
    as (items & st' & Hpat & Hp & -> & ->).
  destruct (stray_argument_letter pre p rest items Hpat) as
    (ipre & ipost & Hitems & Hlast).
  { destruct H as [H|[H1 H2]]; [left; exact H | right; auto]. }
  destruct (parses_positional_kept _ _ _ Hp ipre p ipost Hitems Hne Hlast)
    as (l & Hl & Hin).
  { intros arg os e. apply (no_positional_option _ _ _ _ _ Hpat). }
  { left; reflexivity. }
  destruct (help (namespace st'));
    try (repeat split; eexists; reflexivity).
  destruct (find _ (extras st'));
    [repeat split; eexists; reflexivity|].
  rewrite Hl.
  destruct (l ++ extras st') eqn:E; [destruct Hin|].
  destruct (model (namespace st')); repeat split; eexists; reflexivity.
Qed.

Lemma stray_argument_no_request_witness :
  existsb is_request
    (fst (main no_repr [lit "--model"; lit "m"; lit "--"; lit "--url"]
            (lit "hello") unreachable)) = false.
Proof.
  refine (proj1 (stray_argument_no_request no_repr
                   [lit "--model"; lit "m"; lit "--"] (lit "--url") []
                   (lit "hello") unreachable _ _)).
  - discriminate.
  - left. right; right; left; reflexivity.
Defined.

Lemma action_eqb_eq a b : action_eqb a b = true <-> a = b.
Proof. destruct a, b; simpl; split; congruence. Qed.

(** An attribute that the parse changes is set by an option of the command
    line. *)
Lemma parses_field_changed a items st st' :
  (a = non_option_arguments_action -> positionals st = false) ->
  parses items st st' ->
  field a (namespace st') <> field a (namespace st) ->
  exists arg os e, In (arg, letter_O (Some a, os, e)) items.
Proof.
  intros Hpos Hp Hne.
  set (test := fun it : str * kind =>
                 match snd it with
                 | letter_O (Some b, _, _) => action_eqb a b
                 | _ => false
                 end).
  destruct (existsb test items) eqn:E.
  - apply existsb_exists in E as ([arg k] & Hin & Ht). unfold test in Ht.
    simpl in Ht. destruct k as [[[[b|] os] e]| |]; try discriminate Ht.
    apply action_eqb_eq in Ht. subst b. eauto.
  - destruct Hne. apply (parses_field_unchanged a _ _ _ Hpos Hp).
    intros arg os e Hin.
    assert (Ht : test (arg, letter_O (Some a, os, e)) = true)
      by (unfold test; simpl; apply action_eqb_eq; reflexivity).
    assert (E' : existsb test items = true)
      by (apply existsb_exists; eauto).
    congruence.
Qed.

Lemma split_once_app sep s : forall p e,
  split_once sep s = Some (p, e) -> s = p ++ sep :: e.
Proof.
  induction s as [|c s IH]; intros p e H; simpl in H; [discriminate|].
  destruct (N.eqb c sep) eqn:E.
  - apply N.eqb_eq in E. inversion H; subst. reflexivity.
  - destruct (split_once sep s) as [[p' e']|]; [|discriminate].
    inversion H; subst. simpl. f_equal. apply IH. reflexivity.
Qed.

(** Every option string of the program starts with two dashes. *)
Lemma lookup_two_dashes key a :
  lookup key _option_string_actions = Some a ->
  exists r, key = ch "-" :: ch "-" :: r.
Proof.
  intros H. apply lookup_in in H. simpl in H.
  repeat (destruct H as [H|H]; [inversion H; eexists; reflexivity|]).
  destruct H.
Qed.

Section SingleDash.

#[local] Arguments N.eqb : simpl nomatch.

(** An argument whose second character is no dash: no option string is
    looked up for it, before or after an [=], and no option string starts
    with it. *)
Lemma single_dash_unmatched c1 s :
  c1 <> ch "-" ->
  _parse_optional (ch "-" :: c1 :: s)
  = if _negative_number_matcher (ch "-" :: c1 :: s) then inr None
    else if contains (ch " ") (ch "-" :: c1 :: s) then inr None
    else inr (Some (None, ch "-" :: c1 :: s, None)).
Proof.
  intros Hc.
  assert (H1 : N.eqb c1 45 = false) by (apply N.eqb_neq; exact Hc).
  assert (H2 : N.eqb 45 c1 = false)
    by (apply N.eqb_neq; intros H; apply Hc; symmetry; exact H).
  unfold _parse_optional.
  change (contains (ch "-") prefix_chars) with true. cbn [negb].
  assert (L : forall key a,
            lookup key _option_string_actions = Some a ->
            forall r, key <> ch "-" :: c1 :: r).
  { intros key a H r E. destruct (lookup_two_dashes _ _ H) as (r' & E').
    rewrite E in E'. inversion E'. apply Hc. assumption. }
  destruct (lookup (ch "-" :: c1 :: s) _option_string_actions) eqn:E.
  { destruct (L _ _ E s eq_refl). }
  cbn [List.length Nat.eqb].
  destruct (split_once (ch "=") (ch "-" :: c1 :: s)) as [[p e]|] eqn:S.
  - apply split_once_app in S.
    destruct (lookup p _option_string_actions) eqn:E'.
    { destruct (lookup_two_dashes _ _ E') as (r & ->).
      inversion S. destruct (Hc H0). }
    unfold _get_option_tuples.
    change (contains (ch "-") prefix_chars) with true.
    unfold contains at 1 2. unfold prefix_chars. simpl existsb.
    rewrite H1. simpl. rewrite H2. simpl. reflexivity.
  - unfold _get_option_tuples.
    change (contains (ch "-") prefix_chars) with true.
    unfold contains at 1 2. unfold prefix_chars. simpl existsb.
    rewrite H1. simpl. rewrite H2. simpl. reflexivity.
Qed.

End SingleDash.

(** The arguments that are matched to the help option without a value
    after [=] are its four spellings. *)
Lemma help_tuple_spelling arg os :
  _parse_optional arg = inr (Some (Some help_action, os, None)) ->
  is_help arg = true.
Proof.
  intros H.
  destruct arg as [|c0 [|c1 s]].
  { discriminate H. }
  { unfold _parse_optional in H.
    destruct (negb (contains c0 prefix_chars)); [discriminate|].
    destruct (lookup [c0] _option_string_actions) eqn:L; [|discriminate].
    destruct (lookup_two_dashes _ _ L) as (r & E). discriminate E. }
  assert (c0 = ch "-") as ->.
  { unfold _parse_optional in H.
    destruct (contains c0 prefix_chars) eqn:C; [|discriminate H].
    unfold contains, prefix_chars in C. simpl in C.
    rewrite orb_false_r in C. apply N.eqb_eq in C. exact C. }
  destruct (N.eq_dec c1 (ch "-")) as [->|Hc].
  2:{ rewrite (single_dash_unmatched _ _ Hc) in H.
      destruct (_negative_number_matcher _); [discriminate|].
      destruct (contains _ _); discriminate. }
  unfold _parse_optional in H.
  change (contains (ch "-") prefix_chars) with true in H. cbn [negb] in H.
  destruct (lookup (ch "-" :: ch "-" :: s) _option_string_actions) eqn:L.
  { inversion H; subst. apply lookup_in in L. simpl in L.
    repeat (destruct L as [L|L];
            [inversion L; subst; try reflexivity; discriminate|]).
    destruct L. }
  cbn [List.length Nat.eqb] in H.
  unfold _get_option_tuples in H.
  change (contains (ch "-") prefix_chars) with true in H. cbn [andb] in H.
  destruct (split_once (ch "=") (ch "-" :: ch "-" :: s)) as [[p x]|] eqn:S.
  { destruct (lookup p _option_string_actions); [discriminate|].
    destruct (filter _ _) as [|[o1 a1] [|t2 l]]; simpl in H;
      repeat match type of H with
             | (if ?b then _ else _) = _ => destruct b
             end; discriminate H. }
  destruct (filter (fun oa => startswith (fst oa) (ch "-" :: ch "-" :: s))
              _option_string_actions) as [|[o1 a1] [|t2 l]] eqn:F;
    simpl in H;
    repeat match type of H with
           | (if ?b then _ else _) = _ => destruct b
           end; try discriminate H.
  inversion H; subst a1 o1. clear H.
  assert (Hx : In (os, help_action)
                 (filter (fun oa => startswith (fst oa)
                                      (ch "-" :: ch "-" :: s))
                    _option_string_actions))
    by (rewrite F; left; reflexivity).
  apply filter_In in Hx as [Hin Hs]. cbn [fst] in Hs.
  apply startswith_In_prefixes in Hs. simpl in Hin.
  repeat (destruct Hin as [Hin|Hin];
          [inversion Hin; subst os; clear Hin; simpl in Hs;
           repeat (destruct Hs as [Hs|Hs];
                   [first [ discriminate Hs
                          | inversion Hs; subst s;
                            first [ discriminate L
                                  | vm_compute in F; discriminate F ] ]|]);
           destruct Hs|]).
  destruct Hin.
Qed.

(** X10: the usage text is printed, and the program exits with status 0, only
    when one of the spellings [--help], [--hel], [--he], [--h] is among the
    arguments before any [--]. *)
Theorem usage_only_on_request repr argv stdin post :
  main repr argv stdin post = ([Stdout (usage ++ newline)], Exit 0) ->
  exists arg, In arg (options_part argv) /\ is_help arg = true.
Proof.
  unfold main.
  destruct (parse_known_args argv) as [e|[cmdargs unhandled]] eqn:P;
    [discriminate|].
  destruct (parse_known_args_parses _ _ _ P)
    as (items & st' & Hpat & Hp & -> & ->).
  intros H.
  assert (Hh : help (namespace st') <> PyNone).
  { intros E. rewrite E in H.
    destruct (find _ (extras st')); [discriminate|].
    destruct (non_option_arguments (namespace st')); try discriminate.
    destruct (model (namespace st')); try discriminate;
      (destruct (Nat.ltb _ _); [discriminate|]);
      (destruct (url (namespace st')); try discriminate);
      (destruct (subscript0 _); [discriminate|]);
      unfold request in H;
      (destruct (post _ _) as [r|]; [|discriminate]);
      destruct (handle repr r); discriminate. }
  clear H.
  destruct (parses_field_changed help_action _ _ _ ltac:(discriminate) Hp Hh)
    as (arg & os & e & Hin).
  destruct (pattern_option_in _ _ _ _ Hpat Hin) as [Hin' Hpo].
  exists arg. split; [exact Hin'|].
  destruct e as [x|]; [|exact (help_tuple_spelling _ _ Hpo)].
  exfalso. apply in_split in Hin as (i1 & i2 & ->).
  destruct (parses_reaches_option _ _ _ Hp _ _ _ _ eq_refl) as (st0 & Hp0).
  destruct (parses_at_option _ _ _ _ _ Hp0) as (st1 & items1 & Hc & _).
  discriminate Hc.
Qed.

Lemma usage_only_on_request_witness :
  exists arg,
    In arg (options_part [lit "x"; lit "--he"]) /\ is_help arg = true.
Proof.
  apply (usage_only_on_request no_repr [lit "x"; lit "--he"] (lit "hello")
           unreachable).
  reflexivity.
Defined.

(** X11: [spit: missing --model option] is reported only when no argument
    before any [--] is matched to [--model]. *)
Theorem missing_model_only_without_model repr argv stdin post :
  main repr argv stdin post = ([Stderr missing_model], Exit 1) ->
  forall arg, In arg (options_part argv) ->
              matched_as arg <> Some model_action.
Proof.
  intros H arg Hin Hm.
  destruct (matched_as_parse _ _ Hm) as (os & e & Hpo).
  unfold main in H.
  destruct (parse_known_args argv) as [err|[cmdargs unhandled]] eqn:P;
    [discriminate|].
  destruct (parse_known_args_parses _ _ _ P)
    as (items & st' & Hpat & Hp & -> & ->).
  assert (Hl : is_list (model (namespace st'))).
  { apply (parses_field_set model_action is_list _ _ _
             (fun _ _ => ex_intro _ _ eq_refl) Hp).
    right. exists arg, os, e. eapply pattern_in_option; eauto. }
  destruct Hl as [l Hl]. rewrite Hl in H.
  destruct (help (namespace st')); try discriminate.
  destruct (find _ (extras st')) eqn:F.
  { inversion H. }
  destruct (non_option_arguments (namespace st')); try discriminate.
  destruct (Nat.ltb _ _).
  { inversion H. }
  destruct (url (namespace st')); try discriminate.
  destruct (subscript0 (PyList l)); [discriminate|].
  unfold request in H. destruct (post _ _) as [r|]; [|discriminate].
  destruct (handle repr r); discriminate.
Qed.

Lemma missing_model_only_without_model_witness :
  main no_repr [lit "--url"; lit "u"] (lit "hello") unreachable
  = ([Stderr missing_model], Exit 1) /\
  forall arg, In arg (options_part [lit "--url"; lit "u"]) ->
              matched_as arg <> Some model_action.
Proof.
  split; [reflexivity|].
  exact (missing_model_only_without_model no_repr [lit "--url"; lit "u"]
           (lit "hello") unreachable eq_refl).
Defined.

(** X12: the program has no short options: an argument that begins with one
    dash only is matched to no option, so [-h] is no help option; unless it
    looks like a negative number or holds a space, the parser takes it for
    an unknown option. *)
Theorem no_short_options c s :
  c <> ch "-" ->
  matched_as (ch "-" :: c :: s) = None /\
  (_negative_number_matcher (ch "-" :: c :: s) = false ->
   contains (ch " ") (ch "-" :: c :: s) = false ->
   unknown_option (ch "-" :: c :: s)).
Proof.
  intros Hc. unfold matched_as, unknown_option.
  rewrite (single_dash_unmatched _ _ Hc).
  split.
  - destruct (_negative_number_matcher _); [reflexivity|].
    destruct (contains _ _); reflexivity.
  - intros -> ->. reflexivity.
Qed.

Lemma no_short_options_witness :
  matched_as (lit "-h") = None /\
  main no_repr [lit "-h"] (lit "hello") unreachable
  = ([Stderr (unrecognized_option (lit "-h"))], Exit 1).
Proof.
  split; [|reflexivity].
  apply (no_short_options (ch "h") []). discriminate.
Defined.

Lemma span_decimal_head s ds rest :
  span_decimal s = (ds, rest) ->
  (ds = [] /\ rest = s) \/
  (exists c s', s = c :: s' /\ is_decimal c = true).
Proof.
  destruct s as [|c s']; simpl.
  - intros H; inversion H; auto.
  - destruct (is_decimal c) eqn:D.
    + intros _. right. eauto.
    + intros H; inversion H; auto.
Qed.

(** X13: an argument that looks like a negative number, a dash followed by
    digits, or by digits, a point and digits, is taken for a positional
    argument, never for an option. *)
Theorem negative_number_positional arg :
  _negative_number_matcher arg = true -> _parse_optional arg = inr None.
Proof.
  intros H.
  assert (exists c1 s, arg = ch "-" :: c1 :: s /\ c1 <> ch "-")
    as (c1 & s & -> & Hc).
  { unfold _negative_number_matcher in H.
    destruct arg as [|c s']; [discriminate|].
    apply andb_true_iff in H as [Hc H]. apply N.eqb_eq in Hc. subst c.
    destruct (span_decimal s') as [ds rest] eqn:S.
    destruct (span_decimal_head _ _ _ S) as [[-> ->] | (c1 & s & -> & D)].
    - simpl in H. destruct s' as [|d s]; [discriminate|].
      apply andb_true_iff in H as [Hd _]. apply N.eqb_eq in Hd. subst d.
      exists (ch "."), s. split; [reflexivity | discriminate].
    - exists c1, s. split; [reflexivity|]. intros ->. discriminate D. }
  rewrite (single_dash_unmatched _ _ Hc), H. reflexivity.
Qed.

Lemma negative_number_positional_witness :
  _negative_number_matcher (lit "-1.5") = true /\
  _parse_optional (lit "-1.5") = inr None.
Proof.
  split; [reflexivity|].
  apply (negative_number_positional (lit "-1.5")). reflexivity.
Defined.

(** The prefixes that more than one option string starts with. *)
Lemma shared_prefixes p :
  (2 <= List.length
          (filter (fun oa => startswith (fst oa) p) _option_string_actions))%nat ->
  In p [[]; lit "-"; lit "--"; lit "--h"; lit "--he"; lit "--hel"].
Proof.
  intros H.
  destruct (filter (fun oa => startswith (fst oa) p) _option_string_actions)
    as [|x l] eqn:F; [simpl in H; lia|].
  assert (Hx : In x (filter (fun oa => startswith (fst oa) p)
                       _option_string_actions))
    by (rewrite F; left; reflexivity).
  apply filter_In in Hx as [Hin Hs].
  apply startswith_In_prefixes in Hs.
  simpl in Hin.
  repeat (destruct Hin as [<-|Hin];
          [simpl in Hs;
           repeat (destruct Hs as [<-|Hs];
                   [first [ simpl; tauto
                          | vm_compute in F; inversion F; subst;
                            simpl in H; lia ]|]);
           destruct Hs|]).
  destruct Hin.
Qed.

Lemma _parse_optional_ambiguous arg e :
  _parse_optional arg = inl e ->
  (exists ms, e = ambiguous_option arg ms) /\
  (arg = lit "--" \/ startswith arg (lit "--=") = true).
Proof.
  intros H.
  destruct arg as [|c0 [|c1 s]]; try discriminate H.
  { unfold _parse_optional in H.
    destruct (negb (contains c0 prefix_chars)); [discriminate|].
    destruct (lookup [c0] _option_string_actions); discriminate. }
  assert (c0 = ch "-") as ->.
  { unfold _parse_optional in H.
    destruct (contains c0 prefix_chars) eqn:C; [|discriminate H].
    unfold contains, prefix_chars in C. simpl in C.
    rewrite orb_false_r in C. apply N.eqb_eq in C. exact C. }
  destruct (N.eq_dec c1 (ch "-")) as [->|Hc].
  2:{ rewrite (single_dash_unmatched _ _ Hc) in H.
      destruct (_negative_number_matcher _); [discriminate|].
      destruct (contains _ _); discriminate. }
  unfold _parse_optional in H.
  change (contains (ch "-") prefix_chars) with true in H. cbn [negb] in H.
  destruct (lookup (ch "-" :: ch "-" :: s) _option_string_actions) eqn:L;
    [discriminate|].
  cbn [List.length Nat.eqb] in H.
  unfold _get_option_tuples in H.
  change (contains (ch "-") prefix_chars) with true in H. cbn [andb] in H.
  destruct (split_once (ch "=") (ch "-" :: ch "-" :: s)) as [[p x]|] eqn:S.
  - destruct (lookup p _option_string_actions) eqn:L'; [discriminate|].
    apply split_once_app in S.
    set (f := filter (fun oa => startswith (fst oa) p) _option_string_actions)
      in *.
    assert (Hp : In p [[]; lit "-"; lit "--"; lit "--h"; lit "--he";
                       lit "--hel"]).
    { apply shared_prefixes. fold f.
      destruct f as [|t1 [|t2 l]]; [| |simpl; lia]; simpl in H;
        repeat match type of H with
               | (if ?b then _ else _) = _ => destruct b
               end; discriminate H. }
    simpl in Hp.
    destruct Hp as [<-|[<-|[<-|[<-|[<-|[<-|[]]]]]]];
      try discriminate S; try discriminate L'.
    inversion S; subst s. vm_compute in f. subst f.
    simpl in H. inversion H. split; [eexists; reflexivity | right; reflexivity].
  - set (f := filter (fun oa => startswith (fst oa) (ch "-" :: ch "-" :: s))
                _option_string_actions) in *.
    assert (Hp : In (ch "-" :: ch "-" :: s)
                   [[]; lit "-"; lit "--"; lit "--h"; lit "--he";
                    lit "--hel"]).
    { apply shared_prefixes. fold f.
      destruct f as [|t1 [|t2 l]]; [| |simpl; lia]; simpl in H;
        repeat match type of H with
               | (if ?b then _ else _) = _ => destruct b
               end; discriminate H. }
    simpl in Hp.
    destruct Hp as [Hp|[Hp|[Hp|[Hp|[Hp|[Hp|[]]]]]]];
      try discriminate Hp; inversion Hp; subst s; try discriminate L.
    vm_compute in f. subst f. simpl in H. inversion H.
    split; [eexists; reflexivity | left; reflexivity].
Qed.

Lemma no_name_ambiguous s :
  exists ms,
    _parse_optional (lit "--=" ++ s) = inl (ambiguous_option (lit "--=" ++ s) ms).
Proof. eexists. reflexivity. Qed.

Lemma startswith_inv p : forall s,
  startswith s p = true -> exists r, s = p ++ r.
Proof.
  induction p as [|c p IH]; intros s H; simpl in H.
  - exists s. reflexivity.
  - destruct s as [|d s]; [discriminate|].
    apply andb_true_iff in H as [E H]. apply N.eqb_eq in E. subst d.
    destruct (IH _ H) as (r & ->). exists r. reflexivity.
Qed.

Lemma pattern_error_origin argv : forall e,
  arg_strings_pattern argv = inl e ->
  exists arg, In arg (options_part argv) /\ _parse_optional arg = inl e.
Proof.
  induction argv as [|arg argv IH]; intros e H; simpl in H; [discriminate|].
  simpl. destruct (str_eqb arg (lit "--")); [discriminate|].
  destruct (_parse_optional arg) as [e'|r] eqn:P.
  - inversion H; subst. exists arg. split; [left; reflexivity | exact P].
  - destruct (arg_strings_pattern argv) as [e'|parts]; [|discriminate].
    inversion H; subst. destruct (IH _ eq_refl) as (arg' & Hin & Hp).
    exists arg'. split; [right; exact Hin | exact Hp].
Qed.

Lemma consume_optional_not_ambiguous arg t rest st o ms :
  consume_optional arg t rest st <> inl (ambiguous_option o ms).
Proof.
  destruct t as [[[a|] os] [x|]]; simpl; try discriminate.
  - destruct (Nat.eqb (nargs a) 1); discriminate.
  - destruct (nargs a); [discriminate|].
    destruct rest as [|[v [t| |]] rest']; discriminate.
Qed.

Lemma consume_not_ambiguous fuel o ms : forall items st,
  consume fuel items st <> inl (ambiguous_option o ms).
Proof.
  induction fuel as [|fuel IH]; intros items st; simpl.
  - destruct (existsb is_option items); simpl; [discriminate|].
    destruct (consume_positionals items st); discriminate.
  - destruct (existsb is_option items); simpl.
    2:{ destruct (consume_positionals items st); discriminate. }
    assert (G : (let (st1, items1) := consume_positionals items st in
                 if Nat.ltb (List.length items1) (List.length items)
                 then consume fuel items1 st1
                 else let (strings, items2) := span_arguments items1 in
                      consume fuel items2
                        {| namespace := namespace st1;
                           positionals := positionals st1;
                           extras := extras st1 ++ map fst strings |})
                <> inl (ambiguous_option o ms)).
    { destruct (consume_positionals items st) as [st1 items1].
      destruct (Nat.ltb _ _); [apply IH|].
      destruct (span_arguments items1). apply IH. }
    destruct items as [|[arg [t| |]] rest]; try exact G.
    destruct (consume_optional arg t rest st) as [e|[st1 items1]] eqn:C.
    + intros H. inversion H; subst.
      exact (consume_optional_not_ambiguous _ _ _ _ _ _ C).
    + apply IH.
Qed.



(** ** Text, bytes and JSON *)

Lemma between_spec lo b hi : between lo b hi = true <-> lo <= b <= hi.
Proof.
  unfold between. rewrite andb_true_iff, !N.leb_le. tauto.
Qed.

Lemma is_continuation_spec b : is_continuation b = true <-> 128 <= b <= 191.
Proof.
  unfold is_continuation. rewrite andb_true_iff, !N.leb_le. tauto.
Qed.

Lemma scalar_spec c :
  scalar c = true <-> c < 55296 \/ 57344 <= c < 1114112.
Proof.
  unfold scalar. rewrite orb_true_iff, andb_true_iff, !N.ltb_lt, N.leb_le.
  tauto.
Qed.

Lemma utf8_decode_scalars n : forall bs s,
  (List.length bs <= n)%nat ->
  utf8_decode bs = Some s -> Forall (fun c => scalar c = true) s.
Proof.
  induction n as [|n IH]; intros bs s Hn H.
  - destruct bs; [|simpl in Hn; lia]. inversion H. constructor.
  - destruct bs as [|b0 r0]; [inversion H; constructor|].
    simpl in Hn. cbn [utf8_decode] in H.
    destruct (N.ltb b0 128) eqn:A.
    { destruct (utf8_decode r0) as [s0|] eqn:D; [|discriminate].
      inversion H; subst. constructor.
      - apply scalar_spec. apply N.ltb_lt in A. lia.
      - eapply IH; [|exact D]. lia. }
    destruct r0 as [|b1 r1]; [discriminate|]. simpl in Hn.
    destruct (between 194 b0 223) eqn:B2.
    { destruct (is_continuation b1) eqn:C1; [|discriminate].
      destruct (utf8_decode r1) as [s0|] eqn:D; [|discriminate].
      inversion H; subst. constructor.
      - apply scalar_spec. apply between_spec in B2.
        apply is_continuation_spec in C1. lia.
      - eapply IH; [|exact D]. lia. }
    destruct r1 as [|b2 r2]; [discriminate|]. simpl in Hn.
    destruct (between 224 b0 239) eqn:B3.
    { match type of H with
      | (if ?c then _ else _) = _ => destruct c eqn:C; [|discriminate]
      end.
      destruct (utf8_decode r2) as [s0|] eqn:D; [|discriminate].
      inversion H; subst. constructor.
      - apply scalar_spec. apply between_spec in B3.
        apply andb_true_iff in C as [C1 C2].
        apply is_continuation_spec in C2.
        destruct (N.eqb b0 224) eqn:E1;
          [apply N.eqb_eq in E1; apply between_spec in C1; lia|].
        destruct (N.eqb b0 237) eqn:E2;
          [apply N.eqb_eq in E2; apply between_spec in C1; lia|].
        apply is_continuation_spec in C1.
        apply N.eqb_neq in E1, E2. lia.
      - eapply IH; [|exact D]. lia. }
    destruct r2 as [|b3 r3]; [discriminate|]. simpl in Hn.
    destruct (between 240 b0 244) eqn:B4; [|discriminate].
    match type of H with
    | (if ?c then _ else _) = _ => destruct c eqn:C; [|discriminate]
    end.
    destruct (utf8_decode r3) as [s0|] eqn:D; [|discriminate].
    inversion H; subst. constructor.
    + apply scalar_spec. apply between_spec in B4.
      apply andb_true_iff in C as [C C3].
      apply andb_true_iff in C as [C1 C2].
      apply is_continuation_spec in C2, C3.
      destruct (N.eqb b0 240) eqn:E1;
        [apply N.eqb_eq in E1; apply between_spec in C1; lia|].
      destruct (N.eqb b0 244) eqn:E2;
        [apply N.eqb_eq in E2; apply between_spec in C1; lia|].
      apply is_continuation_spec in C1.
      apply N.eqb_neq in E1, E2. lia.
    + eapply IH; [|exact D]. lia.
Qed.

Lemma utf8_decode_ascii bs :
  Forall (fun b => b < 128) bs -> utf8_decode bs = Some bs.
Proof.
  induction 1 as [|b bs Hb _ IH]; [reflexivity|].
  cbn [utf8_decode]. apply N.ltb_lt in Hb. rewrite Hb, IH. reflexivity.
Qed.

(** X15: the text [line.decode('utf-8')] gives holds Unicode scalar values
    only, no surrogate and nothing above U+10FFFF; and a line of ASCII bytes
    decodes to the characters with the same codes. *)
Theorem decode_strict (line : bytes) :
  (forall s, decode line = Some s -> scalars s) /\
  (Forall (fun b => Byte.to_N b < 128) line ->
   decode line = Some (map Byte.to_N line)).
Proof.
  unfold decode. split.
  - intros s H. exact (utf8_decode_scalars _ _ _ (le_n _) H).
  - intros H. apply utf8_decode_ascii. apply Forall_map. exact H.
Qed.

Lemma decode_strict_witness :
  decode (jbytes "{'response':'lo'}") = Some (jlit "{'response':'lo'}") /\
  scalars (jlit "{'response':'lo'}").
Proof.
  split; [reflexivity|].
  apply (proj1 (decode_strict (jbytes "{'response':'lo'}"))). reflexivity.
Defined.

Lemma replace_unescaped c : unescaped c = true -> json.replace c = [c].
Proof.
  unfold unescaped, json.replace. intros H.
  apply andb_true_iff in H as [H Hb]. apply andb_true_iff in H as [H Hq].
  apply negb_true_iff in Hb, Hq. rewrite Hb, Hq, H. reflexivity.
Qed.

Lemma encode_unescaped s :
  Forall (fun c => unescaped c = true) s -> flat_map json.replace s = s.
Proof.
  induction 1 as [|c s Hc _ IH]; [reflexivity|].
  cbn [flat_map]. rewrite (replace_unescaped _ Hc), IH. reflexivity.
Qed.

(** X16: for a model and an input of printable ASCII characters other than
    the double quote and the backslash, the body of the request is the text
    [{"model": "m", "prompt": "s"}] with the model and the input in it as
    they are. *)
Theorem payload_plain m s :
  Forall (fun c => unescaped c = true) m ->
  Forall (fun c => unescaped c = true) s ->
  payload m s
  = jlit "{'model': '" ++ m ++ jlit "', 'prompt': '" ++ s ++ jlit "'}".
Proof.
  intros Hm Hs. rewrite payload_shape.
  rewrite (encode_unescaped _ Hm), (encode_unescaped _ Hs).
  change (flat_map json.replace (lit "model")) with (lit "model").
  change (flat_map json.replace (lit "prompt")) with (lit "prompt").
  change (jlit "{'model': '") with (ch "{" :: json.quote :: lit "model" ++ json.quote :: lit ": " ++ [json.quote]).
  change (jlit "', 'prompt': '") with (json.quote :: lit ", " ++ json.quote :: lit "prompt" ++ json.quote :: lit ": " ++ [json.quote]).
  change (jlit "'}") with [json.quote; ch "}"].
  cbn [app]. rewrite <- !app_assoc. cbn [app].
  repeat (f_equal; try rewrite <- !app_assoc; cbn [app]).
Qed.

Lemma payload_plain_witness :
  payload (lit "foo") (lit "hello")
  = jlit "{'model': 'foo', 'prompt': 'hello'}".
Proof.
  apply (payload_plain (lit "foo") (lit "hello"));
    repeat constructor.
Defined.

Section Response.

#[local] Arguments json._decode_uXXXX : simpl never.
#[local] Arguments between : simpl never.
#[local] Arguments N.eqb : simpl nomatch.
#[local] Arguments N.ltb : simpl nomatch.

Lemma object_one (F : str -> json.exception + json.value * str) k k1 v1 rest :
  (forall s r, scalars s ->
     F (json.quote :: flat_map json.replace s ++ json.quote :: r)
     = inr (json.String s, r)) ->
  scalars k1 -> scalars v1 ->
  json.object_loop F (S k)
    (flat_map json.replace k1 ++ json.quote :: ch ":" ::
     json.quote :: flat_map json.replace v1 ++ json.quote :: ch "}" :: rest) []
  = inr (json.Object [(k1, json.String v1)], rest).
Proof.
  intros HF H1 H2.
  cbn [json.object_loop]. rewrite (scanstring_encode _ _ H1).
  cbn. rewrite (HF _ _ H2). cbn. reflexivity.
Qed.

Lemma loads_response s :
  scalars s ->
  json.loads (jlit "{'response':" ++ json.encode_basestring_ascii s ++ jlit "}")
  = inr (json.Object [(lit "response", json.String s)]).
Proof.
  intros Hs. unfold json.encode_basestring_ascii.
  change (jlit "{'response':")
    with (ch "{" :: json.quote :: flat_map json.replace (lit "response")
          ++ [json.quote; ch ":"]).
  change (jlit "}") with [ch "}"].
  cbn [app]. rewrite <- ?app_assoc. cbn [app]. rewrite <- ?app_assoc.
  cbn [app].
  unfold json.loads.
  match goal with |- context [List.length ?l] => set (n := List.length l) end.
  assert (Hn : exists k, n = S k) by (subst n; cbn; eauto).
  destruct Hn as [k Hn].
  cbn [startswith]. change (N.eqb (ch "{") 65279) with false. cbn [andb].
  cbv iota.
  cbn [json.skip_ws]. change (json.is_ws (ch "{")) with false. cbv iota.
  cbn [json.scan_once].
  change (N.eqb (ch "{") json.quote) with false.
  change (N.eqb (ch "{") (ch "{")) with true. cbv iota.
  unfold json.JSONObject. cbn [json.skip_ws].
  change (json.is_ws json.quote) with false. cbv iota.
  change (N.eqb json.quote json.quote) with true. cbv iota.
  cbn [List.length]. fold n. rewrite Hn.
  rewrite (object_one _ _ (lit "response") s []);
    [reflexivity
    | intros x r Hx; apply scan_once_string; exact Hx
    | repeat constructor | exact Hs].
Qed.

End Response.

Lemma printable_ascii s : Forall printable s -> Forall (fun b => b < 128) s.
Proof.
  apply Forall_impl. intros c H. apply between_spec in H. lia.
Qed.

(** X17: a line [{"response":"..."}] whose string is a text of Unicode scalar
    values written with the escapes of [json.dumps] holds a JSON object, and
    what the program prints for it is that text: the escapes are undone. *)
Theorem escaped_response_printed repr (line : bytes) s :
  scalars s ->
  map Byte.to_N line
  = jlit "{'response':" ++ json.encode_basestring_ascii s ++ jlit "}" ->
  json_object_line line /\ response_field repr line = s.
Proof.
  intros Hs Hline.
  assert (D : decode line
              = Some (jlit "{'response':" ++ json.encode_basestring_ascii s
                      ++ jlit "}")).
  { unfold decode. rewrite Hline. apply utf8_decode_ascii.
    apply printable_ascii. apply Forall_app. split; [repeat constructor|].
    apply Forall_app. split; [apply encode_printable | repeat constructor]. }
  split.
  - exists (jlit "{'response':" ++ json.encode_basestring_ascii s ++ jlit "}"),
      [(lit "response", json.String s)].
    split; [exact D | apply loads_response; exact Hs].
  - unfold response_field. rewrite D, (loads_response _ Hs). reflexivity.
Qed.

Lemma escaped_response_printed_witness :
  response_field no_repr
    (jbytes "{'response':'a\n\u00e9\ud83d\ude00'}")
  = [97; 10; 233; 128512].
Proof.
  refine (proj2 (escaped_response_printed no_repr
                   (jbytes "{'response':'a\n\u00e9\ud83d\ude00'}")
                   [97; 10; 233; 128512] _ _)).
  - repeat constructor.
  - reflexivity.
Defined.

(** X18: [part.get('response', '')] on an object read from JSON: a key
    written last gives its value, also when the key occurs before; a key
    that does not occur gives the default; and a pair with another key,
    written last, changes nothing. *)
Theorem get_last_wins pairs key v d :
  json.get (pairs ++ [(key, v)]) key d = v /\
  ((forall x, ~ In (key, x) pairs) -> json.get pairs key d = d) /\
  (forall k x, k <> key ->
     json.get (pairs ++ [(k, x)]) key d = json.get pairs key d).
Proof.
  split; [|split].
  - revert d. induction pairs as [|[k x] pairs IH]; intros d; simpl.
    + rewrite str_eqb_refl. reflexivity.
    + apply IH.
  - revert d. induction pairs as [|[k x] pairs IH]; intros d Hno; simpl;
      [reflexivity|].
    destruct (str_eqb k key) eqn:E.
    + apply str_eqb_eq in E. subst k. destruct (Hno x). left; reflexivity.
    + apply IH. intros y Hin. apply (Hno y). right; exact Hin.
  - intros k x Hne. revert d.
    induction pairs as [|[k' x'] pairs IH]; intros d; simpl.
    + apply str_eqb_neq in Hne. rewrite Hne. reflexivity.
    + apply IH.
Qed.

Lemma get_last_wins_witness :
  json.get [(lit "response", json.String (lit "a"));
            (lit "done", json.Bool false);
            (lit "response", json.String (lit "b"))]
    (lit "response") (json.String [])
  = json.String (lit "b").
Proof.
  exact (proj1 (get_last_wins
                  [(lit "response", json.String (lit "a"));
                   (lit "done", json.Bool false)]
                  (lit "response") (json.String (lit "b")) (json.String []))).
Defined.

Lemma skip_ws_blank s :
  Forall (fun c => json.is_ws c = true) s -> json.skip_ws s = [].
Proof.
  induction 1 as [|c s Hc _ IH]; [reflexivity|].
  simpl. rewrite Hc. exact IH.
Qed.

Lemma is_ws_ascii c : json.is_ws c = true -> c < 128.
Proof.
  unfold json.is_ws. rewrite !orb_true_iff, !N.eqb_eq. lia.
Qed.

Lemma loads_blank s :
  Forall (fun c => json.is_ws c = true) s ->
  json.loads s = inl (json.JSONDecodeError "Expecting value").
Proof.
  intros H. unfold json.loads.
  assert (B : startswith s [65279] = false).
  { destruct H as [|c s Hc _]; [reflexivity|]. simpl.
    destruct (N.eqb c 65279) eqn:E; [|reflexivity].
    apply N.eqb_eq in E. subst c. discriminate Hc. }
  rewrite B, (skip_ws_blank _ H). reflexivity.
Qed.


